(** * Anatomy tree reconstruction and schema serialization (converters.ts)

    A shallow embedding of the converter module of the props exporter:
    [convertAnatomyToTree] with its helpers [buildTreeFromAnatomy],
    [renderTree] and [compareAnatomies], the scalar formatter
    [formatYAMLValue], and the property type mapping of
    [convertToTypeScript] and [convertToJSDoc].

    The repository holds three copies of the module.  The one embedded here
    is the copy that takes the anatomy in both shapes, as an array of records
    and as an object keyed by element name, which is what the extractor of
    [code.ts] writes; line numbers in the comments are its lines.  The two
    older copies take the object only, sort its entries by path, and drop a
    node whose parent is not found.

    The converters take values of TypeScript type [any].  They are embedded
    over a small universe of JavaScript values, with property reads, truthiness,
    string conversion and strict equality written out, and with a result type
    for the [TypeError]s a read on [null] or [undefined] raises.

    Conventions of the model:
    - a string is a sequence of bytes (the UTF-8 encoding of the JavaScript
      string); every separator and reserved character the code looks for is
      ASCII, so searching and splitting agree with the code-unit version;
    - a number is an integer, printed in decimal (as JavaScript prints an
      integer below 10^21);
    - an object is the list of its own properties in [Object.keys] order;
    - the input is a tree of values: two distinct positions of it never hold
      the same object, so [===] on two objects or arrays is [false]. *)

From Stdlib Require Import String Ascii List ZArith Lia Bool Arith PeanoNat.
From Stdlib Require Import DecimalString Sorted Permutation OrderedTypeEx.
From Stdlib Require Import NArith DecimalNat DecimalZ DecimalPos FinFun.
Import ListNotations.
Open Scope string_scope.
Open Scope list_scope.

Set Implicit Arguments.
Set Warnings "-register-all".

(** String concatenation, kept apart from list concatenation. *)
Notation "a +++ b" := (String.append a b) (at level 60, right associativity).

(** ** Results of fallible code *)

Inductive result (A : Type) : Type :=
| Ok (a : A)
| Throw.

Arguments Ok {A} a.
Arguments Throw {A}.

Definition bind {A B : Type} (r : result A) (k : A -> result B) : result B :=
  match r with
  | Ok a => k a
  | Throw => Throw
  end.

Notation "x <- c ;; k" := (bind c (fun x => k))
  (at level 61, c at next level, right associativity).

Fixpoint mapM {A B : Type} (f : A -> result B) (l : list A) : result (list B) :=
  match l with
  | [] => Ok []
  | a :: rest =>
      b <- f a ;;
      bs <- mapM f rest ;;
      Ok (b :: bs)
  end.

Fixpoint foldM {A S : Type} (f : S -> A -> result S) (l : list A) (s : S) : result S :=
  match l with
  | [] => Ok s
  | a :: rest =>
      s' <- f s a ;;
      foldM f rest s'
  end.

(** ** Strings *)

Module Str.

Definition dquote : ascii := ascii_of_nat 34.
Definition backslash : ascii := ascii_of_nat 92.
Definition newline : ascii := ascii_of_nat 10.

Definition ofChar (c : ascii) : string := String c EmptyString.

(** [s.startsWith(p)] *)
Fixpoint startsWith (s p : string) : bool :=
  match p, s with
  | EmptyString, _ => true
  | String _ _, EmptyString => false
  | String a p', String b s' => Ascii.eqb a b && startsWith s' p'
  end.

(** [s.includes(p)] *)
Fixpoint includes (s p : string) : bool :=
  startsWith s p ||
  match s with
  | EmptyString => false
  | String _ s' => includes s' p
  end.

(** [s.endsWith(p)] *)
Fixpoint endsWith (s p : string) : bool :=
  String.eqb s p ||
  match s with
  | EmptyString => false
  | String _ s' => endsWith s' p
  end.

(** [s.split(sep)] for a non-empty separator: [cur] is the segment read so
    far; [skip] counts the bytes of a separator still to pass. *)
Fixpoint splitAux (sep : string) (s : string) (cur : string) (skip : nat) : list string :=
  match s with
  | EmptyString => [cur]
  | String c s' =>
      match skip with
      | S k => splitAux sep s' cur k
      | O =>
          if startsWith s sep
          then cur :: splitAux sep s' EmptyString (String.length sep - 1)
          else splitAux sep s' (cur +++ ofChar c) 0
      end
  end.

Definition split (s sep : string) : list string := splitAux sep s EmptyString 0.

(** [l.join(sep)] on strings *)
Definition join (sep : string) (l : list string) : string := String.concat sep l.

(** [s.replace(/c/g, r)] for a single character [c] *)
Fixpoint replaceAll (c : ascii) (r : string) (s : string) : string :=
  match s with
  | EmptyString => EmptyString
  | String a s' =>
      (if Ascii.eqb a c then r else ofChar a) +++ replaceAll c r s'
  end.

(** [s.repeat(n)] *)
Fixpoint repeat (s : string) (n : nat) : string :=
  match n with
  | O => EmptyString
  | S n' => s +++ repeat s n'
  end.

Definition ofNat (n : nat) : string := NilEmpty.string_of_uint (Nat.to_uint n).
Definition ofZ (z : Z) : string := NilZero.string_of_int (Z.to_int z).

End Str.

(** ** JavaScript values *)

Inductive value : Type :=
| VUndefined
| VNull
| VBool (b : bool)
| VNum (n : Z)
| VStr (s : string)
| VArr (items : list value)
| VObj (fields : list (string * value)).

Module Js.

(** The numbers of the data are integers, and [VNum n] stands for a number
    of the program when [n] is a safe integer, one of at most 2^53 - 1 in
    absolute value.  Fractions, NaN, the infinities and the numbers from
    10^21 on, which [toString] writes with an exponent, are not modelled. *)
Definition safeInteger (n : Z) : Prop := (Z.abs n <= 9007199254740991)%Z.

(** [!!v] *)
Definition truthy (v : value) : bool :=
  match v with
  | VUndefined | VNull => false
  | VBool b => b
  | VNum n => negb (Z.eqb n 0)
  | VStr s => negb (String.eqb s EmptyString)
  | VArr _ | VObj _ => true
  end.

(** [a || b] *)
Definition or (a b : value) : value := if truthy a then a else b.

(** [typeof v === 'object'] *)
Definition typeofObject (v : value) : bool :=
  match v with
  | VNull | VArr _ | VObj _ => true
  | _ => false
  end.

(** [Array.isArray(v)] *)
Definition isArray (v : value) : bool :=
  match v with
  | VArr _ => true
  | _ => false
  end.

(** [a === b]; two objects met at different places of the input are
    different objects. *)
Definition strictEq (a b : value) : bool :=
  match a, b with
  | VUndefined, VUndefined => true
  | VNull, VNull => true
  | VBool x, VBool y => Bool.eqb x y
  | VNum x, VNum y => Z.eqb x y
  | VStr x, VStr y => String.eqb x y
  | _, _ => false
  end.

(** [String(v)], which is also what a template literal does. *)
Fixpoint toStr (v : value) : string :=
  match v with
  | VUndefined => "undefined"
  | VNull => "null"
  | VBool true => "true"
  | VBool false => "false"
  | VNum n => Str.ofZ n
  | VStr s => s
  | VArr items =>
      Str.join ","
        (map (fun x => match x with
                       | VUndefined | VNull => EmptyString
                       | _ => toStr x
                       end) items)
  | VObj _ => "[object Object]"
  end.

(** The element of [l] whose index prints as [k]. *)
Fixpoint atKey {A : Type} (k : string) (i : nat) (l : list A) : option A :=
  match l with
  | [] => None
  | a :: rest => if String.eqb (Str.ofNat i) k then Some a else atKey k (S i) rest
  end.

Fixpoint lookup (k : string) (fields : list (string * value)) : option value :=
  match fields with
  | [] => None
  | (k', v) :: rest => if String.eqb k' k then Some v else lookup k rest
  end.

Definition orUndefined (o : option value) : value :=
  match o with
  | Some v => v
  | None => VUndefined
  end.

Definition chars (s : string) : list value :=
  map (fun c => VStr (Str.ofChar c)) (list_ascii_of_string s).

(** [v[k]] and [v.k]: a read on [null] or [undefined] throws. *)
Definition get (v : value) (k : string) : result value :=
  match v with
  | VUndefined | VNull => Throw
  | VBool _ | VNum _ => Ok VUndefined
  | VStr s =>
      if String.eqb k "length" then Ok (VNum (Z.of_nat (String.length s)))
      else Ok (orUndefined (atKey k 0 (chars s)))
  | VArr items =>
      if String.eqb k "length" then Ok (VNum (Z.of_nat (List.length items)))
      else Ok (orUndefined (atKey k 0 items))
  | VObj fields => Ok (orUndefined (lookup k fields))
  end.

Definition indices {A : Type} (l : list A) : list string :=
  map Str.ofNat (seq 0 (List.length l)).

(** [Object.keys(v)] *)
Definition keys (v : value) : result (list string) :=
  match v with
  | VUndefined | VNull => Throw
  | VBool _ | VNum _ => Ok []
  | VStr s => Ok (indices (chars s))
  | VArr items => Ok (indices items)
  | VObj fields => Ok (map fst fields)
  end.

(** [l[0]], [undefined] on the empty list; as a property key it reads
    ["undefined"]. *)
Definition firstKey (l : list string) : string :=
  match l with
  | [] => "undefined"
  | k :: _ => k
  end.

(** *** [Map]

    Entries in insertion order; keys are compared as [Map] does, which on the
    values of this model is [===]. *)
Section MapModel.
Variable V : Type.

Definition jsmap := list (value * V).

Fixpoint mapGet (k : value) (m : jsmap) : option V :=
  match m with
  | [] => None
  | (k', v) :: rest => if strictEq k' k then Some v else mapGet k rest
  end.

Fixpoint mapSet (k : value) (v : V) (m : jsmap) : jsmap :=
  match m with
  | [] => [(k, v)]
  | (k', v') :: rest =>
      if strictEq k' k then (k', v) :: rest else (k', v') :: mapSet k v rest
  end.
End MapModel.

End Js.

(** ** The anatomy tree *)

Module Tree.
Import Js.

(** The scalar fields of the [TreeNode] interface. *)
Record NodeInfo : Type := mkInfo {
  name : value;
  type : value;
  path : value;
  parentPath : value
}.

(** A [TreeNode] as [renderTree] reads it. *)
Inductive TreeNode : Type :=
| Node (info : NodeInfo) (children : list TreeNode).

(** A [TreeNode] object while the builder runs: [children] holds references,
    and a node is shared between [nodesByPath] and the list it was pushed
    on.  A reference is the node's index in the store, which is also the
    index of the record it was made from. *)
Record Cell : Type := mkCell {
  info : NodeInfo;
  children : list nat
}.

Record BuildState : Type := mkState {
  store : list Cell;
  nodesByPath : jsmap nat;
  rootNodes : list nat
}.

Definition emptyState : BuildState := mkState [] [] [].

(** [parent.children.push(treeNode)] *)
Fixpoint pushChild (parent child : nat) (st : list Cell) : list Cell :=
  match st, parent with
  | [], _ => []
  | c :: rest, O => mkCell (info c) (children c ++ [child]) :: rest
  | c :: rest, S p => c :: pushChild p child rest
  end.

Definition sep : string := " > ".

(** The record made of one entry of a flat mapping (lines 27 to 32). *)
Definition recordOfEntry (anatomy : value) (nodeName : string) : result value :=
  entry <- get anatomy nodeName ;;
  ty <- get entry "type" ;;
  pa <- get entry "path" ;;
  match pa with
  | VStr p =>
      Ok (VObj [("name", VStr nodeName);
                ("type", ty);
                ("path", pa);
                ("parentPath", VStr (Str.join sep (removelast (Str.split p sep))))])
  | _ => Throw
  end.

(** [nodesArray] (lines 20 to 33). *)
Definition nodesArrayOf (anatomy : value) : result (list value) :=
  match anatomy with
  | VArr items => Ok items
  | _ =>
      ks <- keys anatomy ;;
      mapM (recordOfEntry anatomy) ks
  end.

(** The body of the loop over [nodesArray] (lines 39 to 64). *)
Definition addNode (st : BuildState) (nodeData : value) : result BuildState :=
  nm <- get nodeData "name" ;;
  ty <- get nodeData "type" ;;
  pa <- get nodeData "path" ;;
  pp <- get nodeData "parentPath" ;;
  let treeNode :=
    mkInfo nm (or ty (VStr "UNKNOWN")) (or pa nm) (or pp (VStr EmptyString)) in
  let ref := List.length (store st) in
  let store1 := store st ++ [mkCell treeNode []] in
  let pathKey := or pa nm in
  let byPath := mapSet pathKey ref (nodesByPath st) in
  if negb (truthy pp) || strictEq pp (VStr EmptyString)
  then Ok (mkState store1 byPath (rootNodes st ++ [ref]))
  else
    match mapGet pp byPath with
    | Some parent => Ok (mkState (pushChild parent ref store1) byPath (rootNodes st))
    | None => Ok (mkState store1 byPath (rootNodes st ++ [ref]))
    end.

Definition buildStore (anatomy : value) : result BuildState :=
  nodesArray <- nodesArrayOf anatomy ;;
  foldM addNode nodesArray emptyState.

(** *** Reading a node off the store

    [rootNodes] is returned as a list of references, and [renderTree]
    follows [children] from each of them.  [reify] reads the same nodes off
    the store as a [TreeNode] value.  It has no answer when the walk is
    longer than its fuel; with more fuel than the store has nodes, that is a
    walk that comes back to a node it is inside of, on which the recursion
    of [renderNode] overflows the stack. *)
Fixpoint allSome {A B : Type} (f : A -> option B) (l : list A) : option (list B) :=
  match l with
  | [] => Some []
  | a :: rest =>
      match f a, allSome f rest with
      | Some b, Some bs => Some (b :: bs)
      | _, _ => None
      end
  end.

Fixpoint reify (fuel : nat) (st : list Cell) (ref : nat) : option TreeNode :=
  match fuel with
  | O => None
  | S fuel' =>
      match nth_error st ref with
      | None => None
      | Some c => option_map (Node (info c)) (allSome (reify fuel' st) (children c))
      end
  end.

Definition reifyAll (st : list Cell) (refs : list nat) : option (list TreeNode) :=
  allSome (reify (S (List.length st)) st) refs.

(** [buildTreeFromAnatomy] (lines 19 to 67). *)
Definition buildTreeFromAnatomy (anatomy : value) : result (list TreeNode) :=
  st <- buildStore anatomy ;;
  match reifyAll (store st) (rootNodes st) with
  | Some forest => Ok forest
  | None => Throw
  end.

(** *** Rendering (lines 70 to 104) *)

Definition rootGlyph : string := "📦 ".
Definition lastConnector : string := "└─ ".
Definition midConnector : string := "├─ ".
Definition openIndent : string := "│  ".
Definition closedIndent : string := "   ".

(** [renderNode]; the lines it pushes, in order. *)
Fixpoint renderNode (node : TreeNode) (prefix : string) (isLast isRoot : bool)
  : list string :=
  match node with
  | Node i kids =>
      let own :=
        if isRoot
        then [rootGlyph +++ toStr (name i);
              closedIndent +++ lastConnector +++ "type: " +++ toStr (type i)]
        else
          let connector := if isLast then lastConnector else midConnector in
          let typeInfo :=
            if truthy (type i) then " (" +++ toStr (type i) +++ ")" else EmptyString in
          [prefix +++ connector +++ toStr (name i) +++ typeInfo] in
      let childPrefix :=
        if isRoot then closedIndent
        else prefix +++ (if isLast then closedIndent else openIndent) in
      let n := List.length kids in
      own ++
      (fix forEach (l : list TreeNode) (index : nat) : list string :=
         match l with
         | [] => []
         | child :: rest =>
             renderNode child childPrefix (Nat.eqb index (n - 1)) false
             ++ forEach rest (S index)
         end) kids 0
  end.

(** The loop over [node.children], by itself. *)
Definition renderChildren (childPrefix : string) (n : nat)
  : list TreeNode -> nat -> list string :=
  fix forEach (l : list TreeNode) (index : nat) : list string :=
    match l with
    | [] => []
    | child :: rest =>
        renderNode child childPrefix (Nat.eqb index (n - 1)) false
        ++ forEach rest (S index)
    end.

Fixpoint renderRoots (rootNodes : list TreeNode) (index : nat) : list string :=
  match rootNodes with
  | [] => []
  | root :: rest =>
      (if Nat.ltb 0 index then [EmptyString] else [])
      ++ renderNode root EmptyString true true
      ++ renderRoots rest (S index)
  end.

Definition newlineStr : string := Str.ofChar Str.newline.

Definition renderTree (rootNodes : list TreeNode) : string :=
  Str.join newlineStr (renderRoots rootNodes 0).

End Tree.

(** ** [JSON.stringify] *)

Module Json.

Definition hexDigit (n : nat) : ascii :=
  if Nat.ltb n 10 then ascii_of_nat (48 + n) else ascii_of_nat (87 + n).

(** One character of a string inside its quotes. *)
Definition escapeChar (c : ascii) : string :=
  let n := nat_of_ascii c in
  if Nat.eqb n 34 then String Str.backslash (Str.ofChar Str.dquote)
  else if Nat.eqb n 92 then String Str.backslash (Str.ofChar Str.backslash)
  else if Nat.eqb n 8 then String Str.backslash "b"
  else if Nat.eqb n 9 then String Str.backslash "t"
  else if Nat.eqb n 10 then String Str.backslash "n"
  else if Nat.eqb n 12 then String Str.backslash "f"
  else if Nat.eqb n 13 then String Str.backslash "r"
  else if Nat.ltb n 32
       then String Str.backslash
              ("u00" +++ String (hexDigit (n / 16)) (Str.ofChar (hexDigit (n mod 16))))
  else Str.ofChar c.

Fixpoint escape (s : string) : string :=
  match s with
  | EmptyString => EmptyString
  | String c s' => escapeChar c +++ escape s'
  end.

Definition quote (s : string) : string :=
  String Str.dquote (escape s +++ Str.ofChar Str.dquote).

Definition hexValue (c : ascii) : nat :=
  let n := nat_of_ascii c in
  if Nat.ltb n 58 then n - 48 else n - 87.

(** Reads one character back from the front of an escaped string. *)
Definition unescapeChar (s : string) : option (ascii * string) :=
  match s with
  | EmptyString => None
  | String c rest =>
      if Ascii.eqb c Str.backslash
      then
        match rest with
        | EmptyString => None
        | String e rest' =>
            if Ascii.eqb e Str.dquote then Some (Str.dquote, rest')
            else if Ascii.eqb e Str.backslash then Some (Str.backslash, rest')
            else if Ascii.eqb e "b" then Some (ascii_of_nat 8, rest')
            else if Ascii.eqb e "t" then Some (ascii_of_nat 9, rest')
            else if Ascii.eqb e "n" then Some (ascii_of_nat 10, rest')
            else if Ascii.eqb e "f" then Some (ascii_of_nat 12, rest')
            else if Ascii.eqb e "r" then Some (ascii_of_nat 13, rest')
            else if Ascii.eqb e "u"
                 then
                   match rest' with
                   | String _ (String _ (String h (String l rest''))) =>
                       Some (ascii_of_nat (16 * hexValue h + hexValue l), rest'')
                   | _ => None
                   end
            else None
        end
      else Some (c, rest)
  end.

(** The text of a value; [None] is [undefined], which an array prints as
    [null] and an object leaves out with its key. *)
Fixpoint text (v : value) : option string :=
  match v with
  | VUndefined => None
  | VNull => Some "null"
  | VBool true => Some "true"
  | VBool false => Some "false"
  | VNum n => Some (Str.ofZ n)
  | VStr s => Some (quote s)
  | VArr items =>
      Some ("[" +++
            Str.join ","
              (map (fun x => match text x with
                             | Some t => t
                             | None => "null"
                             end) items)
            +++ "]")
  | VObj fields =>
      Some ("{" +++
            Str.join ","
              ((fix members (l : list (string * value)) : list string :=
                  match l with
                  | [] => []
                  | (k, x) :: rest =>
                      match text x with
                      | Some t => (quote k +++ ":" +++ t) :: members rest
                      | None => members rest
                      end
                  end) fields)
            +++ "}")
  end.

(** [JSON.stringify(v)] *)
Definition stringify (v : value) : value :=
  match text v with
  | Some t => VStr t
  | None => VUndefined
  end.

End Json.

(** ** Variants and the entry point *)

Module Variants.
Import Js Tree.

(** [Array.isArray(anat) ? anat : Object.keys(anat).map(k => anat[k])] *)
Definition asArray (anat : value) : result (list value) :=
  match anat with
  | VArr items => Ok items
  | _ =>
      ks <- keys anat ;;
      mapM (get anat) ks
  end.

(** The loop of [compareAnatomies] (lines 114 to 118), on two arrays of the
    same length. *)
Fixpoint compareItems (arr1 arr2 : list value) : result bool :=
  match arr1, arr2 with
  | x :: rest1, y :: rest2 =>
      n1 <- get x "name" ;;
      n2 <- get y "name" ;;
      if negb (strictEq n1 n2) then Ok false
      else
        t1 <- get x "type" ;;
        t2 <- get y "type" ;;
        if negb (strictEq t1 t2) then Ok false
        else
          p1 <- get x "path" ;;
          p2 <- get y "path" ;;
          if negb (strictEq p1 p2) then Ok false
          else compareItems rest1 rest2
  | _, _ => Ok true
  end.

(** [compareAnatomies] (lines 107 to 121). *)
Definition compareAnatomies (anat1 anat2 : value) : result bool :=
  arr1 <- asArray anat1 ;;
  arr2 <- asArray anat2 ;;
  if negb (Nat.eqb (List.length arr1) (List.length arr2)) then Ok false
  else compareItems arr1 arr2.

Definition groups := jsmap (list string).

(** The scan over [anatomyGroups.entries()] (lines 144 to 151): the groups
    with [variantName] pushed on the first list whose first member has an
    equal anatomy, or [None] when [foundGroup] stays false. *)
Fixpoint pushOnFound (anatomyData variantAnatomy : value) (variantName : string)
                     (gs : groups) : result (option groups) :=
  match gs with
  | [] => Ok None
  | (signature, variantList) :: rest =>
      existingAnatomy <- get anatomyData (firstKey variantList) ;;
      same <- compareAnatomies variantAnatomy existingAnatomy ;;
      if same then Ok (Some ((signature, variantList ++ [variantName]) :: rest))
      else
        found <- pushOnFound anatomyData variantAnatomy variantName rest ;;
        Ok (option_map (cons (signature, variantList)) found)
  end.

(** The body of the loop over [variants] (lines 140 to 157). *)
Definition addVariant (anatomyData : value) (gs : groups) (variantName : string)
  : result groups :=
  variantAnatomy <- get anatomyData variantName ;;
  found <- pushOnFound anatomyData variantAnatomy variantName gs ;;
  match found with
  | Some gs' => Ok gs'
  | None => Ok (mapSet (Json.stringify variantAnatomy) [variantName] gs)
  end.

Definition groupVariants (anatomyData : value) (variants : list string) : result groups :=
  foldM (addVariant anatomyData) variants [].

Definition rule : string := Str.repeat "─" 60.

Definition header (variantList : list string) : string :=
  if Nat.eqb (List.length variantList) 1
  then "[Variant: " +++ firstKey variantList +++ "]"
  else "[Variants: " +++ Str.join ", " variantList +++ "]".

(** The loop over the groups (lines 167 to 187); the lines it pushes. *)
Fixpoint renderGroups (anatomyData : value) (gs : groups) (groupIndex : nat)
  : result (list string) :=
  match gs with
  | [] => Ok []
  | (_, variantList) :: rest =>
      let separator :=
        if Nat.ltb 0 groupIndex then [EmptyString; rule; EmptyString] else [] in
      anatomy <- get anatomyData (firstKey variantList) ;;
      rootNodes <- buildTreeFromAnatomy anatomy ;;
      more <- renderGroups anatomyData rest (S groupIndex) ;;
      Ok (separator ++ [header variantList; EmptyString; renderTree rootNodes] ++ more)
  end.

(** [isVariantBased] (lines 126 to 130), of [firstValue]. *)
Definition fieldUndefined (v : value) (k : string) : bool :=
  match get v k with
  | Ok x => strictEq x VUndefined
  | Throw => false
  end.

Definition isVariantBased (firstValue : value) : bool :=
  truthy firstValue &&
  (isArray firstValue ||
   (typeofObject firstValue &&
    fieldUndefined firstValue "type" &&
    fieldUndefined firstValue "path")).

(** [convertAnatomyToTree] (lines 5 to 195). *)
Definition convertAnatomyToTree (anatomyData : value) : result string :=
  if negb (truthy anatomyData) || negb (typeofObject anatomyData)
  then Ok EmptyString
  else
    variants <- keys anatomyData ;;
    firstValue <- get anatomyData (firstKey variants) ;;
    if isVariantBased firstValue
    then
      anatomyGroups <- groupVariants anatomyData variants ;;
      if Nat.eqb (List.length anatomyGroups) 1
      then
        anatomy <- get anatomyData (firstKey variants) ;;
        rootNodes <- buildTreeFromAnatomy anatomy ;;
        Ok (renderTree rootNodes)
      else
        lines <- renderGroups anatomyData anatomyGroups 0 ;;
        Ok (Str.join newlineStr lines)
    else
      rootNodes <- buildTreeFromAnatomy anatomyData ;;
      Ok (renderTree rootNodes).

End Variants.

(** ** The scalar formatter of the nested-text serializer *)

Module Yaml.
Import Js.

Definition dq : string := Str.ofChar Str.dquote.
Definition escapedQuote : string := String Str.backslash (Str.ofChar Str.dquote).

(** The test of lines 232 and 233. *)
Definition reserved (s : string) : bool :=
  Str.includes s ":" || Str.includes s "#" || Str.includes s Tree.newlineStr ||
  Str.startsWith s " " || Str.endsWith s " ".

(** [formatYAMLValue] (lines 230 to 243).  A number is written by
    [value.toString()]: for a safe integer, its decimal digits. *)
Definition formatYAMLValue (v : value) : string :=
  match v with
  | VStr s =>
      if reserved s
      then dq +++ Str.replaceAll Str.dquote escapedQuote s +++ dq
      else s
  | VBool b => if b then "true" else "false"
  | VNum n => Str.ofZ n
  | _ => toStr v
  end.

End Yaml.

(** ** The type of a property in the two declaration formats *)

Module Schema.
Import Js.

Definition quoted (v : value) : string := "'" +++ toStr v +++ "'".

(** [prop.values ? prop.values.map(v => `'${v}'`).join(glue) : 'string']
    (lines 269 and 368); a [values] that is there and has no [map] throws. *)
Definition enumValues (glue : string) (prop : value) : result string :=
  vals <- get prop "values" ;;
  if truthy vals
  then
    match vals with
    | VArr items => Ok (Str.join glue (map quoted items))
    | _ => Throw
    end
  else Ok "string".

(** [typeString] in [convertToTypeScript] (lines 262 to 275). *)
Definition tsTypeString (prop : value) : result string :=
  ty <- get prop "type" ;;
  if strictEq ty (VStr "boolean") then Ok "boolean"
  else if strictEq ty (VStr "string") then Ok "string"
  else if strictEq ty (VStr "enum") then enumValues " | " prop
  else if strictEq ty (VStr "instance") then Ok "React.ReactNode"
  else if strictEq ty (VStr "number") then Ok "number"
  else Ok "any".

(** The line of one property (line 277). *)
Definition tsPropLine (props : value) (propName : string) : result string :=
  prop <- get props propName ;;
  typeString <- tsTypeString prop ;;
  Ok ("  " +++ propName +++ ": " +++ typeString +++ ";" +++ Tree.newlineStr).

(** [typeString] in [convertToJSDoc] (lines 361 to 374). *)
Definition jsdocTypeString (prop : value) : result string :=
  ty <- get prop "type" ;;
  if strictEq ty (VStr "boolean") then Ok "boolean"
  else if strictEq ty (VStr "string") then Ok "string"
  else if strictEq ty (VStr "enum")
       then values <- enumValues "|" prop ;; Ok ("(" +++ values +++ ")")
  else if strictEq ty (VStr "instance") then Ok "ReactNode"
  else if strictEq ty (VStr "number") then Ok "number"
  else Ok "*".

(** The line of one property (line 376). *)
Definition jsdocPropLine (props : value) (propName : string) : result string :=
  prop <- get props propName ;;
  typeString <- jsdocTypeString prop ;;
  Ok (" * @property {" +++ typeString +++ "} " +++ propName +++ Tree.newlineStr).

End Schema.

(** ** Element records and forests of elements

    The explicit-sequence shape: records whose four fields are strings, as the
    extractor writes them. *)

Module Shape.
Import Js Tree.

Record ElementRecord : Type := mkRecord {
  recName : string;
  recType : string;
  recPath : string;
  recParentPath : string
}.

Definition ofRecord (r : ElementRecord) : value :=
  VObj [("name", VStr (recName r));
        ("type", VStr (recType r));
        ("path", VStr (recPath r));
        ("parentPath", VStr (recParentPath r))].

Definition sequence (input : list ElementRecord) : value :=
  VArr (map ofRecord input).

(** The key a record is stored under in [nodesByPath]: [path || name]. *)
Definition keyOf (r : ElementRecord) : string :=
  if String.eqb (recPath r) EmptyString then recName r else recPath r.

(** The node made from a record. *)
Definition nodeOf (r : ElementRecord) : NodeInfo :=
  mkInfo (VStr (recName r))
         (VStr (if String.eqb (recType r) EmptyString then "UNKNOWN" else recType r))
         (VStr (keyOf r))
         (VStr (recParentPath r)).

(** The depth-first order of the nodes of a tree, which is the order
    [renderNode] visits them in. *)
Fixpoint preorder (t : TreeNode) : list NodeInfo :=
  match t with
  | Node i kids => i :: flat_map preorder kids
  end.

(** The rendered tree lists the nodes in the order of the input records. *)
Definition keepsInputOrder (input : list ElementRecord) : Prop :=
  exists forest,
    buildTreeFromAnatomy (sequence input) = Ok forest /\
    flat_map preorder forest = map nodeOf input.

(** A component's elements as the document has them. *)
Inductive Element : Type :=
| Elem (r : ElementRecord) (kids : list Element).

Definition rootOf (e : Element) : ElementRecord :=
  match e with
  | Elem r _ => r
  end.

(** The records of an element and its descendants, parents first. *)
Fixpoint listing (e : Element) : list ElementRecord :=
  match e with
  | Elem r kids => r :: flat_map listing kids
  end.

Fixpoint treeOf (e : Element) : TreeNode :=
  match e with
  | Elem r kids => Node (nodeOf r) (map treeOf kids)
  end.

Fixpoint size (e : Element) : nat :=
  match e with
  | Elem _ kids => S (list_sum (map size kids))
  end.

Definition keysOf (e : Element) : list string := map keyOf (listing e).

(** Every child names its parent by the parent's key, and no element shares
    its key with one of its descendants. *)
Fixpoint linked (e : Element) : bool :=
  match e with
  | Elem r kids =>
      negb (existsb (String.eqb (keyOf r)) (map keyOf (flat_map listing kids))) &&
      forallb (fun k =>
                 String.eqb (recParentPath (rootOf k)) (keyOf r) &&
                 negb (String.eqb (keyOf r) EmptyString) &&
                 linked k) kids
  end.

(** A listing in document order: the roots have no parent. *)
Definition documentOrder (forest : list Element) : bool :=
  forallb (fun e => String.eqb (recParentPath (rootOf e)) EmptyString && linked e) forest.

(** Where the builder puts an element that arrives at index [n]: its own
    node, then the nodes of its children's subtrees. *)
Fixpoint offsets (n : nat) (kids : list Element) : list nat :=
  match kids with
  | [] => []
  | k :: rest => n :: offsets (n + size k) rest
  end.

Fixpoint cellsAt (n : nat) (e : Element) : list Cell :=
  match e with
  | Elem r kids =>
      mkCell (nodeOf r) (offsets (S n) kids) ::
      (fix below (m : nat) (l : list Element) : list Cell :=
         match l with
         | [] => []
         | k :: rest => cellsAt m k ++ below (m + size k) rest
         end) (S n) kids
  end.

Fixpoint cellsBelow (m : nat) (l : list Element) : list Cell :=
  match l with
  | [] => []
  | k :: rest => cellsAt m k ++ cellsBelow (m + size k) rest
  end.

Fixpoint pushChildren (parent : nat) (refs : list nat) (st : list Cell) : list Cell :=
  match refs with
  | [] => st
  | r :: rest => pushChildren parent rest (pushChild parent r st)
  end.

(** Induction on an element with the hypothesis on every child. *)
Fixpoint Element_ind' (P : Element -> Prop)
    (step : forall r kids, Forall P kids -> P (Elem r kids)) (e : Element) : P e :=
  match e with
  | Elem r kids =>
      step r kids
        ((fix all (l : list Element) : Forall P l :=
            match l with
            | [] => Forall_nil P
            | k :: rest => Forall_cons k (@Element_ind' P step k) (all rest)
            end) kids)
  end.

(** What [addNode] does with a record. *)
Definition addRecord (st : BuildState) (r : ElementRecord) : BuildState :=
  let ref := List.length (store st) in
  let store1 := store st ++ [mkCell (nodeOf r) []] in
  let byPath := mapSet (VStr (keyOf r)) ref (nodesByPath st) in
  if String.eqb (recParentPath r) EmptyString
  then mkState store1 byPath (rootNodes st ++ [ref])
  else
    match mapGet (VStr (recParentPath r)) byPath with
    | Some parent => mkState (pushChild parent ref store1) byPath (rootNodes st)
    | None => mkState store1 byPath (rootNodes st ++ [ref])
    end.

Definition keysBelow (kids : list Element) : list string :=
  map keyOf (flat_map listing kids).

Definition kidOf (key : string) (k : Element) : bool :=
  String.eqb (recParentPath (rootOf k)) key &&
  negb (String.eqb key EmptyString) &&
  linked k.

(** Adding the records of a subtree whose root names a node that is already
    stored: the store grows by the nodes of the subtree, laid out in the
    order of the records, and the parent gains one child. *)
Definition addsTree (e : Element) : Prop :=
  forall st p,
    linked e = true ->
    recParentPath (rootOf e) <> EmptyString ->
    mapGet (VStr (recParentPath (rootOf e))) (nodesByPath st) = Some p ->
    p < List.length (store st) ->
    ~ In (recParentPath (rootOf e)) (keysOf e) ->
    exists byPath',
      foldM addNode (map ofRecord (listing e)) st
      = Ok (mkState (pushChild p (List.length (store st)) (store st)
                     ++ cellsAt (List.length (store st)) e)
                    byPath' (rootNodes st)) /\
      forall k, ~ In k (keysOf e) ->
                mapGet (VStr k) byPath' = mapGet (VStr k) (nodesByPath st).

Definition reifiesAt (e : Element) : Prop :=
  forall fuel pre post,
    size e <= fuel ->
    reify fuel (pre ++ cellsAt (List.length pre) e ++ post) (List.length pre)
    = Some (treeOf e).

End Shape.

(** ** The layout of the rendered tree, from the rules of the renderer *)

Module Layout.
Import Js Tree.

(** The three columns an ancestor adds to the lines below it: blank when it
    was the last of its siblings, a bar when it was not. *)
Definition indent (wasLast : bool) : string :=
  if wasLast then "   " else "│  ".

(** [ancestors] holds, from the root down, whether each ancestor was the last
    of its siblings; a root counts as one that was. *)
Fixpoint indentation (ancestors : list bool) : string :=
  match ancestors with
  | [] => EmptyString
  | a :: rest => indent a +++ indentation rest
  end.

(** The one line of a node that is not a root. *)
Definition childLine (ancestors : list bool) (isLast : bool) (i : NodeInfo) : string :=
  indentation ancestors
  +++ (if isLast then "└─ " else "├─ ")
  +++ toStr (name i)
  +++ (if truthy (type i) then " (" +++ toStr (type i) +++ ")" else EmptyString).

Fixpoint linesOf (ancestors : list bool) (isLast : bool) (t : TreeNode) : list string :=
  match t with
  | Node i kids =>
      childLine ancestors isLast i ::
      (fix siblings (l : list TreeNode) : list string :=
         match l with
         | [] => []
         | k :: rest =>
             match rest with
             | [] => linesOf (ancestors ++ [isLast]) true k
             | _ :: _ => linesOf (ancestors ++ [isLast]) false k ++ siblings rest
             end
         end) kids
  end.

Definition siblingLines (ancestors : list bool) : list TreeNode -> list string :=
  fix siblings (l : list TreeNode) : list string :=
    match l with
    | [] => []
    | k :: rest =>
        match rest with
        | [] => linesOf ancestors true k
        | _ :: _ => linesOf ancestors false k ++ siblings rest
        end
    end.

(** The two lines of a root, then the lines of what is below it. *)
Definition rootLines (t : TreeNode) : list string :=
  match t with
  | Node i kids =>
      ["📦 " +++ toStr (name i); "   └─ type: " +++ toStr (type i)]
      ++ siblingLines [true] kids
  end.

(** Roots, one blank line between two of them. *)
Fixpoint forestLines (forest : list TreeNode) : list string :=
  match forest with
  | [] => []
  | t :: rest =>
      match rest with
      | [] => rootLines t
      | _ :: _ => rootLines t ++ [EmptyString] ++ forestLines rest
      end
  end.

(** Induction on a tree with the hypothesis on every child. *)
Fixpoint TreeNode_ind' (P : TreeNode -> Prop)
    (step : forall i kids, Forall P kids -> P (Node i kids)) (t : TreeNode) : P t :=
  match t with
  | Node i kids =>
      step i kids
        ((fix all (l : list TreeNode) : Forall P l :=
            match l with
            | [] => Forall_nil P
            | k :: rest => Forall_cons k (@TreeNode_ind' P step k) (all rest)
            end) kids)
  end.

(** [renderNode] gives a node that is not a root its lines. *)
Definition rendersAs (t : TreeNode) : Prop :=
  forall ancestors isLast,
    renderNode t (indentation ancestors) isLast false = linesOf ancestors isLast t.

End Layout.

(** ** The quoting rule of the nested-text format, as the format states it *)

Module Quoting.

(** A string has to be quoted when it holds a colon, a hash or a line
    break, or starts or ends with a space. *)
Definition needsQuotes (s : string) : Prop :=
  In ":"%char (list_ascii_of_string s) \/
  In "#"%char (list_ascii_of_string s) \/
  In Str.newline (list_ascii_of_string s) \/
  (exists t, s = String " "%char t) \/
  (exists t, s = t +++ " ").

(** Every double quote of the string with a backslash before it. *)
Definition escapeQuotes (s : string) : string :=
  String.concat EmptyString
    (map (fun c => if Ascii.eqb c Str.dquote
                   then String Str.backslash (Str.ofChar Str.dquote)
                   else Str.ofChar c)
         (list_ascii_of_string s)).

Definition quoted (s : string) : string :=
  String Str.dquote (escapeQuotes s +++ Str.ofChar Str.dquote).

End Quoting.

(** ** Inputs of the entry point *)

Module Input.
Import Js.

(** An object or an array; everything else is absent or not object-like. *)
Definition objectLike (v : value) : bool :=
  match v with
  | VArr _ | VObj _ => true
  | _ => false
  end.

(** A read of field [k] of an object gives [undefined]. *)
Definition lacks (fields : list (string * value)) (k : string) : Prop :=
  orUndefined (lookup k fields) = VUndefined.

(** The value [isVariantBased] is computed from. *)
Definition firstValueOf (anatomyData : value) : result value :=
  ks <- keys anatomyData ;;
  get anatomyData (firstKey ks).

(** The two branches of [convertAnatomyToTree] (lines 132 to 194). *)
Definition variantBranch (anatomyData : value) : result string :=
  variants <- keys anatomyData ;;
  anatomyGroups <- Variants.groupVariants anatomyData variants ;;
  if Nat.eqb (List.length anatomyGroups) 1
  then
    anatomy <- get anatomyData (firstKey variants) ;;
    rootNodes <- Tree.buildTreeFromAnatomy anatomy ;;
    Ok (Tree.renderTree rootNodes)
  else
    lines <- Variants.renderGroups anatomyData anatomyGroups 0 ;;
    Ok (Str.join Tree.newlineStr lines).

Definition singleBranch (anatomyData : value) : result string :=
  rootNodes <- Tree.buildTreeFromAnatomy anatomyData ;;
  Ok (Tree.renderTree rootNodes).

End Input.

(** ** Enum properties *)

Module Enum.
Import Js.

(** A property whose [type] is ['enum'], with its [values] when it has them. *)
Definition declaresEnum (prop : list (string * value)) : Prop :=
  lookup "type" prop = Some (VStr "enum").

Definition hasValues (prop : list (string * value)) (vals : list string) : Prop :=
  lookup "values" prop = Some (VArr (map VStr vals)).

Definition noValues (prop : list (string * value)) : Prop :=
  lookup "values" prop = None.

(** The literals between single quotes. *)
Definition literals (vals : list string) : list string :=
  map (fun v => "'" +++ v +++ "'") vals.

(** The claim on the two declaration formats, with [jsdocFallback] for what
    the documentation block shows when there are no values. *)
Definition enumTypes (jsdocFallback : string) : Prop :=
  (forall prop vals,
      declaresEnum prop -> hasValues prop vals -> vals <> [] ->
      Schema.tsTypeString (VObj prop) = Ok (Str.join " | " (literals vals)) /\
      Schema.jsdocTypeString (VObj prop)
      = Ok ("(" +++ Str.join "|" (literals vals) +++ ")")) /\
  (forall prop,
      declaresEnum prop -> noValues prop ->
      Schema.tsTypeString (VObj prop) = Ok "string" /\
      Schema.jsdocTypeString (VObj prop) = Ok jsdocFallback).

End Enum.

(** ** Groups of variants, as the grouping rule states them *)

Module Grouping.
Import Js Shape.

Definition triple (r : ElementRecord) : string * string * string :=
  (recName r, recType r, recPath r).

(** An object on which [name], [type] and [path] read as the strings of
    [r]; it may hold them in any order, and anything besides. *)
Definition describes (fields : list (string * value)) (r : ElementRecord) : Prop :=
  lookup "name" fields = Some (VStr (recName r)) /\
  lookup "type" fields = Some (VStr (recType r)) /\
  lookup "path" fields = Some (VStr (recPath r)).

(** Two anatomies are equal: as long as each other, with the same name, type
    and path at every position. *)
Definition sameShape (a b : list ElementRecord) : Prop :=
  List.length a = List.length b /\
  forall i x y, nth_error a i = Some x -> nth_error b i = Some y -> triple x = triple y.

Definition tripleEqb (x y : ElementRecord) : bool :=
  String.eqb (recName x) (recName y) &&
  String.eqb (recType x) (recType y) &&
  String.eqb (recPath x) (recPath y).

Fixpoint sameShapeb (a b : list ElementRecord) : bool :=
  match a, b with
  | [], [] => true
  | x :: a', y :: b' => tripleEqb x y && sameShapeb a' b'
  | _, _ => false
  end.

(** A group: the anatomy of its first member, and the names of its members
    in the order they came. *)
Definition Group : Type := list ElementRecord * list string.

(** A variant joins the first group, in the order the groups were opened,
    whose first member has an equal anatomy; when there is none it opens a
    group after them. *)
Fixpoint place (variant : string * list ElementRecord) (gs : list Group) : list Group :=
  match gs with
  | [] => [(snd variant, [fst variant])]
  | (first, members) :: rest =>
      if sameShapeb (snd variant) first
      then (first, members ++ [fst variant]) :: rest
      else (first, members) :: place variant rest
  end.

Definition partition (variants : list (string * list ElementRecord)) : list Group :=
  fold_left (fun gs variant => place variant gs) variants [].

(** The mapping from variant name to anatomy sequence. *)
Definition variantsData (variants : list (string * list ElementRecord)) : value :=
  VObj (map (fun v => (fst v, sequence (snd v))) variants).

(** The text of ["k":"v"] and of a record, each before [rest]. *)
Definition fieldText (k v : string) (rest : string) : string :=
  Json.quote k +++ ":" +++ Json.quote v +++ rest.

Definition recordText (r : ElementRecord) (rest : string) : string :=
  "{" +++ fieldText "name" (recName r)
    ("," +++ fieldText "type" (recType r)
      ("," +++ fieldText "path" (recPath r)
        ("," +++ fieldText "parentPath" (recParentPath r) ("}" +++ rest)))).

(** What follows a record in the text of a sequence. *)
Fixpoint tailText (l : list ElementRecord) : string :=
  match l with
  | [] => "]"
  | r :: rest => "," +++ recordText r (tailText rest)
  end.

Definition sequenceText (l : list ElementRecord) : string :=
  match l with
  | [] => "[]"
  | r :: rest => "[" +++ recordText r (tailText rest)
  end.

Definition itemText (x : value) : string :=
  match Json.text x with
  | Some t => t
  | None => "null"
  end.

(** The groups of the code stand for the groups of the rule. *)
Definition standsFor (anatomyData : value) (g : value * list string) (sg : Group) : Prop :=
  snd g = snd sg /\
  snd sg <> [] /\
  fst g = Json.stringify (sequence (fst sg)) /\
  get anatomyData (firstKey (snd sg)) = Ok (sequence (fst sg)).

End Grouping.

(** ** The report on several groups, as the rendering rule states it *)

Module Report.
Import Js.

(** The line that names the variants of a group. *)
Definition headerOf (members : list string) : string :=
  match members with
  | [x] => "[Variant: " +++ x +++ "]"
  | _ => "[Variants: " +++ String.concat ", " members +++ "]"
  end.

(** Sixty times the horizontal bar. *)
Definition ruleLine : string := String.concat EmptyString (List.repeat "─" 60).

(** A group: its header, a blank line, the tree of its first member. *)
Definition block (anatomyData : value) (members : list string) : result (list string) :=
  anatomy <- get anatomyData (firstKey members) ;;
  rootNodes <- Tree.buildTreeFromAnatomy anatomy ;;
  Ok [headerOf members; EmptyString; Tree.renderTree rootNodes].

Definition ruled (b : list string) : list string :=
  [EmptyString; ruleLine; EmptyString] ++ b.

(** The groups one after the other, a rule before each but the first. *)
Definition withRules (blocks : list (list string)) : list string :=
  match blocks with
  | [] => []
  | b :: rest => b ++ flat_map ruled rest
  end.

(** The groups of a mapping of variants. *)
Definition groupsOf (anatomyData : value) : result Variants.groups :=
  variants <- keys anatomyData ;;
  Variants.groupVariants anatomyData variants.

End Report.

(** ** Stores the builder can reach *)

Module Reach.
Import Js Tree.

(** A node that is on its own list of children. *)
Definition ownChild (st : list Cell) (i : nat) : Prop :=
  exists c, nth_error st i = Some c /\ In i (children c).

(** The references of a state: a child was stored no earlier than its parent,
    no node is on two lists or twice on one, and everything that is referred
    to is in the store. *)
Record wellLinked (st : BuildState) : Prop := mkWellLinked {
  childAfterParent :
    forall p c x,
      nth_error (store st) p = Some c -> In x (children c) ->
      p <= x < List.length (store st);
  onOneList : NoDup (rootNodes st ++ concat (map children (store st)));
  rootsStored : Forall (fun r => r < List.length (store st)) (rootNodes st);
  keysStored :
    forall k v, mapGet k (nodesByPath st) = Some v -> v < List.length (store st)
}.

Definition addChild (child : nat) (c : Cell) : Cell :=
  mkCell (info c) (children c ++ [child]).

(** References in the order the nodes were stored in. *)
Definition inInputOrder (refs : list nat) : Prop := StronglySorted lt refs.

(** The roots, and the children of every node, are in the order the nodes
    were stored in. *)
Definition siblingsInOrder (st : BuildState) : Prop :=
  inInputOrder (rootNodes st) /\
  Forall (fun c => inInputOrder (children c)) (store st).

End Reach.

(** ** The flat-mapping shape *)

Module Flat.
Import Js Tree Shape.

(** An entry of a flat mapping: the name of the element is the key, the
    value holds the type and the path. *)
Record FlatEntry : Type := mkEntry {
  entryName : string;
  entryType : string;
  entryPath : string
}.

Definition flatMapping (entries : list FlatEntry) : value :=
  VObj (map (fun e => (entryName e,
                       VObj [("type", VStr (entryType e));
                             ("path", VStr (entryPath e))])) entries).

(** What [compareAnatomies] reads of an entry of a flat mapping: its value
    has a type and a path, and no name. *)
Definition typeAndPath (e : FlatEntry) : string * string :=
  (entryType e, entryPath e).

Definition segments (p : string) : list string := Str.split p sep.

(** The path without its last segment. *)
Definition parentOf (p : string) : string := Str.join sep (removelast (segments p)).

Definition recordOfFlat (e : FlatEntry) : ElementRecord :=
  mkRecord (entryName e) (entryType e) (entryPath e) (parentOf (entryPath e)).

(** Segment by segment, a path that is the beginning of another one first. *)
Fixpoint lexLe (a b : list string) : bool :=
  match a, b with
  | [], _ => true
  | _ :: _, [] => false
  | x :: a', y :: b' => if String.eqb x y then lexLe a' b' else String.ltb x y
  end.

Definition pathOf (t : TreeNode) : list string :=
  match t with
  | Node i _ => segments (toStr (path i))
  end.

Fixpoint siblingsSorted (l : list TreeNode) : bool :=
  match l with
  | [] => true
  | a :: rest =>
      match rest with
      | [] => true
      | b :: _ => lexLe (pathOf a) (pathOf b) && siblingsSorted rest
      end
  end.

Fixpoint sortedBelow (t : TreeNode) : bool :=
  match t with
  | Node _ kids => siblingsSorted kids && forallb sortedBelow kids
  end.

(** In the tree of a flat mapping, siblings come in the lexicographic order
    of their path segments. *)
Definition lexicographicSiblings (entries : list FlatEntry) : Prop :=
  exists forest,
    buildTreeFromAnatomy (flatMapping entries) = Ok forest /\
    siblingsSorted forest = true /\
    forallb sortedBelow forest = true.

(** Node [i] is the node of record [i], and roots and children are in the
    order of the records. *)
Definition keepsSiblingOrder (input : list ElementRecord) (st : BuildState) : Prop :=
  map info (store st) = map nodeOf input /\ Reach.siblingsInOrder st.

End Flat.

(** ** The older builder

    [buildTreeFromAnatomy] of the two copies that take the object only (the
    same loops in both): the entries become nodes, the nodes are sorted by
    their paths, and a node whose parent is not found is left out. *)

Module Legacy.
Import Js Tree Flat.

(** The keys [for (const nodeName in anatomy)] visits; on [null] and
    [undefined] there is none. *)
Definition forIn (anatomy : value) : list string :=
  match keys anatomy with
  | Ok ks => ks
  | Throw => []
  end.

(** The node of one entry.  Its [depth] is written and never read, and is
    left out; [parentPath], which these nodes do not have, reads
    [undefined]. *)
Definition nodeOfEntry (anatomy : value) (nodeName : string) : result NodeInfo :=
  node <- get anatomy nodeName ;;
  pa <- get node "path" ;;
  match or pa (VStr EmptyString) with
  | VStr p =>
      ty <- get node "type" ;;
      Ok (mkInfo (VStr nodeName) (or ty (VStr "UNKNOWN")) (VStr p) VUndefined)
  | _ => Throw
  end.

(** [node.path.split(' > ')] *)
Definition pathParts (node : NodeInfo) : list string :=
  Str.split (toStr (path node)) sep.

(** The loop that links the sorted nodes.  A node is stored at its index in
    the sorted array. *)
Definition link (st : BuildState) (node : NodeInfo) : BuildState :=
  let ref := List.length (store st) in
  let store1 := store st ++ [mkCell node []] in
  let nodeMap := mapSet (path node) ref (nodesByPath st) in
  if Nat.eqb (List.length (pathParts node)) 1
  then mkState store1 nodeMap (rootNodes st ++ [ref])
  else
    let parentPath := Str.join sep (removelast (pathParts node)) in
    match mapGet (VStr parentPath) nodeMap with
    | Some parentNode => mkState (pushChild parentNode ref store1) nodeMap (rootNodes st)
    | None => mkState store1 nodeMap (rootNodes st)
    end.

Section Sorting.
Variable localeCompare : string -> string -> Z.

(** The comparator of [nodes.sort], on the segments of the two paths: the
    first pair of segments that differ decides, by [localeCompare]; without
    one, the path with fewer segments comes first. *)
Fixpoint compareSegments (aPath bPath : list string) : Z :=
  match aPath, bPath with
  | x :: aRest, y :: bRest =>
      if String.eqb x y then compareSegments aRest bRest else localeCompare x y
  | _, _ => (Z.of_nat (List.length aPath) - Z.of_nat (List.length bPath))%Z
  end.

Definition compareNodes (a b : NodeInfo) : Z :=
  compareSegments (pathParts a) (pathParts b).

(** [nodes.sort(compare)].  The sort of an array is stable, and on a
    comparator that is a consistent order every stable sort gives the list
    that insertion gives. *)
Fixpoint insert (x : NodeInfo) (sorted : list NodeInfo) : list NodeInfo :=
  match sorted with
  | [] => [x]
  | y :: rest =>
      if Z.leb (compareNodes x y) 0 then x :: sorted else y :: insert x rest
  end.

Fixpoint sort (nodes : list NodeInfo) : list NodeInfo :=
  match nodes with
  | [] => []
  | x :: rest => insert x (sort rest)
  end.

Definition buildStore (anatomy : value) : result BuildState :=
  nodes <- mapM (nodeOfEntry anatomy) (forIn anatomy) ;;
  Ok (fold_left link (sort nodes) emptyState).

Definition buildTreeFromAnatomy (anatomy : value) : result (list TreeNode) :=
  st <- buildStore anatomy ;;
  match reifyAll (store st) (rootNodes st) with
  | Some forest => Ok forest
  | None => Throw
  end.

(** [a] does not come after [b]. *)
Definition ordered (a b : NodeInfo) : Prop := (compareNodes a b <= 0)%Z.

Definition infoOf (t : TreeNode) : NodeInfo :=
  match t with
  | Node i _ => i
  end.

Definition siblingsOrdered (l : list TreeNode) : Prop :=
  StronglySorted (fun a b => ordered (infoOf a) (infoOf b)) l.

(** The children of every node of the tree are in the order of the paths. *)
Fixpoint orderedBelow (t : TreeNode) : Prop :=
  match t with
  | Node _ kids =>
      siblingsOrdered kids /\
      (fix all (l : list TreeNode) : Prop :=
         match l with
         | [] => True
         | k :: rest => orderedBelow k /\ all rest
         end) kids
  end.

Definition orderedForest (forest : list TreeNode) : Prop :=
  siblingsOrdered forest /\ Forall orderedBelow forest.

End Sorting.

(** The node of an entry of a flat mapping. *)
Definition nodeOfFlat (e : FlatEntry) : NodeInfo :=
  mkInfo (VStr (entryName e))
         (VStr (if String.eqb (entryType e) EmptyString then "UNKNOWN" else entryType e))
         (VStr (entryPath e))
         VUndefined.

(** The segments of the paths of a flat mapping: the strings [nodes.sort]
    calls [localeCompare] on. *)
Definition segmentsOf (entries : list FlatEntry) : list string :=
  flat_map (fun e => pathParts (nodeOfFlat e)) entries.

(** What [nodes.sort] needs of [localeCompare] on the segments it compares
    to have a defined result: there it tells two different segments apart,
    and is an order.  Nothing is asked of it on other strings. *)
Definition consistentOn (localeCompare : string -> string -> Z)
    (segments : list string) : Prop :=
  (forall x, In x segments -> localeCompare x x = 0%Z) /\
  (forall x y, In x segments -> In y segments ->
      x <> y -> localeCompare x y <> 0%Z) /\
  (forall x y, In x segments -> In y segments ->
      (0 < localeCompare x y)%Z -> (localeCompare y x < 0)%Z) /\
  (forall x y z, In x segments -> In y segments -> In z segments ->
      (localeCompare x y < 0)%Z -> (localeCompare y z < 0)%Z ->
      (localeCompare x z < 0)%Z).

(** A comparison to try the builder with: two strings byte by byte, as a
    number.  On the segments of the sample mappings, words that differ in
    their first letter, a capital, it is the alphabetical order. *)
Definition byteCompare (x y : string) : Z :=
  match String.compare x y with
  | Lt => (-1)%Z
  | Eq => 0%Z
  | Gt => 1%Z
  end.

End Legacy.

(** ** Inputs the properties are tried on *)

Module Examples.
Import Shape Flat.

(** Two roots, then a child of the first one. *)
Definition outOfOrder : list ElementRecord :=
  [mkRecord "Frame" "FRAME" "Frame" EmptyString;
   mkRecord "Footer" "FRAME" "Footer" EmptyString;
   mkRecord "Label" "TEXT" "Frame > Label" "Frame"].

(** A card: a frame with two icons of the same name and a label, and a footer. *)
Definition card : list Element :=
  [Elem (mkRecord "Frame" "FRAME" "Frame" EmptyString)
     [Elem (mkRecord "Icon" "VECTOR" "Frame > Icon" "Frame")
        [Elem (mkRecord "Shape" "VECTOR" "Frame > Icon > Shape" "Frame > Icon") []];
      Elem (mkRecord "Icon" "VECTOR" "Frame > Icon" "Frame") [];
      Elem (mkRecord "Label" "TEXT" "Frame > Label" "Frame") []];
   Elem (mkRecord "Footer" "FRAME" "Footer" EmptyString) []].

(** A flat mapping whose keys are not in the order of their paths. *)
Definition unsorted : list FlatEntry :=
  [mkEntry "Frame" "FRAME" "Frame";
   mkEntry "Zed" "TEXT" "Frame > Zed";
   mkEntry "Alpha" "TEXT" "Frame > Alpha"].

(** The same two entries of a flat mapping, under the two orders of their
    keys. *)
Definition iconFirst : list FlatEntry :=
  [mkEntry "Icon" "VECTOR" "Icon"; mkEntry "Label" "TEXT" "Label"].

Definition labelFirst : list FlatEntry :=
  [mkEntry "Label" "TEXT" "Label"; mkEntry "Icon" "VECTOR" "Icon"].

(** One record that names its own path as the path of its parent. *)
Definition selfParent : list ElementRecord :=
  [mkRecord "Icon" "VECTOR" "Icon" "Icon"].

(** Three variants; the first and the last differ in [parentPath] only. *)
Definition sizes : list (string * list ElementRecord) :=
  [("Small", [mkRecord "Frame" "FRAME" "Frame" EmptyString;
              mkRecord "Label" "TEXT" "Frame > Label" "Frame"]);
   ("Large", [mkRecord "Frame" "FRAME" "Frame" EmptyString;
              mkRecord "Icon" "VECTOR" "Frame > Icon" "Frame"]);
   ("Medium", [mkRecord "Frame" "FRAME" "Frame" EmptyString;
               mkRecord "Label" "TEXT" "Frame > Label" "Card"])].

Definition sizesData : value := Grouping.variantsData sizes.

Definition sizesFirst : value := sequence (snd (hd ("", []) sizes)).

Definition sizesGroups : Variants.groups :=
  Eval vm_compute in
    match Report.groupsOf sizesData with
    | Ok gs => gs
    | Throw => []
    end.

End Examples.

(** * The code around the converters

    What follows embeds the code that makes the input of the converters and
    the code that uses their output: the extractors [ExportAnatomy] and
    [ExportProperties] of the plugin ([code.ts]), the serializer
    [convertToYAML] and the declaration formats [convertToTypeScript] and
    [convertToJSDoc] in full, the comparison of the older copy, and the
    naming of the exported files. *)

(** ** Writing a property of an object

    [obj[k] = v] on an object made by [{}].  An object is modelled by its
    own properties, in the order [Object.keys] lists them in: the keys that
    are array indices in ascending order, then the other keys in the order
    they were first written.  The assignment to the key [__proto__] creates
    no property: it changes the prototype of the object, which the model
    does not keep.  What reads an inherited property of the object, as
    [for ... in] does, is therefore stated for objects without such a
    write. *)

Module Obj.

(** The array index a key stands for: a canonical decimal numeral below
    [2^32 - 1]. *)
Definition arrayIndex (k : string) : option N :=
  match NilEmpty.uint_of_string k with
  | Some d =>
      let n := N.of_uint d in
      if String.eqb (NilEmpty.string_of_uint (N.to_uint n)) k && N.ltb n 4294967295
      then Some n
      else None
  | None => None
  end.

(** A new key [k] is listed before the key [k']. *)
Definition comesBefore (k k' : string) : bool :=
  match arrayIndex k, arrayIndex k' with
  | Some n, Some n' => N.ltb n n'
  | Some _, None => true
  | None, _ => false
  end.

Definition hasKey (k : string) (fields : list (string * value)) : bool :=
  existsb (fun kv => String.eqb (fst kv) k) fields.

Fixpoint replaceValue (k : string) (v : value) (fields : list (string * value))
  : list (string * value) :=
  match fields with
  | [] => []
  | (k', v') :: rest =>
      if String.eqb k' k then (k', v) :: rest else (k', v') :: replaceValue k v rest
  end.

Fixpoint insertKey (k : string) (v : value) (fields : list (string * value))
  : list (string * value) :=
  match fields with
  | [] => [(k, v)]
  | (k', v') :: rest =>
      if comesBefore k k' then (k, v) :: fields else (k', v') :: insertKey k v rest
  end.

(** The own properties after [obj[k] = v]. *)
Definition setProp (k : string) (v : value) (fields : list (string * value))
  : list (string * value) :=
  if String.eqb k "__proto__" then fields
  else if hasKey k fields then replaceValue k v fields else insertKey k v fields.

End Obj.

(** ** The extractor of the anatomy ([ExportAnatomy] of [code.ts])

    The last of the three copies of the plugin code in [code.ts], which is
    the one that writes the explicit sequence. *)

Module Extract.
Import Js Tree Shape.

(** A layer of the document, as the extractor reads it: [n.name], [n.type]
    and [n.children].  A layer that has no [children] property is a layer
    with no child to visit. *)
Inductive SceneNode : Type :=
| Layer (name type : string) (children : list SceneNode).

Definition layerName (n : SceneNode) : string :=
  match n with
  | Layer nodeName _ _ => nodeName
  end.

Definition layerType (n : SceneNode) : string :=
  match n with
  | Layer _ ty _ => ty
  end.

Definition layerChildren (n : SceneNode) : list SceneNode :=
  match n with
  | Layer _ _ kids => kids
  end.

(** [path ? `${path} > ${nodeName}` : nodeName] *)
Definition fullPathOf (path nodeName : string) : string :=
  if String.eqb path EmptyString then nodeName else path +++ " > " +++ nodeName.

(** [traverseNode] (lines 2366 to 2383), with the array it pushes on. *)
Fixpoint traverseNode (n : SceneNode) (path parentPath : string) (anatomy : list value)
  : list value :=
  match n with
  | Layer nodeName ty kids =>
      let fullPath := fullPathOf path nodeName in
      let anatomy1 :=
        anatomy ++ [VObj [("name", VStr nodeName);
                          ("type", VStr ty);
                          ("path", VStr fullPath);
                          ("parentPath", VStr parentPath)]] in
      (fix each (l : list SceneNode) (acc : list value) : list value :=
         match l with
         | [] => acc
         | child :: rest => each rest (traverseNode child fullPath fullPath acc)
         end) kids anatomy1
  end.

(** The loop over the children of a component (lines 2386 to 2390 and 2422
    to 2424). *)
Fixpoint traverseAll (layers : list SceneNode) (anatomy : list value) : list value :=
  match layers with
  | [] => anatomy
  | child :: rest => traverseAll rest (traverseNode child EmptyString EmptyString anatomy)
  end.

(** The body of the loop over the variants of a set (lines 2361 to 2394). *)
Definition addVariantAnatomy (variantAnatomies : list (string * value))
                             (variant : SceneNode) : list (string * value) :=
  if String.eqb (layerType variant) "COMPONENT"
  then Obj.setProp (layerName variant)
                   (VArr (traverseAll (layerChildren variant) []))
                   variantAnatomies
  else variantAnatomies.

(** [ExportAnatomy] (lines 2356 to 2430). *)
Definition ExportAnatomy (node : SceneNode) : value :=
  if String.eqb (layerType node) "COMPONENT_SET" &&
     Nat.ltb 0 (List.length (layerChildren node))
  then VObj (fold_left addVariantAnatomy (layerChildren node) [])
  else VArr (traverseAll (layerChildren node) []).

(** The layers as the tree builder is to give them back: the node of a layer
    holds its name, its type, its full path and the full path of its
    parent. *)
Fixpoint layerTree (path : string) (n : SceneNode) : TreeNode :=
  match n with
  | Layer nodeName ty kids =>
      Node (mkInfo (VStr nodeName)
                   (VStr (if String.eqb ty EmptyString then "UNKNOWN" else ty))
                   (VStr (fullPathOf path nodeName))
                   (VStr path))
           (map (layerTree (fullPathOf path nodeName)) kids)
  end.

(** The element a layer is, under the path of its parent. *)
Fixpoint elementOf (path : string) (n : SceneNode) : Element :=
  match n with
  | Layer nodeName ty kids =>
      Elem (mkRecord nodeName ty (fullPathOf path nodeName) path)
           (map (elementOf (fullPathOf path nodeName)) kids)
  end.

(** The forest of the layers of a component. *)
Definition layerForest (node : SceneNode) : list TreeNode :=
  map (layerTree EmptyString) (layerChildren node).

Definition elementsOf (node : SceneNode) : list Element :=
  map (elementOf EmptyString) (layerChildren node).

(** The children of a set that are components, which are its variants. *)
Definition variantsOfSet (node : SceneNode) : list SceneNode :=
  filter (fun v => String.eqb (layerType v) "COMPONENT") (layerChildren node).

(** The records of a list of layers at the top of a component. *)
Definition recordsOf (layers : list SceneNode) : list ElementRecord :=
  flat_map listing (map (elementOf EmptyString) layers).

(** A layer at the top of a component that has no name has no children.
    (Under a layer without a name the paths of the children would start
    anew.) *)
Definition topNamed (n : SceneNode) : bool :=
  negb (String.eqb (layerName n) EmptyString) ||
  match layerChildren n with
  | [] => true
  | _ :: _ => false
  end.

(** Induction on a layer with the hypothesis on every child. *)
Fixpoint SceneNode_ind' (P : SceneNode -> Prop)
    (step : forall nodeName ty kids, Forall P kids -> P (Layer nodeName ty kids))
    (n : SceneNode) : P n :=
  match n with
  | Layer nodeName ty kids =>
      step nodeName ty kids
        ((fix all (l : list SceneNode) : Forall P l :=
            match l with
            | [] => Forall_nil P
            | k :: rest => Forall_cons k (@SceneNode_ind' P step k) (all rest)
            end) kids)
  end.

End Extract.

(** ** Records kept by the tree builder *)

Module Conserve.
Import Js Tree Shape Reach.

(** A record that names, as the path of its parent, the key it is itself
    stored under. *)
Definition selfParent (r : ElementRecord) : bool :=
  negb (String.eqb (recParentPath r) EmptyString) &&
  String.eqb (recParentPath r) (keyOf r).

(** The nodes [renderNode] visits from the node stored at [ref], in the order
    it visits them. *)
Definition nodesFrom (st : list Cell) (ref : nat) : list NodeInfo :=
  match reify (S (List.length st)) st ref with
  | Some t => preorder t
  | None => []
  end.

(** A store in which every node was stored after its parent and is on a list:
    the list of the roots or the list of the children of a node. *)
Record forestShaped (st : BuildState) : Prop := mkForestShaped {
  linkedWell : wellLinked st;
  parentFirst :
    forall p c x,
      nth_error (store st) p = Some c -> In x (children c) -> p < x;
  allListed :
    forall i, i < List.length (store st) ->
              In i (rootNodes st ++ concat (map children (store st)))
}.

(** The references on the list of the roots or on the list of a node stored
    before index [k]. *)
Definition listedBefore (st : BuildState) (k : nat) : list nat :=
  rootNodes st ++ concat (map children (firstn k (store st))).

(** Of these, the nodes stored at index [k] or later: the tops of what is
    stored from [k] on. *)
Definition frontier (st : BuildState) (k : nat) : list nat :=
  filter (Nat.leb k) (listedBefore st k).

End Conserve.

(** ** The nested-text serializer ([convertToYAML]) *)

Module YamlDoc.
Import Js Yaml.

(** [itemYaml.split('\n').map(line => line ? `  ${line}` : line).join('\n')]
    (lines 215 to 217) *)
Definition shiftItem (itemYaml : string) : string :=
  Str.join Tree.newlineStr
    (map (fun line => if String.eqb line EmptyString then line else "  " +++ line)
         (Str.split itemYaml Tree.newlineStr)).

(** [convertToYAML] (lines 197 to 228).  The loop [for (const key in data)]
    visits the properties of an object, the indices of an array and of a
    string (whose values are strings of one character, which take the last
    branch), and nothing on any other value; [result] is the concatenation
    of what each turn of a loop adds to it. *)
Fixpoint convertToYAML (data : value) (indent : nat) {struct data} : string :=
  let indentStr := Str.repeat "  " indent in
  let member (key : string) (v : value) : string :=
    match v with
    | VNull | VUndefined => indentStr +++ key +++ ": null" +++ Tree.newlineStr
    | VObj _ =>
        indentStr +++ key +++ ":" +++ Tree.newlineStr +++ convertToYAML v (indent + 1)
    | VArr items =>
        indentStr +++ key +++ ":" +++ Tree.newlineStr +++
        (fix each (l : list value) : string :=
           match l with
           | [] => EmptyString
           | item :: more =>
               (if typeofObject item
                then indentStr +++ "  -" +++ Tree.newlineStr +++
                     shiftItem (convertToYAML item (indent + 2))
                else indentStr +++ "  - " +++ formatYAMLValue item +++ Tree.newlineStr)
               +++ each more
           end) items
    | _ => indentStr +++ key +++ ": " +++ formatYAMLValue v +++ Tree.newlineStr
    end in
  match data with
  | VObj fields =>
      (fix members (l : list (string * value)) : string :=
         match l with
         | [] => EmptyString
         | (key, v) :: rest => member key v +++ members rest
         end) fields
  | VArr items =>
      (fix members (i : nat) (l : list value) : string :=
         match l with
         | [] => EmptyString
         | v :: rest => member (Str.ofNat i) v +++ members (S i) rest
         end) 0 items
  | VStr s =>
      (fix members (i : nat) (l : list value) : string :=
         match l with
         | [] => EmptyString
         | v :: rest =>
             (indentStr +++ Str.ofNat i +++ ": " +++ formatYAMLValue v +++ Tree.newlineStr)
             +++ members (S i) rest
         end) 0 (chars s)
  | _ => EmptyString
  end.

(** The texts one after the other. *)
Definition cat (l : list string) : string := fold_right String.append EmptyString l.

(** What the loop over an array adds for one item (lines 212 to 220). *)
Definition itemYAML (indent : nat) (item : value) : string :=
  let indentStr := Str.repeat "  " indent in
  if typeofObject item
  then indentStr +++ "  -" +++ Tree.newlineStr +++
       shiftItem (convertToYAML item (indent + 2))
  else indentStr +++ "  - " +++ formatYAMLValue item +++ Tree.newlineStr.

(** What the loop over the keys adds for one key (lines 202 to 224). *)
Definition memberYAML (indent : nat) (key : string) (v : value) : string :=
  let indentStr := Str.repeat "  " indent in
  match v with
  | VNull | VUndefined => indentStr +++ key +++ ": null" +++ Tree.newlineStr
  | VObj _ =>
      indentStr +++ key +++ ":" +++ Tree.newlineStr +++ convertToYAML v (indent + 1)
  | VArr items =>
      indentStr +++ key +++ ":" +++ Tree.newlineStr +++
      cat (map (itemYAML indent) items)
  | _ => indentStr +++ key +++ ": " +++ formatYAMLValue v +++ Tree.newlineStr
  end.

(** What the loop over the keys adds for the items of an array, or the
    characters of a string, from index [i] on. *)
Fixpoint indexedYAML (indent : nat) (i : nat) (l : list value) : string :=
  match l with
  | [] => EmptyString
  | v :: rest => memberYAML indent (Str.ofNat i) v +++ indexedYAML indent (S i) rest
  end.

(** A text with every line that is not empty moved right by [n] levels. *)
Definition indented (n : nat) (text : string) : string :=
  Str.join Tree.newlineStr
    (map (fun line =>
            if String.eqb line EmptyString then line else Str.repeat "  " n +++ line)
         (Str.split text Tree.newlineStr)).

Definition oneLine (s : string) : bool := negb (Str.includes s Tree.newlineStr).

(** Data in which no key and no string holds a line break. *)
Fixpoint plain (v : value) : bool :=
  match v with
  | VStr s => oneLine s
  | VArr items => forallb plain items
  | VObj fields =>
      (fix all (l : list (string * value)) : bool :=
         match l with
         | [] => true
         | (key, x) :: rest => oneLine key && plain x && all rest
         end) fields
  | _ => true
  end.

(** A text read character by character: [pre] is put before the first
    character of every line that has one; [atStart] tells that no character
    of the current line was read yet. *)
Fixpoint shiftLines (pre : string) (atStart : bool) (s : string) : string :=
  match s with
  | EmptyString => EmptyString
  | String c s' =>
      if Ascii.eqb c Str.newline
      then String c (shiftLines pre true s')
      else (if atStart then pre else EmptyString) +++ String c (shiftLines pre false s')
  end.

(** Whether the text ends at the start of a line. *)
Fixpoint atLineStart (atStart : bool) (s : string) : bool :=
  match s with
  | EmptyString => atStart
  | String c s' => atLineStart (Ascii.eqb c Str.newline) s'
  end.

(** Induction on a value with the hypothesis on every item and field. *)
Fixpoint value_ind' (P : value -> Prop)
    (Hundefined : P VUndefined) (Hnull : P VNull)
    (Hbool : forall b, P (VBool b)) (Hnum : forall n, P (VNum n))
    (Hstr : forall s, P (VStr s))
    (Harr : forall items, Forall P items -> P (VArr items))
    (Hobj : forall fields, Forall (fun kv => P (snd kv)) fields -> P (VObj fields))
    (v : value) : P v :=
  match v with
  | VUndefined => Hundefined
  | VNull => Hnull
  | VBool b => Hbool b
  | VNum n => Hnum n
  | VStr s => Hstr s
  | VArr items =>
      Harr items
        ((fix all (l : list value) : Forall P l :=
            match l with
            | [] => Forall_nil P
            | x :: rest =>
                Forall_cons x
                  (value_ind' Hundefined Hnull Hbool Hnum Hstr Harr Hobj x) (all rest)
            end) items)
  | VObj fields =>
      Hobj fields
        ((fix all (l : list (string * value)) : Forall (fun kv => P (snd kv)) l :=
            match l with
            | [] => Forall_nil _
            | kv :: rest =>
                Forall_cons kv
                  (value_ind' Hundefined Hnull Hbool Hnum Hstr Harr Hobj (snd kv))
                  (all rest)
            end) fields)
  end.

End YamlDoc.

(** ** The two declaration formats ([convertToTypeScript], [convertToJSDoc]) *)

Module Typings.
Import Js Schema YamlDoc.

(** The number of bytes of the white space character a string starts with, 0
    when it starts with none.  The class [\s] holds the ASCII characters 9 to
    13 and 32, and U+00A0, U+1680, U+2000 to U+200A, U+2028, U+2029, U+202F,
    U+205F, U+3000 and U+FEFF, which are two or three bytes each. *)
Definition spaceAt (s : string) : nat :=
  match s with
  | String a rest =>
      let n := nat_of_ascii a in
      if (Nat.leb 9 n && Nat.leb n 13) || Nat.eqb n 32 then 1
      else
        match rest with
        | String b rest' =>
            let m := nat_of_ascii b in
            if Nat.eqb n 194 && Nat.eqb m 160 then 2
            else
              match rest' with
              | String c _ =>
                  let k := nat_of_ascii c in
                  if Nat.eqb n 225 && Nat.eqb m 154 && Nat.eqb k 128 then 3
                  else if Nat.eqb n 226 && Nat.eqb m 128 &&
                          ((Nat.leb 128 k && Nat.leb k 138) ||
                           Nat.eqb k 168 || Nat.eqb k 169 || Nat.eqb k 175) then 3
                  else if Nat.eqb n 226 && Nat.eqb m 129 && Nat.eqb k 159 then 3
                  else if Nat.eqb n 227 && Nat.eqb m 128 && Nat.eqb k 128 then 3
                  else if Nat.eqb n 239 && Nat.eqb m 187 && Nat.eqb k 191 then 3
                  else 0
              | EmptyString => 0
              end
        | EmptyString => 0
        end
  | EmptyString => 0
  end.

(** [s.replace(/\s+/g, '')]; [skip] counts the bytes of a white space
    character still to pass. *)
Fixpoint removeSpaces (s : string) (skip : nat) : string :=
  match s with
  | EmptyString => EmptyString
  | String c s' =>
      match skip with
      | S k => removeSpaces s' k
      | O =>
          match spaceAt s with
          | O => String c (removeSpaces s' 0)
          | S k => removeSpaces s' k
          end
      end
  end.

Definition cleanNameOf (componentName : string) : string := removeSpaces componentName 0.

(** [component.k || {}] *)
Definition section (component : value) (k : string) : result value :=
  x <- get component k ;;
  Ok (or x (VObj [])).

(** The keys a [for (... in v)] loop visits: those of [Object.keys], and none
    on [null] and [undefined]. *)
Definition forIn (v : value) : list string :=
  match keys v with
  | Ok ks => ks
  | Throw => []
  end.

(** [Object.keys(v).length > 0] *)
Definition hasKeys (v : value) : result bool :=
  ks <- keys v ;;
  Ok (Nat.ltb 0 (List.length ks)).

(** The text a loop adds: the texts of its turns, one after the other. *)
Definition each (f : string -> result string) (ks : list string) : result string :=
  texts <- mapM f ks ;;
  Ok (cat texts).

(** A block that is written when [v] has keys. *)
Definition whenKeys (v : value) (block : result string) : result string :=
  some <- hasKeys v ;;
  if some then block else Ok EmptyString.

(** *** [convertToTypeScript] (lines 245 to 341) *)

(** Line 289. *)
Definition tsAnatomyLine (anatomy : value) (nodeName : string) : result string :=
  node <- get anatomy nodeName ;;
  ty <- get node "type" ;;
  pa <- get node "path" ;;
  Ok ("  " +++ nodeName +++ ": '" +++ toStr ty +++ "'; // " +++ toStr pa +++
      Tree.newlineStr).

(** [if (style.k) result += ...] *)
Definition whenSet (style : value) (k : string) (line : string) : result string :=
  x <- get style k ;;
  Ok (if truthy x then line else EmptyString).

(** Lines 300 to 313. *)
Definition tsStyleBlock (elementStyles : value) (nodeName : string) : result string :=
  style <- get elementStyles nodeName ;;
  fills <- whenSet style "fills" ("    fills?: any;" +++ Tree.newlineStr) ;;
  strokes <- whenSet style "strokes" ("    strokes?: any;" +++ Tree.newlineStr) ;;
  effects <- whenSet style "effects" ("    effects?: any;" +++ Tree.newlineStr) ;;
  fontSize <- whenSet style "fontSize" ("    fontSize?: number;" +++ Tree.newlineStr) ;;
  fontWeight <- whenSet style "fontWeight" ("    fontWeight?: number;" +++ Tree.newlineStr) ;;
  width <- whenSet style "width" ("    width?: number;" +++ Tree.newlineStr) ;;
  height <- whenSet style "height" ("    height?: number;" +++ Tree.newlineStr) ;;
  padding <- whenSet style "padding" ("    padding?: number;" +++ Tree.newlineStr) ;;
  cornerRadius <- get style "cornerRadius" ;;
  Ok ("  " +++ nodeName +++ ": {" +++ Tree.newlineStr +++
      fills +++ strokes +++ effects +++ fontSize +++ fontWeight +++
      width +++ height +++ padding +++
      (if negb (strictEq cornerRadius VUndefined)
       then "    cornerRadius?: number;" +++ Tree.newlineStr
       else EmptyString) +++
      "  };" +++ Tree.newlineStr).

(** Lines 324 to 333. *)
Definition tsTokenBlock (tokens : value) (nodeName : string) : result string :=
  nodeTokens <- get tokens nodeName ;;
  whenKeys nodeTokens
    (Ok ("  " +++ nodeName +++ ": {" +++ Tree.newlineStr +++
         cat (map (fun tokenKey => "    " +++ tokenKey +++ ": string;" +++ Tree.newlineStr)
                  (forIn nodeTokens)) +++
         "  };" +++ Tree.newlineStr)).

(** An interface: its opening line, the lines of the loop, its last line. *)
Definition tsInterface (cleanName kind : string) (v : value)
                       (line : value -> string -> result string) : result string :=
  whenKeys v
    (body <- each (line v) (forIn v) ;;
     Ok ("interface " +++ cleanName +++ kind +++ " {" +++ Tree.newlineStr +++
         body +++ "}" +++ Tree.newlineStr +++ Tree.newlineStr)).

(** The body of the loop over the components (lines 248 to 338). *)
Definition tsComponent (data : value) (componentName : string) : result string :=
  component <- get data componentName ;;
  let cleanName := cleanNameOf componentName in
  props <- section component "props" ;;
  anatomy <- section component "anatomy" ;;
  elementStyles <- section component "elementStyles" ;;
  tokens <- section component "tokens" ;;
  propsText <- tsInterface cleanName "Props" props tsPropLine ;;
  anatomyText <- tsInterface cleanName "Anatomy" anatomy tsAnatomyLine ;;
  stylesText <- tsInterface cleanName "Styles" elementStyles tsStyleBlock ;;
  tokensText <- tsInterface cleanName "Tokens" tokens tsTokenBlock ;;
  Ok (propsText +++ anatomyText +++ stylesText +++ tokensText).

Definition convertToTypeScript (data : value) : result string :=
  each (tsComponent data) (forIn data).

(** *** [convertToJSDoc] (lines 343 to 421) *)

(** Line 389. *)
Definition jsdocAnatomyLine (anatomy : value) (nodeName : string) : result string :=
  node <- get anatomy nodeName ;;
  ty <- get node "type" ;;
  pa <- get node "path" ;;
  Ok (" * @property {string} " +++ nodeName +++ " - " +++ toStr ty +++
      " (" +++ toStr pa +++ ")" +++ Tree.newlineStr).

(** Lines 401 and 413. *)
Definition jsdocObjectLine (_ : value) (nodeName : string) : result string :=
  Ok (" * @property {Object} " +++ nodeName +++ Tree.newlineStr).

(** A typedef: its two opening lines, the lines of the loop, its last
    line. *)
Definition jsdocTypedef (cleanName kind : string) (v : value)
                        (line : value -> string -> result string) : result string :=
  whenKeys v
    (body <- each (line v) (forIn v) ;;
     Ok ("/**" +++ Tree.newlineStr +++
         " * @typedef {Object} " +++ cleanName +++ kind +++ Tree.newlineStr +++
         body +++ " */" +++ Tree.newlineStr +++ Tree.newlineStr)).

(** The body of the loop over the components (lines 346 to 418). *)
Definition jsdocComponent (data : value) (componentName : string) : result string :=
  component <- get data componentName ;;
  let cleanName := cleanNameOf componentName in
  props <- section component "props" ;;
  anatomy <- section component "anatomy" ;;
  elementStyles <- section component "elementStyles" ;;
  tokens <- section component "tokens" ;;
  propsText <- jsdocTypedef cleanName "Props" props jsdocPropLine ;;
  anatomyText <- jsdocTypedef cleanName "Anatomy" anatomy jsdocAnatomyLine ;;
  stylesText <- jsdocTypedef cleanName "Styles" elementStyles jsdocObjectLine ;;
  tokensText <- jsdocTypedef cleanName "Tokens" tokens jsdocObjectLine ;;
  Ok (propsText +++ anatomyText +++ stylesText +++ tokensText).

Definition convertToJSDoc (data : value) : result string :=
  each (jsdocComponent data) (forIn data).

(** *** The anatomy as the two formats show it *)

(** The records with their positions. *)
Definition numbered (rs : list Shape.ElementRecord) : list (nat * Shape.ElementRecord) :=
  combine (seq 0 (List.length rs)) rs.

Definition tsMember (ir : nat * Shape.ElementRecord) : string :=
  "  " +++ Str.ofNat (fst ir) +++ ": '" +++ Shape.recType (snd ir) +++ "'; // " +++
  Shape.recPath (snd ir) +++ Tree.newlineStr.

Definition jsdocMember (ir : nat * Shape.ElementRecord) : string :=
  " * @property {string} " +++ Str.ofNat (fst ir) +++ " - " +++ Shape.recType (snd ir) +++
  " (" +++ Shape.recPath (snd ir) +++ ")" +++ Tree.newlineStr.

Definition tsVariantMember (variantName : string) : string :=
  "  " +++ variantName +++ ": 'undefined'; // undefined" +++ Tree.newlineStr.

Definition jsdocVariantMember (variantName : string) : string :=
  " * @property {string} " +++ variantName +++ " - undefined (undefined)" +++
  Tree.newlineStr.

(** What was exported of one component, of which the anatomy only was
    asked for. *)
Definition anatomyOnly (componentName : string) (anatomy : value) : value :=
  VObj [(componentName, VObj [("anatomy", anatomy)])].

End Typings.

(** ** The extractor of the properties ([ExportProperties] of [code.ts]) *)

Module Props.
Import Js Obj Typings.

(** [propKey.split('#')[0]] (line 2308) *)
Definition propNameOf (propKey : string) : string :=
  hd EmptyString (Str.split propKey "#").

(** [options.includes(x)]: by [===] on the items of an array, as a part of a
    string; another value has no such method. *)
Definition includesValue (options : value) (x : string) : result bool :=
  match options with
  | VArr items => Ok (existsb (strictEq (VStr x)) items)
  | VStr s => Ok (Str.includes s x)
  | _ => Throw
  end.

(** [isBooleanVariant] (lines 2319 and 2320) *)
Definition isBooleanVariant (options : value) : result bool :=
  len <- get options "length" ;;
  if strictEq len (VNum 2)
  then
    hasTrue <- includesValue options "true" ;;
    if hasTrue then includesValue options "false" else Ok false
  else Ok false.

(** The object written for a property definition, when one is written
    (lines 2311 to 2345). *)
Definition propertyOf (propDef : value) : result (option value) :=
  ty <- get propDef "type" ;;
  if strictEq ty (VStr "BOOLEAN")
  then Ok (Some (VObj [("type", VStr "boolean")]))
  else if strictEq ty (VStr "VARIANT")
  then
    variantOptions <- get propDef "variantOptions" ;;
    let options := or variantOptions (VArr []) in
    boolean <- isBooleanVariant options ;;
    if boolean
    then Ok (Some (VObj [("type", VStr "boolean")]))
    else Ok (Some (VObj [("type", VStr "enum"); ("values", options)]))
  else if strictEq ty (VStr "TEXT")
  then
    defaultValue <- get propDef "defaultValue" ;;
    Ok (Some (VObj [("type", VStr "string");
                    ("default", or defaultValue (VStr EmptyString))]))
  else if strictEq ty (VStr "INSTANCE_SWAP")
  then Ok (Some (VObj [("type", VStr "instance")]))
  else Ok None.

(** The body of the loop over the definitions (lines 2305 to 2346). *)
Definition exportProperty (componentProperties : value)
                          (props : list (string * value)) (propKey : string)
  : result (list (string * value)) :=
  propDef <- get componentProperties propKey ;;
  let propName := propNameOf propKey in
  written <- propertyOf propDef ;;
  match written with
  | Some prop => Ok (setProp propName prop props)
  | None => Ok props
  end.

(** [ExportProperties] (lines 2296 to 2349). *)
Definition ExportProperties (componentProperties : value) : result value :=
  if negb (truthy componentProperties) then Ok (VObj [])
  else
    props <- foldM (exportProperty componentProperties) (forIn componentProperties) [] ;;
    Ok (VObj props).

(** A definition of a property as the document gives it: its type, the
    options of a variant, the default of a text. *)
Record PropertyDef : Type := mkDef {
  defType : string;
  defOptions : list string;
  defDefault : string
}.

Definition ofDef (d : PropertyDef) : value :=
  VObj [("type", VStr (defType d));
        ("variantOptions", VArr (map VStr (defOptions d)));
        ("defaultValue", VStr (defDefault d))].

Definition definitions (defs : list (string * PropertyDef)) : value :=
  VObj (map (fun kd => (fst kd, ofDef (snd kd))) defs).

(** The options are [true] and [false], in one order or the other. *)
Definition booleanPair (options : list string) : bool :=
  Nat.eqb (List.length options) 2 &&
  existsb (String.eqb "true") options && existsb (String.eqb "false") options.

(** The type a definition is given in [convertToTypeScript], when it is
    exported. *)
Definition tsTypeOf (d : PropertyDef) : option string :=
  if String.eqb (defType d) "BOOLEAN" then Some "boolean"
  else if String.eqb (defType d) "VARIANT"
  then if booleanPair (defOptions d) then Some "boolean"
       else Some (Str.join " | " (map (fun o => "'" +++ o +++ "'") (defOptions d)))
  else if String.eqb (defType d) "TEXT" then Some "string"
  else if String.eqb (defType d) "INSTANCE_SWAP" then Some "React.ReactNode"
  else None.

(** The same in [convertToJSDoc]. *)
Definition jsdocTypeOf (d : PropertyDef) : option string :=
  if String.eqb (defType d) "BOOLEAN" then Some "boolean"
  else if String.eqb (defType d) "VARIANT"
  then if booleanPair (defOptions d) then Some "boolean"
       else Some ("(" +++ Str.join "|" (map (fun o => "'" +++ o +++ "'") (defOptions d))
                  +++ ")")
  else if String.eqb (defType d) "TEXT" then Some "string"
  else if String.eqb (defType d) "INSTANCE_SWAP" then Some "ReactNode"
  else None.

(** A definition is read back from [props] under its name, with the types
    of its definition, or nothing is there under its name. *)
Definition typedAs (props : list (string * value)) (kd : string * PropertyDef) : Prop :=
  match tsTypeOf (snd kd), jsdocTypeOf (snd kd) with
  | Some t, Some t' =>
      exists prop,
        lookup (propNameOf (fst kd)) props = Some prop /\
        Schema.tsTypeString prop = Ok t /\ Schema.jsdocTypeString prop = Ok t'
  | _, _ => lookup (propNameOf (fst kd)) props = None
  end.

Definition nameOfDef (kd : string * PropertyDef) : string := propNameOf (fst kd).

(** The characters of a string before the first [c]. *)
Fixpoint upTo (c : ascii) (s : string) : string :=
  match s with
  | EmptyString => EmptyString
  | String a s' => if Ascii.eqb a c then EmptyString else String a (upTo c s')
  end.

End Props.

(** ** The names of the exported files ([sanitizeFilename] and the loop of
    [downloadMultipleMarkdownFiles])

    [substring] counts code units, and the class [\s] holds characters
    outside of ASCII: in this module a string is the list of its UTF-16 code
    units. *)

Module Files.

Definition jsString : Type := list N.

(** The code units of a text of ASCII characters. *)
Definition units (s : string) : jsString :=
  map (fun a => N.of_nat (nat_of_ascii a)) (list_ascii_of_string s).

(** The characters that are removed (line 13): the slash, the backslash, the
    colon, the asterisk, the question mark, the double quote, the two angle
    brackets and the bar. *)
Definition invalidChar (c : N) : bool :=
  existsb (N.eqb c) [47; 92; 58; 42; 63; 34; 60; 62; 124]%N.

(** The class [\s]: the characters 9 to 13 and 32, U+00A0, U+1680, U+2000 to
    U+200A, U+2028, U+2029, U+202F, U+205F, U+3000 and U+FEFF. *)
Definition spaceChar (c : N) : bool :=
  (N.leb 9 c && N.leb c 13) || N.eqb c 32 || N.eqb c 160 || N.eqb c 5760 ||
  (N.leb 8192 c && N.leb c 8202) || N.eqb c 8232 || N.eqb c 8233 ||
  N.eqb c 8239 || N.eqb c 8287 || N.eqb c 12288 || N.eqb c 65279.

Definition hyphen : N := 45%N.

(** The first [replace] (line 13) *)
Definition removeInvalid (name : jsString) : jsString :=
  filter (fun c => negb (invalidChar c)) name.

(** The second [replace] (line 14): a hyphen for every run of white space;
    [inRun] tells that the character before was white space, which the
    hyphen written for it stands for as well. *)
Fixpoint hyphenate (name : jsString) (inRun : bool) : jsString :=
  match name with
  | [] => []
  | c :: rest =>
      if spaceChar c
      then if inRun then hyphenate rest true else hyphen :: hyphenate rest true
      else c :: hyphenate rest false
  end.

(** [sanitizeFilename] (lines 8 to 16) *)
Definition sanitizeFilename (name : jsString) : jsString :=
  firstn 255 (hyphenate (removeInvalid name) false).

(** [usedFilenames.has(x)] *)
Definition has (used : list jsString) (x : jsString) : bool :=
  existsb (fun y => if list_eq_dec N.eq_dec x y then true else false) used.

(** [`${filename}-${counter}`] *)
Definition numberedName (filename : jsString) (counter : nat) : jsString :=
  filename ++ [hyphen] ++ units (Str.ofNat counter).

(** The loop of lines 49 to 52; it has no answer when it takes more turns
    than [fuel]. *)
Fixpoint freshName (fuel : nat) (used : list jsString) (filename finalFilename : jsString)
                   (counter : nat) : option jsString :=
  match fuel with
  | O => None
  | S fuel' =>
      if has used finalFilename
      then freshName fuel' used filename (numberedName filename counter) (S counter)
      else Some finalFilename
  end.

(** The body of the loop over the components (lines 43 to 56): the name of
    the file of a component, and the names that are used after it. *)
Definition nameFile (used : list jsString) (componentName : jsString)
  : option (jsString * list jsString) :=
  let filename := sanitizeFilename componentName in
  match freshName (S (List.length used)) used filename filename 2 with
  | Some finalFilename => Some (finalFilename, used ++ [finalFilename])
  | None => None
  end.

(** The names of the files of the archive, in the order of the components
    (without the [.md] that is put after each). *)
Fixpoint nameFiles (used : list jsString) (componentNames : list jsString)
  : option (list jsString) :=
  match componentNames with
  | [] => Some []
  | componentName :: rest =>
      match nameFile used componentName with
      | Some (finalFilename, used') =>
          match nameFiles used' rest with
          | Some names => Some (finalFilename :: names)
          | None => None
          end
      | None => None
      end
  end.

Definition fileNames (componentNames : list jsString) : option (list jsString) :=
  nameFiles [] componentNames.

(** A name that can be the name of a file as it is. *)
Definition safeName (name : jsString) : Prop :=
  List.length name <= 255 /\
  Forall (fun c => invalidChar c = false /\ spaceChar c = false) name.

(** The names the loop tries for a file name, in the order it tries them. *)
Definition candidate (filename : jsString) (turn : nat) : jsString :=
  match turn with
  | O => filename
  | S k => numberedName filename (k + 2)
  end.

End Files.

(** ** The older comparison of two anatomies

    [compareAnatomies] and [isVariantBased] of the copy that takes the
    anatomy as an object only (its lines 110 to 130). *)

Module LegacyEntry.
Import Js Flat.

(** [isVariantBased] (lines 127 to 130), of the value under the first
    key. *)
Definition isVariantBased (firstValue : value) : bool :=
  truthy firstValue &&
  typeofObject firstValue &&
  Variants.fieldUndefined firstValue "type" &&
  Variants.fieldUndefined firstValue "path".

Section KeyOrder.
(** The order [sort()] puts strings in: that of their code units. *)
Variable keyLe : string -> string -> bool.

(** [keys.sort()].  The keys of an object are distinct, and on distinct keys
    every sort by an order gives the list that insertion gives. *)
Fixpoint insertSorted (k : string) (sorted : list string) : list string :=
  match sorted with
  | [] => [k]
  | k' :: rest => if keyLe k k' then k :: sorted else k' :: insertSorted k rest
  end.

Fixpoint sortKeys (ks : list string) : list string :=
  match ks with
  | [] => []
  | k :: rest => insertSorted k (sortKeys rest)
  end.

(** The loop over [keys1] (lines 117 to 120). *)
Fixpoint compareEntries (anat1 anat2 : value) (keys1 : list string) : result bool :=
  match keys1 with
  | [] => Ok true
  | key :: rest =>
      x1 <- get anat1 key ;;
      t1 <- get x1 "type" ;;
      x2 <- get anat2 key ;;
      t2 <- get x2 "type" ;;
      if negb (strictEq t1 t2) then Ok false
      else
        p1 <- get x1 "path" ;;
        p2 <- get x2 "path" ;;
        if negb (strictEq p1 p2) then Ok false
        else compareEntries anat1 anat2 rest
  end.

(** [compareAnatomies] (lines 110 to 123). *)
Definition compareAnatomies (anat1 anat2 : value) : result bool :=
  ks1 <- keys anat1 ;;
  let keys1 := sortKeys ks1 in
  ks2 <- keys anat2 ;;
  let keys2 := sortKeys ks2 in
  if negb (Nat.eqb (List.length keys1) (List.length keys2)) then Ok false
  else if negb (String.eqb (Str.join "," keys1) (Str.join "," keys2)) then Ok false
  else compareEntries anat1 anat2 keys1.

End KeyOrder.

(** An order on the keys. *)
Definition totalOrder (keyLe : string -> string -> bool) : Prop :=
  (forall x y, keyLe x y = true \/ keyLe y x = true) /\
  (forall x y, keyLe x y = true -> keyLe y x = true -> x = y) /\
  (forall x y z, keyLe x y = true -> keyLe y z = true -> keyLe x z = true).

End LegacyEntry.

(** ** Documents the properties are tried on *)

Module Samples.
Import Extract.

(** The layers of a button: a frame with an icon and a label, and a ring. *)
Definition buttonLayers : list SceneNode :=
  [Layer "Frame" "FRAME"
     [Layer "Icon" "VECTOR" [Layer "Shape" "VECTOR" []];
      Layer "Label" "TEXT" []];
   Layer "Focus ring" "RECTANGLE" []].

Definition button : SceneNode := Layer "Button" "COMPONENT" buttonLayers.

(** A set of two variants of the button, and a note that is no variant. *)
Definition buttonSet : SceneNode :=
  Layer "Button" "COMPONENT_SET"
    [Layer "Size=Small" "COMPONENT" buttonLayers;
     Layer "Note" "TEXT" [];
     Layer "Size=Large" "COMPONENT" buttonLayers].

(** A set of which one variant has no icon. *)
Definition mixedSet : SceneNode :=
  Layer "Button" "COMPONENT_SET"
    [Layer "Icon=On" "COMPONENT" buttonLayers;
     Layer "Icon=Off" "COMPONENT"
       [Layer "Frame" "FRAME" [Layer "Label" "TEXT" []]];
     Layer "7" "COMPONENT" buttonLayers].

(** What was exported of a component. *)
Definition exported : value :=
  VObj [("Button",
         VObj [("props",
                VObj [("size", VObj [("type", VStr "enum");
                                     ("values", VArr [VStr "sm"; VStr "lg"])]);
                      ("label", VObj [("type", VStr "string");
                                      ("default", VStr "Save: now")])]);
               ("anatomy",
                VArr [VObj [("name", VStr "Frame"); ("type", VStr "FRAME");
                            ("path", VStr "Frame"); ("parentPath", VStr EmptyString)];
                      VNull;
                      VArr [VNum 1; VBool true]]);
               ("tokens", VNull)])].

(** The definitions of the properties of the button. *)
Definition buttonProperties : list (string * Props.PropertyDef) :=
  [("Size#12:0", Props.mkDef "VARIANT" ["Small"; "Large"] EmptyString);
   ("Disabled#12:1", Props.mkDef "VARIANT" ["false"; "true"] EmptyString);
   ("Label#12:2", Props.mkDef "TEXT" [] "Save");
   ("Icon#12:3", Props.mkDef "INSTANCE_SWAP" [] EmptyString);
   ("Loading", Props.mkDef "BOOLEAN" [] EmptyString);
   ("Radius#12:4", Props.mkDef "FLOAT" [] EmptyString)].

End Samples.

(** * Properties *)

Module JsFacts.
Import Js.

Lemma strictEq_eq (a b : value) : strictEq a b = true -> a = b.
Proof.
  destruct a, b; simpl; try discriminate; intro H; try reflexivity.
  - apply Bool.eqb_prop in H. now subst.
  - apply Z.eqb_eq in H. now subst.
  - apply String.eqb_eq in H. now subst.
Qed.

Lemma strictEq_sym (a b : value) : strictEq a b = strictEq b a.
Proof.
  destruct a, b; simpl; try reflexivity.
  - now destruct b, b0.
  - apply Z.eqb_sym.
  - apply String.eqb_sym.
Qed.

Lemma strictEq_str (a b : string) : strictEq (VStr a) (VStr b) = String.eqb a b.
Proof. reflexivity. Qed.

Section MapFacts.
Variable V : Type.
Implicit Types (m : jsmap V) (k : value).

Lemma mapGet_mapSet k' (v : V) m k :
  mapGet k (mapSet k' v m) = if strictEq k' k then Some v else mapGet k m.
Proof.
  induction m as [|[k0 v0] m IH]; simpl.
  - reflexivity.
  - destruct (strictEq k0 k') eqn:E0; simpl.
    + apply strictEq_eq in E0. subst k0.
      destruct (strictEq k' k); reflexivity.
    + rewrite IH. destruct (strictEq k0 k) eqn:E1; [|reflexivity].
      apply strictEq_eq in E1. subst k0. now rewrite strictEq_sym, E0.
Qed.
End MapFacts.
End JsFacts.

Module MonadFacts.
Lemma foldM_app {A S : Type} (f : S -> A -> result S) (l1 l2 : list A) (s : S) :
  foldM f (l1 ++ l2) s = (s' <- foldM f l1 s ;; foldM f l2 s').
Proof.
  revert s. induction l1 as [|a l1 IH]; intro s; simpl.
  - reflexivity.
  - destruct (f s a); simpl; [apply IH | reflexivity].
Qed.
End MonadFacts.

Module StoreFacts.
Import Js Tree.

Lemma pushChild_length p c st : List.length (pushChild p c st) = List.length st.
Proof.
  revert p. induction st as [|x st IH]; intros [|p]; simpl; auto.
Qed.

Lemma pushChild_app_l p c st ext :
  p < List.length st -> pushChild p c (st ++ ext) = pushChild p c st ++ ext.
Proof.
  revert p. induction st as [|x st IH]; intros p Hp; simpl in *.
  - lia.
  - destruct p as [|p]; simpl; [reflexivity|].
    f_equal. apply IH. lia.
Qed.

Lemma pushChild_at pre i cs post c :
  pushChild (List.length pre) c (pre ++ mkCell i cs :: post)
  = pre ++ mkCell i (cs ++ [c]) :: post.
Proof.
  induction pre as [|x pre IH]; simpl.
  - reflexivity.
  - now rewrite IH.
Qed.
End StoreFacts.

Module ShapeFacts.
Import Js Tree Shape JsFacts MonadFacts StoreFacts.


Lemma pushChildren_length p refs st :
  List.length (pushChildren p refs st) = List.length st.
Proof.
  revert st. induction refs as [|r refs IH]; intro st; simpl.
  - reflexivity.
  - now rewrite IH, pushChild_length.
Qed.

Lemma pushChildren_app_l p refs st ext :
  p < List.length st -> pushChildren p refs (st ++ ext) = pushChildren p refs st ++ ext.
Proof.
  revert st. induction refs as [|r refs IH]; intros st Hp; simpl.
  - reflexivity.
  - rewrite pushChild_app_l by assumption.
    apply IH. now rewrite pushChild_length.
Qed.

Lemma pushChildren_at pre i cs post refs :
  pushChildren (List.length pre) refs (pre ++ mkCell i cs :: post)
  = pre ++ mkCell i (cs ++ refs) :: post.
Proof.
  revert cs. induction refs as [|r refs IH]; intro cs; simpl.
  - now rewrite app_nil_r.
  - rewrite pushChild_at, IH, <- app_assoc. reflexivity.
Qed.

Lemma cellsAt_eq n r kids :
  cellsAt n (Elem r kids) = mkCell (nodeOf r) (offsets (S n) kids) :: cellsBelow (S n) kids.
Proof.
  reflexivity.
Qed.

Lemma cellsAt_length e : forall n, List.length (cellsAt n e) = size e.
Proof.
  induction e as [r kids IH] using Element_ind'. intro n.
  rewrite cellsAt_eq. simpl. f_equal.
  generalize (S n). induction IH as [|k kids Hk _ IHkids]; intro m; simpl.
  - reflexivity.
  - now rewrite length_app, Hk, IHkids.
Qed.

Lemma cellsBelow_length kids : forall m,
  List.length (cellsBelow m kids) = list_sum (map size kids).
Proof.
  induction kids as [|k kids IH]; intro m; simpl.
  - reflexivity.
  - now rewrite length_app, cellsAt_length, IH.
Qed.


Lemma or_str (a b : string) :
  or (VStr a) (VStr b) = VStr (if String.eqb a EmptyString then b else a).
Proof. unfold or. simpl. now destruct (String.eqb a EmptyString). Qed.

Lemma addNode_ofRecord st r : addNode st (ofRecord r) = Ok (addRecord st r).
Proof.
  unfold addNode, addRecord, ofRecord, nodeOf, keyOf. simpl.
  rewrite !or_str.
  assert (Hpp : (if String.eqb (recParentPath r) EmptyString
                 then EmptyString else recParentPath r) = recParentPath r).
  { destruct (String.eqb_spec (recParentPath r) EmptyString); congruence. }
  rewrite Hpp.
  destruct (String.eqb (recParentPath r) EmptyString) eqn:E; simpl.
  - reflexivity.
  - destruct (mapGet _ _); reflexivity.
Qed.


Lemma linked_eq r kids :
  linked (Elem r kids)
  = negb (existsb (String.eqb (keyOf r)) (keysBelow kids)) && forallb (kidOf (keyOf r)) kids.
Proof. reflexivity. Qed.

Lemma not_exists_key key l :
  existsb (String.eqb key) l = false -> ~ In key l.
Proof.
  intros H Hin.
  assert (existsb (String.eqb key) l = true) as E.
  { apply existsb_exists. exists key. split; [assumption | apply String.eqb_refl]. }
  congruence.
Qed.

Lemma keysOf_eq r kids : keysOf (Elem r kids) = keyOf r :: keysBelow kids.
Proof. reflexivity. Qed.

Lemma keysBelow_cons k kids : keysBelow (k :: kids) = keysOf k ++ keysBelow kids.
Proof. unfold keysBelow, keysOf. simpl. now rewrite map_app. Qed.


Lemma addKids kids :
  Forall addsTree kids ->
  forall st n key,
    forallb (kidOf key) kids = true ->
    mapGet (VStr key) (nodesByPath st) = Some n ->
    n < List.length (store st) ->
    ~ In key (keysBelow kids) ->
    exists byPath',
      foldM addNode (map ofRecord (flat_map listing kids)) st
      = Ok (mkState (pushChildren n (offsets (List.length (store st)) kids) (store st)
                     ++ cellsBelow (List.length (store st)) kids)
                    byPath' (rootNodes st)) /\
      forall k, ~ In k (keysBelow kids) ->
                mapGet (VStr k) byPath' = mapGet (VStr k) (nodesByPath st).
Proof.
  induction 1 as [|k kids Hk _ IH]; intros st n key Hkids Hget Hn Hfresh.
  - exists (nodesByPath st). simpl. rewrite app_nil_r. destruct st; auto.
  - simpl in Hkids. apply andb_prop in Hkids as [Hkid Hkids].
    unfold kidOf in Hkid.
    apply andb_prop in Hkid as [Hkid Hlinked].
    apply andb_prop in Hkid as [Hpp Hne].
    apply String.eqb_eq in Hpp.
    apply negb_true_iff, String.eqb_neq in Hne.
    rewrite keysBelow_cons in Hfresh.
    destruct (Hk st n) as (byPath1 & Hrun1 & Hmap1); try rewrite Hpp; auto.
    { intro Hin. apply Hfresh, in_or_app. now left. }
    set (st1 := mkState (pushChild n (List.length (store st)) (store st)
                         ++ cellsAt (List.length (store st)) k)
                        byPath1 (rootNodes st)) in *.
    destruct (IH st1 n key) as (byPath2 & Hrun2 & Hmap2); auto.
    { simpl. rewrite Hmap1; [assumption|].
      intro Hin. apply Hfresh, in_or_app. now left. }
    { simpl. rewrite length_app, pushChild_length. lia. }
    { intro Hin. apply Hfresh, in_or_app. now right. }
    exists byPath2. split.
    + simpl flat_map. rewrite map_app, foldM_app, Hrun1. simpl bind.
      rewrite Hrun2. simpl.
      rewrite length_app, pushChild_length, cellsAt_length.
      rewrite pushChildren_app_l by (rewrite pushChild_length; assumption).
      now rewrite <- app_assoc.
    + intros k0 Hk0. rewrite keysBelow_cons in Hk0.
      rewrite Hmap2 by (intro; apply Hk0, in_or_app; now right).
      simpl. apply Hmap1. intro; apply Hk0, in_or_app; now left.
Qed.

(** The children of a node that has just been stored at the end of the
    store, under its key. *)
Lemma addBelow r kids :
  Forall addsTree kids ->
  forall pre byPath roots,
    linked (Elem r kids) = true ->
    exists byPath',
      foldM addNode (map ofRecord (flat_map listing kids))
        (mkState (pre ++ [mkCell (nodeOf r) []])
                 (mapSet (VStr (keyOf r)) (List.length pre) byPath) roots)
      = Ok (mkState (pre ++ cellsAt (List.length pre) (Elem r kids)) byPath' roots) /\
      forall k, ~ In k (keysOf (Elem r kids)) ->
                mapGet (VStr k) byPath' = mapGet (VStr k) byPath.
Proof.
  intros IH pre byPath roots Hlinked.
  rewrite linked_eq in Hlinked. apply andb_prop in Hlinked as [Hfresh Hkids].
  apply negb_true_iff, not_exists_key in Hfresh.
  destruct (@addKids kids IH
              (mkState (pre ++ [mkCell (nodeOf r) []])
                       (mapSet (VStr (keyOf r)) (List.length pre) byPath) roots)
              (List.length pre) (keyOf r)) as (byPath' & Hrun & Hmap); auto.
  { simpl. rewrite mapGet_mapSet, strictEq_str, String.eqb_refl. reflexivity. }
  { simpl. rewrite length_app. simpl. lia. }
  exists byPath'. split.
  - rewrite Hrun, cellsAt_eq. cbn [store rootNodes].
    rewrite length_app. cbn [List.length].
    replace (List.length pre + 1) with (S (List.length pre)) by lia.
    rewrite pushChildren_at, <- app_assoc. reflexivity.
  - intros k Hk. rewrite keysOf_eq in Hk.
    rewrite Hmap by (intro; apply Hk; now right).
    cbn [nodesByPath]. rewrite mapGet_mapSet, strictEq_str.
    destruct (String.eqb_spec (keyOf r) k) as [E|]; [|reflexivity].
    exfalso. apply Hk. now left.
Qed.

Lemma addTree e : addsTree e.
Proof.
  induction e as [r kids IH] using Element_ind'.
  intros st p Hlinked Hpp Hget Hp Hfresh. simpl rootOf in *.
  rewrite keysOf_eq in Hfresh.
  assert (Hstep : addRecord st r
                  = mkState (pushChild p (List.length (store st)) (store st)
                             ++ [mkCell (nodeOf r) []])
                            (mapSet (VStr (keyOf r)) (List.length (store st)) (nodesByPath st))
                            (rootNodes st)).
  { unfold addRecord.
    apply String.eqb_neq in Hpp. rewrite Hpp.
    rewrite mapGet_mapSet, strictEq_str.
    destruct (String.eqb_spec (keyOf r) (recParentPath r)) as [E|_].
    - exfalso. apply Hfresh. now left.
    - rewrite Hget. now rewrite pushChild_app_l. }
  destruct (@addBelow r kids IH (pushChild p (List.length (store st)) (store st))
              (nodesByPath st) (rootNodes st) Hlinked) as (byPath' & Hrun & Hmap).
  rewrite pushChild_length in Hrun.
  exists byPath'. split; [|assumption].
  simpl. rewrite addNode_ofRecord. simpl. rewrite Hstep. exact Hrun.
Qed.

(** A root and its subtree. *)
Lemma addRoot r kids st :
  recParentPath r = EmptyString ->
  linked (Elem r kids) = true ->
  exists byPath',
    foldM addNode (map ofRecord (listing (Elem r kids))) st
    = Ok (mkState (store st ++ cellsAt (List.length (store st)) (Elem r kids))
                  byPath' (rootNodes st ++ [List.length (store st)])).
Proof.
  intros Hpp Hlinked.
  assert (IH : Forall addsTree kids) by (apply Forall_forall; intros; apply addTree).
  destruct (@addBelow r kids IH (store st) (nodesByPath st)
              (rootNodes st ++ [List.length (store st)]) Hlinked) as (byPath' & Hrun & _).
  exists byPath'.
  simpl. rewrite addNode_ofRecord. simpl.
  unfold addRecord. rewrite Hpp. simpl. exact Hrun.
Qed.

Lemma addForest forest : forall st,
  documentOrder forest = true ->
  exists byPath',
    foldM addNode (map ofRecord (flat_map listing forest)) st
    = Ok (mkState (store st ++ cellsBelow (List.length (store st)) forest)
                  byPath'
                  (rootNodes st ++ offsets (List.length (store st)) forest)).
Proof.
  induction forest as [|[r kids] forest IH]; intros st Hdoc.
  - exists (nodesByPath st). simpl. rewrite !app_nil_r. now destruct st.
  - simpl in Hdoc. apply andb_prop in Hdoc as [Hroot Hdoc].
    apply andb_prop in Hroot as [Hpp Hlinked].
    apply String.eqb_eq in Hpp.
    destruct (@addRoot r kids st Hpp Hlinked) as (byPath1 & Hrun1).
    set (st1 := mkState (store st ++ cellsAt (List.length (store st)) (Elem r kids))
                        byPath1 (rootNodes st ++ [List.length (store st)])) in *.
    destruct (IH st1 Hdoc) as (byPath2 & Hrun2).
    exists byPath2.
    change (flat_map listing (Elem r kids :: forest))
      with (listing (Elem r kids) ++ flat_map listing forest).
    rewrite map_app, foldM_app, Hrun1. cbn [bind].
    rewrite Hrun2. unfold st1. cbn [store rootNodes offsets cellsBelow].
    rewrite length_app, cellsAt_length, <- !app_assoc. reflexivity.
Qed.

(** *** Reading the laid-out nodes back *)


Lemma nth_error_at {A : Type} (pre : list A) (x : A) (post : list A) :
  nth_error (pre ++ x :: post) (List.length pre) = Some x.
Proof.
  rewrite nth_error_app2 by lia. now rewrite Nat.sub_diag.
Qed.

Lemma reifyBelow kids :
  Forall reifiesAt kids ->
  forall fuel pre post,
    list_sum (map size kids) <= fuel ->
    allSome (reify fuel (pre ++ cellsBelow (List.length pre) kids ++ post))
            (offsets (List.length pre) kids)
    = Some (map treeOf kids).
Proof.
  induction 1 as [|k kids Hk _ IH]; intros fuel pre post Hfuel.
  - reflexivity.
  - cbn [map] in Hfuel.
    change (list_sum (size k :: map size kids))
      with (size k + list_sum (map size kids)) in Hfuel.
    cbn [offsets cellsBelow allSome map].
    rewrite <- app_assoc.
    rewrite Hk by lia.
    specialize (IH fuel (pre ++ cellsAt (List.length pre) k) post).
    rewrite length_app, cellsAt_length, <- app_assoc in IH.
    rewrite IH by lia. reflexivity.
Qed.

Lemma reifyAt e : reifiesAt e.
Proof.
  induction e as [r kids IH] using Element_ind'.
  intros fuel pre post Hfuel.
  destruct fuel as [|fuel]; [simpl in Hfuel; lia|].
  rewrite cellsAt_eq. cbn [reify app].
  rewrite nth_error_at. cbn [info children].
  pose proof (@reifyBelow kids IH fuel
                (pre ++ [mkCell (nodeOf r) (offsets (S (List.length pre)) kids)]) post) as Hb.
  rewrite length_app in Hb. cbn [List.length] in Hb.
  replace (List.length pre + 1) with (S (List.length pre)) in Hb by lia.
  rewrite <- app_assoc in Hb. cbn [app] in Hb.
  rewrite Hb by (simpl in Hfuel; lia).
  reflexivity.
Qed.

Lemma preorder_treeOf e : preorder (treeOf e) = map nodeOf (listing e).
Proof.
  induction e as [r kids IH] using Element_ind'.
  cbn [treeOf preorder listing map]. f_equal.
  induction IH as [|k kids Hk _ IHkids]; cbn [map flat_map].
  - reflexivity.
  - now rewrite map_app, Hk, IHkids.
Qed.

Lemma preorder_forest forest :
  flat_map preorder (map treeOf forest) = map nodeOf (flat_map listing forest).
Proof.
  induction forest as [|e forest IH]; cbn [map flat_map].
  - reflexivity.
  - now rewrite map_app, preorder_treeOf, IH.
Qed.

(** The builder gives back the forest whose listing it was given. *)
Lemma build_listing forest :
  documentOrder forest = true ->
  buildTreeFromAnatomy (sequence (flat_map listing forest)) = Ok (map treeOf forest).
Proof.
  intro Hdoc.
  destruct (@addForest forest emptyState Hdoc) as (byPath & Hrun).
  unfold buildTreeFromAnatomy, buildStore, sequence. cbn [nodesArrayOf bind].
  rewrite Hrun. cbn [bind store rootNodes emptyState app List.length].
  unfold reifyAll.
  pose proof (@reifyBelow forest) as Hb.
  specialize (Hb (proj2 (Forall_forall _ _) (fun e _ => reifyAt e))
                 (S (List.length (cellsBelow 0 forest))) [] []).
  cbn [app List.length] in Hb. rewrite app_nil_r in Hb.
  rewrite Hb; [reflexivity|].
  rewrite cellsBelow_length. lia.
Qed.
End ShapeFacts.

Module LayoutFacts.
Import Js Tree Layout.

Lemma append_assoc (a b c : string) : (a +++ b) +++ c = a +++ b +++ c.
Proof. induction a; simpl; congruence. Qed.

Lemma append_empty_r (a : string) : a +++ EmptyString = a.
Proof. induction a; simpl; congruence. Qed.

Lemma indentation_snoc ancestors b :
  indentation (ancestors ++ [b]) = indentation ancestors +++ indent b.
Proof.
  induction ancestors as [|a l IH]; simpl.
  - apply append_empty_r.
  - now rewrite IH, append_assoc.
Qed.

Lemma renderNode_eq i kids prefix isLast isRoot :
  renderNode (Node i kids) prefix isLast isRoot
  = (if isRoot
     then [rootGlyph +++ toStr (name i);
           closedIndent +++ lastConnector +++ "type: " +++ toStr (type i)]
     else [prefix +++ (if isLast then lastConnector else midConnector)
           +++ toStr (name i)
           +++ (if truthy (type i) then " (" +++ toStr (type i) +++ ")" else EmptyString)])
    ++ renderChildren
         (if isRoot then closedIndent
          else prefix +++ (if isLast then closedIndent else openIndent))
         (List.length kids) kids 0.
Proof. reflexivity. Qed.

Lemma renderChildren_cons childPrefix n child rest index :
  renderChildren childPrefix n (child :: rest) index
  = renderNode child childPrefix (Nat.eqb index (n - 1)) false
    ++ renderChildren childPrefix n rest (S index).
Proof. reflexivity. Qed.

Lemma linesOf_eq ancestors isLast i kids :
  linesOf ancestors isLast (Node i kids)
  = childLine ancestors isLast i :: siblingLines (ancestors ++ [isLast]) kids.
Proof. reflexivity. Qed.

Lemma siblingLines_cons ancestors k rest :
  siblingLines ancestors (k :: rest)
  = match rest with
    | [] => linesOf ancestors true k
    | _ :: _ => linesOf ancestors false k ++ siblingLines ancestors rest
    end.
Proof. reflexivity. Qed.


Lemma renderChildren_siblings ancestors n l :
  Forall rendersAs l ->
  forall index,
    index + List.length l = n ->
    renderChildren (indentation ancestors) n l index = siblingLines ancestors l.
Proof.
  induction 1 as [|k rest Hk _ IH]; intros index Hlen.
  - reflexivity.
  - rewrite renderChildren_cons, siblingLines_cons, Hk.
    cbn [List.length] in Hlen.
    destruct rest as [|k' rest'].
    + cbn [List.length] in Hlen.
      replace (Nat.eqb index (n - 1)) with true
        by (symmetry; apply Nat.eqb_eq; lia).
      now rewrite app_nil_r.
    + replace (Nat.eqb index (n - 1)) with false
        by (symmetry; apply Nat.eqb_neq; cbn [List.length] in Hlen; lia).
      rewrite IH by lia. reflexivity.
Qed.

Lemma renderNode_lines t : rendersAs t.
Proof.
  induction t as [i kids IH] using TreeNode_ind'.
  intros ancestors isLast.
  rewrite renderNode_eq, linesOf_eq. cbn [app].
  apply (f_equal2 cons).
  - unfold childLine. destruct isLast; reflexivity.
  - replace (indentation ancestors +++ (if isLast then closedIndent else openIndent))
      with (indentation (ancestors ++ [isLast]))
      by (rewrite indentation_snoc; destruct isLast; reflexivity).
    now apply renderChildren_siblings.
Qed.

Lemma renderRoot_lines t : renderNode t EmptyString true true = rootLines t.
Proof.
  destruct t as [i kids]. rewrite renderNode_eq. unfold rootLines. f_equal.
  change closedIndent with (indentation [true]).
  apply renderChildren_siblings; [|reflexivity].
  apply Forall_forall. intros k _. apply renderNode_lines.
Qed.

Lemma renderRoots_lines forest :
  renderRoots forest 0 = forestLines forest /\
  forall index, 0 < index ->
    renderRoots forest index
    = match forest with [] => [] | _ :: _ => EmptyString :: forestLines forest end.
Proof.
  induction forest as [|t rest [IH0 IHn]].
  - split; reflexivity.
  - split.
    + cbn [renderRoots forestLines]. rewrite renderRoot_lines.
      replace (Nat.ltb 0 0) with false by reflexivity. cbn [app].
      rewrite (IHn 1) by lia.
      destruct rest; [now rewrite app_nil_r | reflexivity].
    + intros index Hi. cbn [renderRoots forestLines].
      replace (Nat.ltb 0 index) with true by (symmetry; apply Nat.ltb_lt; lia).
      rewrite renderRoot_lines. cbn [app]. f_equal.
      rewrite (IHn (S index)) by lia.
      destruct rest; [now rewrite app_nil_r | reflexivity].
Qed.

(** C6. Every root of the forest is rendered as a header line with its name
    and an indented line with its type; every other node as one line, made
    of three columns per ancestor (blank under an ancestor that was a last
    sibling, and under the root, a bar otherwise), the connector of a last
    or of an inner sibling, the name, and the type in parentheses when it is
    there; one blank line stands between two roots. *)
Theorem renderTree_layout (forest : list TreeNode) :
  renderTree forest = Str.join newlineStr (forestLines forest).
Proof.
  unfold renderTree. now rewrite (proj1 (renderRoots_lines forest)).
Qed.
End LayoutFacts.

Module StrFacts.

Lemma startsWith_nil s : Str.startsWith s EmptyString = true.
Proof. now destruct s. Qed.

Lemma startsWith_cons a s c :
  Str.startsWith (String a s) (Str.ofChar c) = Ascii.eqb c a.
Proof. simpl. now rewrite startsWith_nil, andb_true_r. Qed.

Lemma startsWith_char s c :
  Str.startsWith s (Str.ofChar c) = true <-> exists t, s = String c t.
Proof.
  destruct s as [|a s].
  - simpl. split; [discriminate | intros [t Ht]; discriminate].
  - rewrite startsWith_cons. split.
    + intro H. apply Ascii.eqb_eq in H. subst. now exists s.
    + intros [t Ht]. injection Ht as -> _. apply Ascii.eqb_refl.
Qed.

Lemma includes_char s c :
  Str.includes s (Str.ofChar c) = true <-> In c (list_ascii_of_string s).
Proof.
  induction s as [|a s IH].
  - simpl. split; [discriminate | tauto].
  - cbn [Str.includes list_ascii_of_string In].
    rewrite startsWith_cons, orb_true_iff, IH, Ascii.eqb_eq.
    split; intros [H|H]; auto.
Qed.

Lemma endsWith_char s c :
  Str.endsWith s (Str.ofChar c) = true <-> exists t, s = t +++ Str.ofChar c.
Proof.
  induction s as [|a s IH].
  - simpl. split; [discriminate|].
    intros [[|b t] Ht]; discriminate.
  - cbn [Str.endsWith]. rewrite orb_true_iff, IH, String.eqb_eq. split.
    + intros [H|[t Ht]].
      * exists EmptyString. exact H.
      * exists (String a t). simpl. now rewrite Ht.
    + intros [[|b t] Ht].
      * left. exact Ht.
      * right. simpl in Ht. injection Ht as _ Ht. now exists t.
Qed.

Lemma append_length (a b : string) :
  String.length (a +++ b) = String.length a + String.length b.
Proof. induction a; simpl; auto. Qed.

Lemma replaceAll_length c r s :
  1 <= String.length r ->
  String.length s <= String.length (Str.replaceAll c r s).
Proof.
  intro Hr. induction s as [|a s IH]; simpl.
  - lia.
  - rewrite append_length. destruct (Ascii.eqb a c); simpl; lia.
Qed.

End StrFacts.

Module YamlFacts.
Import Js Yaml Quoting StrFacts.

Lemma reserved_needsQuotes s : reserved s = true <-> needsQuotes s.
Proof.
  unfold reserved, needsQuotes.
  rewrite !orb_true_iff.
  change ":" with (Str.ofChar ":"%char).
  change "#" with (Str.ofChar "#"%char).
  change " " with (Str.ofChar " "%char).
  change Tree.newlineStr with (Str.ofChar Str.newline).
  rewrite !includes_char, startsWith_char, endsWith_char.
  tauto.
Qed.

Lemma concat_empty_cons (x : string) (l : list string) :
  String.concat EmptyString (x :: l) = x +++ String.concat EmptyString l.
Proof.
  destruct l; simpl; [|reflexivity].
  induction x; simpl; congruence.
Qed.

Lemma replaceAll_escapeQuotes s :
  Str.replaceAll Str.dquote escapedQuote s = escapeQuotes s.
Proof.
  unfold escapeQuotes.
  induction s as [|a s IH]; cbn [Str.replaceAll list_ascii_of_string map].
  - reflexivity.
  - now rewrite concat_empty_cons, IH.
Qed.

Lemma quoted_longer s : String.length s < String.length (quoted s).
Proof.
  unfold quoted. rewrite <- replaceAll_escapeQuotes. simpl.
  rewrite append_length. simpl.
  pose proof (@replaceAll_length Str.dquote escapedQuote s). simpl in H. lia.
Qed.

(** C8. A string is written between double quotes, each of its own double
    quotes with a backslash before it, exactly when it holds a colon, a
    hash or a line break or starts or ends with a space; every other
    string is written as it is, a boolean as [true] or [false], and a
    number that is a safe integer in decimal: its digits, after a minus
    sign when it is negative, which read as a decimal numeral give the
    number back. *)
Theorem formatYAMLValue_scalar :
  (forall s, needsQuotes s <-> formatYAMLValue (VStr s) = quoted s) /\
  (forall s, ~ needsQuotes s <-> formatYAMLValue (VStr s) = s) /\
  formatYAMLValue (VBool true) = "true" /\
  formatYAMLValue (VBool false) = "false" /\
  (forall n,
      Js.safeInteger n ->
      formatYAMLValue (VNum n) = NilZero.string_of_int (Z.to_int n) /\
      option_map Z.of_int (NilZero.int_of_string (formatYAMLValue (VNum n))) = Some n).
Proof.
  assert (Hq : forall s, reserved s = true -> formatYAMLValue (VStr s) = quoted s).
  { intros s H. cbn [formatYAMLValue]. rewrite H.
    unfold quoted, dq. now rewrite replaceAll_escapeQuotes. }
  assert (Hv : forall s, reserved s = false -> formatYAMLValue (VStr s) = s).
  { intros s H. cbn [formatYAMLValue]. now rewrite H. }
  assert (Hne : forall s, quoted s <> s).
  { intros s E. pose proof (quoted_longer s) as L. rewrite E in L. lia. }
  repeat split; try reflexivity.
  - intro H. apply Hq. now apply reserved_needsQuotes.
  - intro H. apply reserved_needsQuotes.
    destruct (reserved s) eqn:E; [reflexivity|].
    rewrite (Hv s E) in H. symmetry in H. now apply Hne in H.
  - intro H. apply Hv.
    destruct (reserved s) eqn:E; [|reflexivity].
    exfalso. apply H. now apply reserved_needsQuotes.
  - intros H Hn. apply reserved_needsQuotes in Hn.
    rewrite (Hq s Hn) in H. now apply Hne in H.
  - cbn [formatYAMLValue]. unfold Str.ofZ. rewrite NilZero.isi.
    + cbn [option_map]. f_equal. apply DecimalZ.of_to.
    + destruct n; cbn; try discriminate.
      intro E. injection E as E. now apply DecimalPos.Unsigned.to_uint_nonnil in E.
    + destruct n; cbn; try discriminate.
      intro E. injection E as E. now apply DecimalPos.Unsigned.to_uint_nonnil in E.
Qed.

(** The number 42 is written with its two digits, and -7 with its sign. *)
Lemma formatYAMLValue_scalar_witness :
  Js.safeInteger 42 /\ Js.safeInteger (-7) /\
  formatYAMLValue (VNum 42) = "42" /\
  formatYAMLValue (VNum (-7)) = "-7" /\
  option_map Z.of_int (NilZero.int_of_string (formatYAMLValue (VNum (-7)))) = Some (-7)%Z.
Proof.
  assert (H42 : Js.safeInteger 42) by (unfold Js.safeInteger; simpl; lia).
  assert (H7 : Js.safeInteger (-7)) by (unfold Js.safeInteger; simpl; lia).
  split; [exact H42|]. split; [exact H7|].
  pose proof (proj2 (proj2 (proj2 (proj2 formatYAMLValue_scalar)))) as Hnum.
  split; [exact (proj1 (Hnum 42%Z H42))|].
  split; [exact (proj1 (Hnum (-7)%Z H7)) | exact (proj2 (Hnum (-7)%Z H7))].
Defined.
End YamlFacts.

Module InputFacts.
Import Js Variants Input.

(** C9. On an input that is absent or is not an object or an array,
    [convertAnatomyToTree] returns the empty string; it does not throw. *)
Theorem convertAnatomyToTree_absent (anatomyData : value) :
  objectLike anatomyData = false ->
  convertAnatomyToTree anatomyData = Ok EmptyString.
Proof.
  destruct anatomyData as [| |b|n|s|items|fields]; simpl; try discriminate; intros _.
  - reflexivity.
  - reflexivity.
  - unfold convertAnatomyToTree. simpl. now rewrite orb_true_r.
  - unfold convertAnatomyToTree. simpl. now rewrite orb_true_r.
  - unfold convertAnatomyToTree. simpl. now rewrite orb_true_r.
Qed.

(** [null] is answered with the empty string. *)
Lemma convertAnatomyToTree_absent_witness :
  objectLike VNull = false /\ convertAnatomyToTree VNull = Ok EmptyString.
Proof.
  split; [reflexivity | apply convertAnatomyToTree_absent; reflexivity].
Defined.

Lemma isVariantBased_iff (firstValue : value) :
  isVariantBased firstValue = true <->
  (exists items, firstValue = VArr items) \/
  (exists fields, firstValue = VObj fields /\ lacks fields "type" /\ lacks fields "path").
Proof.
  unfold isVariantBased, lacks.
  destruct firstValue as [| |b|n|s|items|fields]; simpl.
  - split; [discriminate | intros [[? H]|[? [H _]]]; discriminate].
  - split; [discriminate | intros [[? H]|[? [H _]]]; discriminate].
  - rewrite andb_false_r. split; [discriminate | intros [[? H]|[? [H _]]]; discriminate].
  - rewrite andb_false_r. split; [discriminate | intros [[? H]|[? [H _]]]; discriminate].
  - rewrite andb_false_r. split; [discriminate | intros [[? H]|[? [H _]]]; discriminate].
  - split; [intros _; left; now exists items | reflexivity].
  - unfold fieldUndefined. simpl. split.
    + intro H. apply andb_prop in H as [Ht Hp]. right. exists fields.
      split; [reflexivity|]. split.
      * destruct (orUndefined (lookup "type" fields)); simpl in Ht; congruence.
      * destruct (orUndefined (lookup "path" fields)); simpl in Hp; congruence.
    + intros [[? H]|[f [H [Ht Hp]]]]; [discriminate|].
      injection H as <-. now rewrite Ht, Hp.
Qed.

Lemma convertAnatomyToTree_branches (anatomyData firstValue : value) :
  objectLike anatomyData = true ->
  firstValueOf anatomyData = Ok firstValue ->
  convertAnatomyToTree anatomyData
  = if isVariantBased firstValue
    then variantBranch anatomyData
    else singleBranch anatomyData.
Proof.
  unfold firstValueOf, convertAnatomyToTree, variantBranch, singleBranch.
  destruct anatomyData as [| |b|n|s|items|fields]; try discriminate;
    intros _ H; cbn [truthy typeofObject negb orb keys bind] in *;
    rewrite H; cbn [bind]; destruct (isVariantBased firstValue); reflexivity.
Qed.

(** C10. Whether the input is a mapping from variant names to anatomies is
    decided by the value under its first key alone: it is one exactly when
    that value is an array, or an object on which neither [type] nor [path]
    is defined.  So a flat mapping whose first record has neither field is
    processed as a mapping of variants, not as one anatomy. *)
Theorem variant_based_by_first_value :
  (forall anatomyData firstValue,
      objectLike anatomyData = true ->
      firstValueOf anatomyData = Ok firstValue ->
      (convertAnatomyToTree anatomyData = variantBranch anatomyData /\
       ((exists items, firstValue = VArr items) \/
        (exists fields,
            firstValue = VObj fields /\ lacks fields "type" /\ lacks fields "path")))
      \/
      (convertAnatomyToTree anatomyData = singleBranch anatomyData /\
       ~ ((exists items, firstValue = VArr items) \/
          (exists fields,
              firstValue = VObj fields /\ lacks fields "type" /\ lacks fields "path"))))
  /\
  (forall nodeName record rest,
      lacks record "type" -> lacks record "path" ->
      convertAnatomyToTree (VObj ((nodeName, VObj record) :: rest))
      = variantBranch (VObj ((nodeName, VObj record) :: rest))).
Proof.
  split.
  - intros anatomyData firstValue Hobj Hfirst.
    rewrite (convertAnatomyToTree_branches _ Hobj Hfirst).
    destruct (isVariantBased firstValue) eqn:E.
    + left. split; [reflexivity|]. now apply isVariantBased_iff.
    + right. split; [reflexivity|]. intro H.
      apply isVariantBased_iff in H. congruence.
  - intros nodeName record rest Ht Hp.
    rewrite (@convertAnatomyToTree_branches _ (VObj record)); try reflexivity.
    + replace (isVariantBased (VObj record)) with true; [reflexivity|].
      symmetry. apply isVariantBased_iff. right. now exists record.
    + unfold firstValueOf. simpl. now rewrite String.eqb_refl.
Qed.

(** A flat mapping whose first record holds a name only goes down the
    branch of the variants. *)
Lemma variant_based_by_first_value_witness :
  convertAnatomyToTree
    (VObj [("Frame", VObj [("name", VStr "Frame")]);
           ("Label", VObj [("type", VStr "TEXT"); ("path", VStr "Frame > Label")])])
  = variantBranch
      (VObj [("Frame", VObj [("name", VStr "Frame")]);
             ("Label", VObj [("type", VStr "TEXT"); ("path", VStr "Frame > Label")])]).
Proof.
  apply (proj2 variant_based_by_first_value); reflexivity.
Defined.
End InputFacts.

Module EnumFacts.
Import Js Schema Enum.

Lemma quoted_literals vals : map quoted (map VStr vals) = literals vals.
Proof. unfold literals. rewrite map_map. reflexivity. Qed.

Lemma enumTypes_any (fallback : string) :
  (forall prop,
      declaresEnum prop -> noValues prop ->
      jsdocTypeString (VObj prop) = Ok fallback) ->
  enumTypes fallback.
Proof.
  intro Hfallback. split.
  - intros prop vals Hty Hvals Hne.
    unfold declaresEnum, hasValues in *.
    unfold tsTypeString, jsdocTypeString, enumValues. simpl.
    rewrite Hty, Hvals. simpl. rewrite quoted_literals. split; reflexivity.
  - intros prop Hty Hno. split; [|now apply Hfallback].
    unfold declaresEnum, noValues in *.
    unfold tsTypeString, enumValues. simpl. rewrite Hty, Hno. reflexivity.
Qed.

(** C7, as the claim has it, fails: without values the documentation block
    does not show the bare mapped type. *)
Lemma enum_jsdoc_fallback_not_bare : ~ enumTypes "string".
Proof.
  intros [_ H].
  destruct (H [("type", VStr "enum")]) as [_ Hdoc]; try reflexivity.
  discriminate Hdoc.
Qed.

(** C7, amended. An enum property with a non-empty list of values has, in
    the typed interface, the union of its values between single quotes,
    joined by [" | "], and in the documentation block the same literals
    joined by ["|"] between parentheses; without a list of values the typed
    interface has [string] and the documentation block [(string)]. *)
Theorem enum_types : enumTypes "(string)".
Proof.
  apply enumTypes_any. intros prop Hty Hno.
  unfold declaresEnum, noValues in *.
  unfold jsdocTypeString, enumValues. simpl. rewrite Hty, Hno. reflexivity.
Qed.

(** The sizes sm, md and lg in both formats, and the fallback of the
    documentation block. *)
Lemma enum_types_witness :
  Schema.tsTypeString
    (VObj [("type", VStr "enum"); ("values", VArr (map VStr ["sm"; "md"; "lg"]))])
  = Ok "'sm' | 'md' | 'lg'" /\
  Schema.jsdocTypeString
    (VObj [("type", VStr "enum"); ("values", VArr (map VStr ["sm"; "md"; "lg"]))])
  = Ok "('sm'|'md'|'lg')" /\
  Schema.jsdocTypeString (VObj [("type", VStr "enum")]) = Ok "(string)".
Proof.
  destruct enum_types as [Hvals Hnone].
  destruct (Hvals [("type", VStr "enum"); ("values", VArr (map VStr ["sm"; "md"; "lg"]))]
                  ["sm"; "md"; "lg"]) as [Hts Hdoc];
    [reflexivity | reflexivity | discriminate |].
  destruct (Hnone [("type", VStr "enum")]) as [_ Hfb]; [reflexivity | reflexivity |].
  repeat split; assumption.
Defined.
End EnumFacts.

Module JsonFacts.
Import Js Json Shape Grouping.

Lemma app_assoc_s (a b c : string) : (a +++ b) +++ c = a +++ b +++ c.
Proof. induction a; simpl; congruence. Qed.

Lemma unescape_escape (c : ascii) (rest : string) :
  unescapeChar (escapeChar c +++ rest) = Some (c, rest).
Proof.
  destruct c as [[] [] [] [] [] [] [] []]; reflexivity.
Qed.

Lemma escapeChar_head (c : ascii) :
  exists h t, escapeChar c = String h t /\ h <> Str.dquote.
Proof.
  destruct c as [[] [] [] [] [] [] [] []];
    eexists; eexists; (split; [reflexivity | discriminate]).
Qed.

(** A quoted string can be read back from the front of a text. *)
Lemma escape_prefix (s1 s2 r1 r2 : string) :
  escape s1 +++ String Str.dquote r1 = escape s2 +++ String Str.dquote r2 ->
  s1 = s2 /\ r1 = r2.
Proof.
  revert s2. induction s1 as [|c1 s1 IH]; intros [|c2 s2] H; cbn [escape] in H.
  - simpl in H. injection H as H. auto.
  - exfalso. destruct (escapeChar_head c2) as (h & t & E & Hh).
    rewrite E in H. simpl in H. injection H as H _. congruence.
  - exfalso. destruct (escapeChar_head c1) as (h & t & E & Hh).
    rewrite E in H. simpl in H. injection H as H _. congruence.
  - rewrite !app_assoc_s in H.
    apply (f_equal unescapeChar) in H. rewrite !unescape_escape in H.
    injection H as -> H. destruct (IH _ H) as [-> ->]. auto.
Qed.

Lemma quote_prefix (s1 s2 r1 r2 : string) :
  quote s1 +++ r1 = quote s2 +++ r2 -> s1 = s2 /\ r1 = r2.
Proof.
  unfold quote. cbn [String.append]. rewrite !app_assoc_s. cbn [String.append Str.ofChar].
  intro H. injection H as H. now apply escape_prefix.
Qed.

Lemma prefix_cancel (p a b : string) : p +++ a = p +++ b -> a = b.
Proof.
  induction p as [|c p IH]; simpl; intro H; [assumption|].
  injection H as H. auto.
Qed.

Lemma fieldText_prefix (k v1 v2 r1 r2 : string) :
  fieldText k v1 r1 = fieldText k v2 r2 -> v1 = v2 /\ r1 = r2.
Proof.
  unfold fieldText. intro H.
  apply quote_prefix in H as [_ H].
  apply prefix_cancel in H.
  now apply quote_prefix in H.
Qed.

Lemma recordText_prefix (x y : ElementRecord) (r1 r2 : string) :
  recordText x r1 = recordText y r2 -> x = y /\ r1 = r2.
Proof.
  unfold recordText. intro H. apply prefix_cancel in H.
  apply fieldText_prefix in H as [Hn H]. apply prefix_cancel in H.
  apply fieldText_prefix in H as [Ht H]. apply prefix_cancel in H.
  apply fieldText_prefix in H as [Hp H]. apply prefix_cancel in H.
  apply fieldText_prefix in H as [Hpp H]. apply prefix_cancel in H.
  destruct x, y; simpl in *; subst. auto.
Qed.

Lemma recordText_head (r : ElementRecord) (rest : string) :
  exists t, recordText r rest = String "{" t.
Proof. unfold recordText. cbn [String.append]. eauto. Qed.

Lemma tailText_inj (a b : list ElementRecord) : tailText a = tailText b -> a = b.
Proof.
  revert b. induction a as [|x a IH]; intros [|y b] H; cbn [tailText] in H.
  - reflexivity.
  - discriminate.
  - discriminate.
  - apply prefix_cancel in H.
    apply recordText_prefix in H as [-> H]. f_equal. now apply IH.
Qed.

Lemma sequenceText_inj (a b : list ElementRecord) :
  sequenceText a = sequenceText b -> a = b.
Proof.
  destruct a as [|x a], b as [|y b]; cbn [sequenceText]; intro H.
  - reflexivity.
  - destruct (recordText_head y (tailText b)) as [t E]. rewrite E in H. discriminate.
  - destruct (recordText_head x (tailText a)) as [t E]. rewrite E in H. discriminate.
  - apply prefix_cancel in H. apply recordText_prefix in H as [-> H].
    f_equal. now apply tailText_inj.
Qed.

Lemma text_ofRecord (r : ElementRecord) (rest : string) :
  exists t, text (ofRecord r) = Some t /\ t +++ rest = recordText r rest.
Proof.
  eexists. split; [reflexivity|].
  unfold recordText, fieldText, Str.join. cbn [String.concat].
  now rewrite !app_assoc_s.
Qed.

Lemma itemText_ofRecord (r : ElementRecord) (rest : string) :
  itemText (ofRecord r) +++ rest = recordText r rest.
Proof.
  unfold itemText. destruct (text_ofRecord r rest) as (t & -> & E). exact E.
Qed.

Lemma join_records (x : ElementRecord) (l : list ElementRecord) :
  Str.join "," (map itemText (map ofRecord (x :: l))) +++ "]"
  = recordText x (tailText l).
Proof.
  revert x. induction l as [|y l IH]; intro x.
  - cbn [map Str.join String.concat tailText]. apply itemText_ofRecord.
  - change (Str.join "," (map itemText (map ofRecord (x :: y :: l))))
      with (itemText (ofRecord x) +++ "," +++
            Str.join "," (map itemText (map ofRecord (y :: l)))).
    rewrite !app_assoc_s, IH, itemText_ofRecord. reflexivity.
Qed.

Lemma text_sequence (l : list ElementRecord) :
  text (sequence l) = Some (sequenceText l).
Proof.
  unfold sequence. cbn [text]. fold itemText. f_equal.
  destruct l as [|x l]; [reflexivity|].
  cbn [sequenceText]. f_equal. apply join_records.
Qed.

(** Two sequences of records with the same signature are the same. *)
Lemma stringify_sequence_inj (a b : list ElementRecord) :
  stringify (sequence a) = stringify (sequence b) -> a = b.
Proof.
  unfold stringify. rewrite !text_sequence. intro H.
  injection H as H. now apply sequenceText_inj.
Qed.
End JsonFacts.

Module GroupingFacts.
Import Js Shape Flat Variants Grouping JsonFacts.

Lemma tripleEqb_eq x y : tripleEqb x y = true <-> triple x = triple y.
Proof.
  unfold tripleEqb, triple. rewrite !andb_true_iff, !String.eqb_eq.
  split; [intros [[-> ->] ->]; reflexivity | intro H; injection H; auto].
Qed.

Lemma sameShapeb_iff a b : sameShapeb a b = true <-> sameShape a b.
Proof.
  unfold sameShape. revert b.
  induction a as [|x a IH]; intros [|y b]; cbn [sameShapeb List.length].
  - split; [|reflexivity]. intros _. split; [reflexivity|].
    intros [|i] ? ? H; discriminate H.
  - split; [discriminate | intros [H _]; discriminate H].
  - split; [discriminate | intros [H _]; discriminate H].
  - rewrite andb_true_iff, tripleEqb_eq, IH. split.
    + intros [Hxy [Hlen Hnth]]. split; [now f_equal|].
      intros [|i] x' y' Hx Hy; cbn [nth_error] in *.
      * now injection Hx as <-; injection Hy as <-.
      * eauto.
    + intros [Hlen Hnth]. split; [|split].
      * apply (Hnth 0); reflexivity.
      * now injection Hlen.
      * intros i x' y' Hx Hy. apply (Hnth (S i)); assumption.
Qed.

Lemma sameShapeb_refl a : sameShapeb a a = true.
Proof.
  induction a as [|x a IH]; cbn [sameShapeb]; [reflexivity|].
  rewrite IH, andb_true_r. now apply tripleEqb_eq.
Qed.

Lemma sameShapeb_length a b : sameShapeb a b = true -> List.length a = List.length b.
Proof. intro H. now apply sameShapeb_iff in H as [H _]. Qed.

Lemma compareItems_described fa fb a b :
  Forall2 describes fa a ->
  Forall2 describes fb b ->
  List.length a = List.length b ->
  compareItems (map VObj fa) (map VObj fb) = Ok (sameShapeb a b).
Proof.
  intro Ha. revert fb b.
  induction Ha as [|f x fa a Hx _ IH]; intros fb b Hb Hlen;
    destruct Hb as [|g y fb b Hy Hb]; cbn [List.length] in Hlen; try discriminate.
  - reflexivity.
  - destruct Hx as (Hn1 & Ht1 & Hp1), Hy as (Hn2 & Ht2 & Hp2).
    cbn [map compareItems get bind].
    rewrite Hn1, Hn2, Ht1, Ht2, Hp1, Hp2. cbn [orUndefined strictEq sameShapeb].
    unfold tripleEqb.
    destruct (String.eqb (recName x) (recName y)); [|reflexivity].
    destruct (String.eqb (recType x) (recType y)); [|reflexivity].
    destruct (String.eqb (recPath x) (recPath y)); [|reflexivity].
    cbn [negb andb]. apply IH; [assumption | now injection Hlen].
Qed.

Lemma sameShapeb_false_length a b :
  List.length a <> List.length b -> sameShapeb a b = false.
Proof.
  intro H. destruct (sameShapeb a b) eqn:E; [|reflexivity].
  now apply sameShapeb_length in E.
Qed.

Lemma compareAnatomies_described fa fb a b :
  Forall2 describes fa a ->
  Forall2 describes fb b ->
  compareAnatomies (VArr (map VObj fa)) (VArr (map VObj fb)) = Ok (sameShapeb a b).
Proof.
  intros Ha Hb. unfold compareAnatomies. cbn [asArray bind].
  rewrite !length_map.
  rewrite (Forall2_length Ha), (Forall2_length Hb).
  destruct (Nat.eqb_spec (List.length a) (List.length b)) as [E|E]; cbn [negb].
  - now apply compareItems_described.
  - now rewrite sameShapeb_false_length.
Qed.

Lemma describes_records a :
  exists fa, map ofRecord a = map VObj fa /\ Forall2 describes fa a.
Proof.
  induction a as [|x a (fa & E & H)].
  - exists []. split; [reflexivity | constructor].
  - eexists (_ :: fa). split.
    + cbn [map]. rewrite E. unfold ofRecord at 1. reflexivity.
    + constructor; [|assumption]. repeat split.
Qed.

Lemma compareAnatomies_sequence a b :
  compareAnatomies (sequence a) (sequence b) = Ok (sameShapeb a b).
Proof.
  destruct (describes_records a) as (fa & Ea & Ha).
  destruct (describes_records b) as (fb & Eb & Hb).
  unfold sequence. rewrite Ea, Eb. now apply compareAnatomies_described.
Qed.

(** An anatomy given as an object is compared through the values of its
    entries, in the order of its keys. *)
Lemma asArray_object (fields : list (string * value)) :
  NoDup (map fst fields) ->
  asArray (VObj fields) = Ok (map snd fields).
Proof.
  intro Hnd. cbn [asArray keys bind].
  assert (H : forall l, incl l fields ->
              mapM (get (VObj fields)) (map fst l) = Ok (map snd l)).
  { induction l as [|[k v] l IH]; intro Hl; [reflexivity|].
    cbn [map mapM fst snd get].
    assert (Hlook : lookup k fields = Some v).
    { assert (Hin : In (k, v) fields) by (apply Hl; now left).
      clear - Hnd Hin. induction fields as [|[k' v'] fields IHf]; [contradiction|].
      cbn [map fst lookup] in *. inversion Hnd as [|? ? Hk Hnd']; subst.
      destruct Hin as [E|Hin].
      - injection E as -> ->. now rewrite String.eqb_refl.
      - destruct (String.eqb_spec k' k) as [->|_]; [|now apply IHf].
        exfalso. apply Hk. apply (in_map fst) in Hin. exact Hin. }
    rewrite Hlook. cbn [orUndefined bind].
    rewrite IH; [reflexivity|]. intros x Hx. apply Hl. now right. }
  apply H, incl_refl.
Qed.

(** The values of two flat mappings are compared by type and path: none of
    them has a name, and [undefined] is equal to [undefined]. *)
Lemma compareItems_flat (e1 : list FlatEntry) : forall e2,
  List.length e1 = List.length e2 ->
  exists same,
    compareItems (map snd (map (fun e => (entryName e,
                       VObj [("type", VStr (entryType e));
                             ("path", VStr (entryPath e))])) e1))
                 (map snd (map (fun e => (entryName e,
                       VObj [("type", VStr (entryType e));
                             ("path", VStr (entryPath e))])) e2)) = Ok same /\
    (same = true <-> map typeAndPath e1 = map typeAndPath e2).
Proof.
  induction e1 as [|x e1 IH]; intros [|y e2] Hlen; try discriminate Hlen.
  - exists true. split; [reflexivity | split; reflexivity].
  - injection Hlen as Hlen. destruct (IH e2 Hlen) as (same & Hrun & Hsame).
    cbn [map snd compareItems get lookup String.eqb Ascii.eqb Bool.eqb bind
         orUndefined strictEq negb].
    cbn [map snd] in Hrun.
    unfold typeAndPath at 1 3.
    destruct (String.eqb_spec (entryType x) (entryType y)) as [Et|Et]; cbn [negb].
    + destruct (String.eqb_spec (entryPath x) (entryPath y)) as [Ep|Ep]; cbn [negb].
      * exists same. split; [exact Hrun|]. rewrite Hsame, Et, Ep. split.
        -- intro H. now f_equal.
        -- intro H. now injection H.
      * exists false. split; [reflexivity|]. split; [discriminate|].
        intro H. injection H as _ H _. contradiction.
    + exists false. split; [reflexivity|]. split; [discriminate|].
      intro H. injection H as H _ _. contradiction.
Qed.

Lemma compareAnatomies_flat (e1 e2 : list FlatEntry) :
  NoDup (map entryName e1) ->
  NoDup (map entryName e2) ->
  exists same,
    compareAnatomies (flatMapping e1) (flatMapping e2) = Ok same /\
    (same = true <-> map typeAndPath e1 = map typeAndPath e2).
Proof.
  intros H1 H2. unfold compareAnatomies, flatMapping.
  rewrite !asArray_object by (now rewrite map_map). cbn [bind].
  rewrite !length_map.
  destruct (Nat.eqb_spec (List.length e1) (List.length e2)) as [E|E]; cbn [negb].
  - now apply compareItems_flat.
  - exists false. split; [reflexivity|]. split; [discriminate|].
    intro H. apply (f_equal (@List.length _)) in H. rewrite !length_map in H. contradiction.
Qed.

Section Scan.
Variable anatomyData : value.
Variable variantName : string.
Variable anatomy : list ElementRecord.

Let variant := (variantName, anatomy).

Lemma firstKey_snoc (members : list string) (x : string) :
  members <> [] -> firstKey (members ++ [x]) = firstKey members.
Proof. destruct members; [congruence | reflexivity]. Qed.

Lemma pushOnFound_place gs sgs :
  Forall2 (standsFor anatomyData) gs sgs ->
  exists found,
    pushOnFound anatomyData (sequence anatomy) variantName gs = Ok found /\
    match found with
    | Some gs' => Forall2 (standsFor anatomyData) gs' (place variant sgs)
    | None => Forall (fun sg => sameShapeb anatomy (fst sg) = false) sgs
    end.
Proof.
  induction 1 as [|[sig members] [first members'] gs sgs Hg Hrest IH].
  - exists None. split; [reflexivity | constructor].
  - destruct Hg as (Hm & Hne & Hsig & Hget). cbn [fst snd] in *. subst members.
    cbn [pushOnFound place]. rewrite Hget. cbn [bind].
    rewrite compareAnatomies_sequence. cbn [bind snd fst variant].
    destruct (sameShapeb anatomy first) eqn:E.
    + eexists. split; [reflexivity|].
      constructor; [|assumption].
      repeat split; cbn [fst snd]; auto.
      * intro H. now apply app_eq_nil in H as [_ H].
      * now rewrite firstKey_snoc.
    + destruct IH as (found & Hrun & Hfound). rewrite Hrun. cbn [bind].
      eexists. split; [reflexivity|].
      destruct found as [gs'|]; cbn [option_map].
      * constructor; [|assumption]. repeat split; auto.
      * constructor; assumption.
Qed.

Lemma place_unmatched sgs :
  Forall (fun sg => sameShapeb anatomy (fst sg) = false) sgs ->
  place variant sgs = sgs ++ [(anatomy, [variantName])].
Proof.
  induction 1 as [|[first members] sgs Hno _ IH]; cbn [place app].
  - reflexivity.
  - cbn [fst snd variant] in *. now rewrite Hno, IH.
Qed.

Lemma mapSet_unmatched (members : list string) gs sgs :
  Forall2 (standsFor anatomyData) gs sgs ->
  Forall (fun sg => sameShapeb anatomy (fst sg) = false) sgs ->
  mapSet (Json.stringify (sequence anatomy)) members gs
  = gs ++ [(Json.stringify (sequence anatomy), members)].
Proof.
  induction 1 as [|[sig ms] [first ms'] gs sgs Hg _ IH]; intro Hno.
  - reflexivity.
  - apply Forall_cons_iff in Hno as [Hno Hrest]. cbn [fst] in Hno.
    destruct Hg as (_ & _ & Hsig & _). cbn [fst] in Hsig.
    cbn [mapSet app].
    destruct (strictEq sig (Json.stringify (sequence anatomy))) eqn:E.
    + exfalso. apply JsFacts.strictEq_eq in E. rewrite Hsig in E.
      apply stringify_sequence_inj in E. subst first.
      now rewrite sameShapeb_refl in Hno.
    + now rewrite IH.
Qed.

Lemma addVariant_place gs sgs :
  get anatomyData variantName = Ok (sequence anatomy) ->
  Forall2 (standsFor anatomyData) gs sgs ->
  exists gs',
    addVariant anatomyData gs variantName = Ok gs' /\
    Forall2 (standsFor anatomyData) gs' (place variant sgs).
Proof.
  intros Hget Hgs. unfold addVariant. rewrite Hget. cbn [bind].
  destruct (pushOnFound_place Hgs) as (found & Hrun & Hfound).
  rewrite Hrun. cbn [bind].
  destruct found as [gs'|].
  - exists gs'. auto.
  - eexists. split; [reflexivity|].
    rewrite (mapSet_unmatched _ Hgs Hfound), (place_unmatched Hfound).
    apply Forall2_app; [assumption|].
    constructor; [|constructor].
    repeat split; cbn [fst snd firstKey]; auto. discriminate.
Qed.
End Scan.

Lemma groupVariants_partition anatomyData (l : list (string * list ElementRecord)) :
  (forall v, In v l -> get anatomyData (fst v) = Ok (sequence (snd v))) ->
  forall gs sgs,
    Forall2 (standsFor anatomyData) gs sgs ->
    exists gs',
      foldM (addVariant anatomyData) (map fst l) gs = Ok gs' /\
      Forall2 (standsFor anatomyData) gs'
        (fold_left (fun gs variant => place variant gs) l sgs).
Proof.
  induction l as [|[variantName anatomy] l IH]; intros Hget gs sgs Hgs.
  - exists gs. auto.
  - cbn [map foldM fold_left fst].
    destruct (@addVariant_place anatomyData variantName anatomy gs sgs) as (gs1 & Hrun & Hgs1);
      [apply (Hget (variantName, anatomy)); now left | assumption |].
    rewrite Hrun. cbn [bind].
    apply IH; [|assumption]. intros v Hv. apply Hget. now right.
Qed.

Lemma lookup_variant (variants : list (string * list ElementRecord)) v :
  NoDup (map fst variants) ->
  In v variants ->
  get (variantsData variants) (fst v) = Ok (sequence (snd v)).
Proof.
  unfold variantsData. cbn [get]. intros Hnd Hin. f_equal.
  induction variants as [|w variants IH]; [contradiction|].
  cbn [map lookup fst snd]. inversion Hnd as [|? ? Hw Hnd']; subst.
  destruct Hin as [->|Hin].
  - now rewrite String.eqb_refl.
  - destruct (String.eqb_spec (fst w) (fst v)) as [E|_].
    + exfalso. apply Hw. rewrite E. now apply in_map.
    + now apply IH.
Qed.

Lemma standsFor_members anatomyData gs sgs :
  Forall2 (standsFor anatomyData) gs sgs -> map snd gs = map snd sgs.
Proof.
  induction 1 as [|g sg gs sgs (H & _) _ IH]; cbn [map]; congruence.
Qed.

(** C4, as the claim has it, fails on anatomies given as objects: the same
    two entries under the other order of their keys are judged different,
    and two variants that have them are put in two groups. *)
Example object_key_order_not_tolerated :
  Permutation Examples.iconFirst Examples.labelFirst /\
  compareAnatomies (flatMapping Examples.iconFirst) (flatMapping Examples.labelFirst)
  = Ok false /\
  exists anatomyGroups,
    groupVariants (VObj [("Default", flatMapping Examples.iconFirst);
                         ("Hover", flatMapping Examples.labelFirst)])
                  ["Default"; "Hover"] = Ok anatomyGroups /\
    map snd anatomyGroups = [["Default"]; ["Hover"]].
Proof.
  split; [apply perm_swap|]. split; [reflexivity|].
  eexists. split; [vm_compute; reflexivity | reflexivity].
Qed.

(** The keys of such anatomies, the names of the elements, are not
    compared. *)
Example object_keys_not_compared :
  compareAnatomies (flatMapping [mkEntry "Icon" "VECTOR" "Icon"])
                   (flatMapping [mkEntry "Glyph" "VECTOR" "Icon"]) = Ok true.
Proof. reflexivity. Qed.

(** C4, amended. Two anatomies given as sequences are judged equal exactly
    when they are as long as each other and have the same name, type and
    path at every position, whatever else their records hold and in whatever
    order the records hold their fields.  Two anatomies given as objects are
    compared through their values in the order of their keys, by type and
    path alone: they are judged equal exactly when the types and paths of
    their entries, in that order, are the same.  The variants, in the order
    of the input, each join the first group, in the order the groups were
    opened, whose first member has an equal anatomy, or open a new group
    after them. *)
Theorem variants_grouped_by_shape :
  (forall fa fb a b,
      Forall2 describes fa a ->
      Forall2 describes fb b ->
      exists same,
        compareAnatomies (VArr (map VObj fa)) (VArr (map VObj fb)) = Ok same /\
        (same = true <-> sameShape a b)) /\
  (forall e1 e2,
      NoDup (map entryName e1) ->
      NoDup (map entryName e2) ->
      exists same,
        compareAnatomies (flatMapping e1) (flatMapping e2) = Ok same /\
        (same = true <-> map typeAndPath e1 = map typeAndPath e2)) /\
  (forall variants,
      NoDup (map fst variants) ->
      exists anatomyGroups,
        groupVariants (variantsData variants) (map fst variants) = Ok anatomyGroups /\
        map snd anatomyGroups = map snd (partition variants)).
Proof.
  split; [|split].
  - intros fa fb a b Ha Hb. exists (sameShapeb a b). split.
    + now apply compareAnatomies_described.
    + apply sameShapeb_iff.
  - intros e1 e2 H1 H2. now apply compareAnatomies_flat.
  - intros variants Hnd.
    destruct (@groupVariants_partition (variantsData variants) variants
                (fun v Hv => @lookup_variant variants v Hnd Hv) [] []) as (gs & Hrun & Hgs);
      [constructor|].
    exists gs. split; [exact Hrun|]. now apply standsFor_members in Hgs.
Qed.

(** Small and Medium differ in [parentPath] only and share a group; Large
    opens the second one. *)
Lemma variants_grouped_by_shape_witness :
  NoDup (map fst Examples.sizes) /\
  exists anatomyGroups,
    groupVariants (variantsData Examples.sizes) (map fst Examples.sizes) = Ok anatomyGroups /\
    map snd anatomyGroups = [["Small"; "Medium"]; ["Large"]].
Proof.
  assert (Hnd : NoDup (map fst Examples.sizes)).
  { repeat constructor; cbn; intuition discriminate. }
  split; [exact Hnd|].
  destruct (proj2 (proj2 variants_grouped_by_shape) Examples.sizes Hnd)
    as (gs & Hrun & Hmembers).
  exists gs. split; [exact Hrun | exact Hmembers].
Defined.
End GroupingFacts.

Module ReportFacts.
Import Js Tree Variants Input Report InputFacts.

Lemma header_headerOf members : header members = headerOf members.
Proof. destruct members as [|x [|y l]]; reflexivity. Qed.

Lemma rule_ruleLine : rule = ruleLine.
Proof. reflexivity. Qed.

Lemma renderGroups_blocks anatomyData gs : forall groupIndex,
  renderGroups anatomyData gs groupIndex
  = (blocks <- mapM (block anatomyData) (map snd gs) ;;
     Ok (if Nat.ltb 0 groupIndex then flat_map ruled blocks else withRules blocks)).
Proof.
  induction gs as [|[signature variantList] gs IH]; intro groupIndex.
  - cbn [renderGroups map mapM bind flat_map withRules]. now destruct (Nat.ltb 0 groupIndex).
  - cbn [renderGroups map mapM snd]. unfold block at 1.
    destruct (get anatomyData (firstKey variantList)) as [anatomy|]; [|reflexivity].
    cbn [bind].
    destruct (buildTreeFromAnatomy anatomy) as [rootNodes|]; [|reflexivity].
    cbn [bind]. rewrite IH.
    destruct (mapM (block anatomyData) (map snd gs)) as [blocks|]; [|reflexivity].
    cbn [bind]. rewrite header_headerOf, rule_ruleLine.
    replace (Nat.ltb 0 (S groupIndex)) with true by reflexivity.
    destruct (Nat.ltb 0 groupIndex); reflexivity.
Qed.

Lemma pushOnFound_nonempty anatomyData variantAnatomy variantName gs gs' :
  pushOnFound anatomyData variantAnatomy variantName gs = Ok (Some gs') -> gs' <> [].
Proof.
  destruct gs as [|[signature variantList] gs]; cbn [pushOnFound]; [discriminate|].
  destruct (get anatomyData (firstKey variantList)); [|discriminate]. cbn [bind].
  destruct (compareAnatomies variantAnatomy a) as [[]|]; cbn [bind]; try discriminate.
  - intro H. injection H as <-. discriminate.
  - destruct (pushOnFound _ _ _ gs) as [[found|]|]; cbn [bind option_map]; try discriminate.
    intro H. injection H as <-. discriminate.
Qed.

Lemma mapSet_nonempty (V : Type) (k : value) (v : V) (m : jsmap V) : mapSet k v m <> [].
Proof.
  destruct m as [|[k' v'] m]; cbn [mapSet]; [discriminate|].
  destruct (strictEq k' k); discriminate.
Qed.

Lemma addVariant_nonempty anatomyData gs variantName gs' :
  addVariant anatomyData gs variantName = Ok gs' -> gs' <> [].
Proof.
  unfold addVariant.
  destruct (get anatomyData variantName) as [variantAnatomy|]; [|discriminate]. cbn [bind].
  destruct (pushOnFound _ _ _ gs) as [[found|]|] eqn:E; cbn [bind]; try discriminate.
  - intro H. injection H as <-. eapply pushOnFound_nonempty; eauto.
  - intro H. injection H as <-. apply mapSet_nonempty.
Qed.

Lemma groupVariants_nonempty anatomyData variants : forall gs gs',
  foldM (addVariant anatomyData) variants gs = Ok gs' ->
  variants <> [] \/ gs <> [] ->
  gs' <> [].
Proof.
  induction variants as [|v variants IH]; intros gs gs' Hrun Hne; cbn [foldM] in Hrun.
  - injection Hrun as <-. destruct Hne as [H|H]; [congruence | assumption].
  - destruct (addVariant anatomyData gs v) as [gs1|] eqn:E; [|discriminate].
    cbn [bind] in Hrun. eapply IH; [exact Hrun|].
    right. eapply addVariant_nonempty; eauto.
Qed.

Lemma variant_based_has_key anatomyData firstValue :
  firstValueOf anatomyData = Ok firstValue ->
  isVariantBased firstValue = true ->
  exists k ks, keys anatomyData = Ok (k :: ks).
Proof.
  unfold firstValueOf. intros Hfirst Hvar.
  destruct (keys anatomyData) as [[|k ks]|] eqn:Hkeys; [|eauto|discriminate].
  exfalso. cbn [bind firstKey] in Hfirst.
  destruct anatomyData as [| |b|n|s|items|fields]; cbn [keys] in Hkeys; try discriminate.
  - injection Hfirst as <-. discriminate Hvar.
  - injection Hfirst as <-. discriminate Hvar.
  - unfold indices in Hkeys. destruct (chars s) eqn:Hs; [|discriminate].
    cbn [get] in Hfirst. rewrite Hs in Hfirst. cbn in Hfirst.
    injection Hfirst as <-. discriminate Hvar.
  - destruct items; [|discriminate]. cbn in Hfirst.
    injection Hfirst as <-. discriminate Hvar.
  - destruct fields; [|discriminate]. cbn in Hfirst.
    injection Hfirst as <-. discriminate Hvar.
Qed.

(** C5. When the variants make one group, the tree of the anatomy is
    rendered once, with no header and no rule.  When they make two groups or
    more, each group gives a header with its variants ([[Variant: X]] for
    one, [[Variants: A, B]] for several), a blank line and the tree of the
    group, and each group but the first comes after a rule of sixty
    horizontal bars. *)
Theorem groups_rendered (anatomyData firstValue : value) (anatomyGroups : groups) :
  objectLike anatomyData = true ->
  firstValueOf anatomyData = Ok firstValue ->
  isVariantBased firstValue = true ->
  groupsOf anatomyData = Ok anatomyGroups ->
  1 <= List.length anatomyGroups /\
  (List.length anatomyGroups = 1 ->
   convertAnatomyToTree anatomyData
   = (rootNodes <- buildTreeFromAnatomy firstValue ;; Ok (renderTree rootNodes))) /\
  (2 <= List.length anatomyGroups ->
   convertAnatomyToTree anatomyData
   = (blocks <- mapM (block anatomyData) (map snd anatomyGroups) ;;
      Ok (Str.join newlineStr (withRules blocks)))).
Proof.
  intros Hobj Hfirst Hvar Hgroups.
  rewrite (convertAnatomyToTree_branches _ Hobj Hfirst), Hvar.
  destruct (variant_based_has_key _ Hfirst Hvar) as (k & ks & Hkeys).
  unfold variantBranch, groupsOf, firstValueOf in *.
  rewrite Hkeys in *.
  cbn [bind] in *. rewrite Hgroups. cbn [bind]. split; [|split; intro Hlen].
  - assert (anatomyGroups <> []) as Hne
      by (eapply groupVariants_nonempty; [exact Hgroups | left; discriminate]).
    destruct anatomyGroups; [congruence | cbn; lia].
  - rewrite Hlen. cbn [Nat.eqb]. now rewrite Hfirst.
  - replace (Nat.eqb (List.length anatomyGroups) 1) with false
      by (symmetry; apply Nat.eqb_neq; lia).
    rewrite renderGroups_blocks.
    destruct (mapM (block anatomyData) (map snd anatomyGroups)); reflexivity.
Qed.

(** The three sizes make two groups, rendered with headers and a rule. *)
Lemma groups_rendered_witness :
  convertAnatomyToTree Examples.sizesData
  = (blocks <- mapM (block Examples.sizesData) (map snd Examples.sizesGroups) ;;
     Ok (Str.join newlineStr (withRules blocks))).
Proof.
  apply (proj2 (proj2 (@groups_rendered Examples.sizesData Examples.sizesFirst
                               Examples.sizesGroups eq_refl eq_refl eq_refl eq_refl))).
  cbn. lia.
Defined.
End ReportFacts.

Module ReachFacts.
Import Js Tree Reach JsFacts StoreFacts.

Lemma nth_error_pushChild p c st q :
  nth_error (pushChild p c st) q
  = if Nat.eqb q p then option_map (addChild c) (nth_error st q) else nth_error st q.
Proof.
  revert p q. induction st as [|x st IH]; intros [|p] [|q]; cbn [pushChild nth_error Nat.eqb];
    try reflexivity.
  - now destruct (Nat.eqb q p).
  - apply IH.
Qed.

Lemma concat_pushChild p c st :
  p < List.length st ->
  Permutation (concat (map children (pushChild p c st))) (c :: concat (map children st)).
Proof.
  revert p. induction st as [|x st IH]; intros p Hp; cbn [List.length] in Hp; [lia|].
  destruct p as [|p]; cbn [pushChild map concat children].
  - rewrite <- app_assoc. cbn [app]. symmetry. apply Permutation_middle.
  - rewrite IH by lia. symmetry. apply Permutation_middle.
Qed.

Lemma nth_error_snoc {A : Type} (l : list A) (x y : A) (i : nat) :
  nth_error (l ++ [x]) i = Some y ->
  nth_error l i = Some y \/ (i = List.length l /\ y = x).
Proof.
  intro H. destruct (Nat.lt_ge_cases i (List.length l)) as [Hi|Hi].
  - left. now rewrite nth_error_app1 in H.
  - right. rewrite nth_error_app2 in H by assumption.
    destruct (i - List.length l) as [|k] eqn:E; cbn [nth_error] in H.
    + split; [lia | congruence].
    + now destruct k.
Qed.

Lemma fresh_ref (st : BuildState) :
  wellLinked st ->
  ~ In (List.length (store st)) (rootNodes st ++ concat (map children (store st))).
Proof.
  intros [Hchild _ Hroots _] Hin. apply in_app_or in Hin as [Hin|Hin].
  - eapply Forall_forall in Hroots; eauto. lia.
  - apply in_concat in Hin as (l & Hl & Hin).
    apply in_map_iff in Hl as (c & <- & Hc).
    apply In_nth_error in Hc as (p & Hp).
    specialize (Hchild p c _ Hp Hin). lia.
Qed.

(** The two ways a node is added keep the references well linked. *)
Lemma addRoot_wellLinked st i key :
  wellLinked st ->
  wellLinked (mkState (store st ++ [mkCell i []])
                      (mapSet key (List.length (store st)) (nodesByPath st))
                      (rootNodes st ++ [List.length (store st)])).
Proof.
  intro Hst. pose proof (fresh_ref Hst) as Hfresh.
  destruct Hst as [Hchild Hnodup Hroots Hkeys].
  constructor; cbn [store rootNodes nodesByPath]; rewrite ?length_app; cbn [List.length].
  - intros p c x Hp Hx. apply nth_error_snoc in Hp as [Hp|[_ ->]].
    + specialize (Hchild p c x Hp Hx). lia.
    + contradiction.
  - rewrite map_app, concat_app. cbn [map concat children app]. rewrite app_nil_r.
    rewrite <- app_assoc. cbn [app].
    eapply Permutation_NoDup; [apply Permutation_middle|].
    constructor; assumption.
  - apply Forall_app. split.
    + eapply Forall_impl; [|exact Hroots]. cbn. intros; lia.
    + constructor; [lia | constructor].
  - intros k v Hk. rewrite mapGet_mapSet in Hk.
    destruct (strictEq key k).
    + injection Hk as <-. lia.
    + apply Hkeys in Hk. lia.
Qed.

Lemma addChild_wellLinked st i key parent :
  wellLinked st ->
  parent <= List.length (store st) ->
  wellLinked (mkState (pushChild parent (List.length (store st)) (store st ++ [mkCell i []]))
                      (mapSet key (List.length (store st)) (nodesByPath st))
                      (rootNodes st)).
Proof.
  intros Hst Hparent. pose proof (fresh_ref Hst) as Hfresh.
  destruct Hst as [Hchild Hnodup Hroots Hkeys].
  constructor; cbn [store rootNodes nodesByPath];
    rewrite ?pushChild_length, ?length_app; cbn [List.length].
  - intros p c x Hp Hx. rewrite nth_error_pushChild in Hp.
    destruct (Nat.eqb_spec p parent) as [->|Hne].
    + destruct (nth_error (store st ++ [mkCell i []]) parent) as [c0|] eqn:E; [|discriminate].
      injection Hp as <-. cbn [addChild children] in Hx.
      apply in_app_or in Hx as [Hx|[<-|[]]]; [|lia].
      apply nth_error_snoc in E as [E|[_ ->]]; [|contradiction].
      specialize (Hchild parent c0 x E Hx). lia.
    + apply nth_error_snoc in Hp as [Hp|[_ ->]]; [|contradiction].
      specialize (Hchild p c x Hp Hx). lia.
  - assert (Hperm : Permutation
                      (concat (map children
                                 (pushChild parent (List.length (store st))
                                    (store st ++ [mkCell i []]))))
                      (List.length (store st) :: concat (map children (store st)))).
    { rewrite concat_pushChild by (rewrite length_app; cbn [List.length]; lia).
      rewrite map_app, concat_app. cbn [map concat children app].
      now rewrite app_nil_r. }
    eapply Permutation_NoDup.
    + symmetry. etransitivity; [apply Permutation_app_head, Hperm|].
      symmetry. apply Permutation_middle.
    + constructor; assumption.
  - eapply Forall_impl; [|exact Hroots]. cbn. intros; lia.
  - intros k v Hk. rewrite mapGet_mapSet in Hk.
    destruct (strictEq key k).
    + injection Hk as <-. lia.
    + apply Hkeys in Hk. lia.
Qed.

Lemma addOrphan_wellLinked st i key :
  wellLinked st ->
  wellLinked (mkState (store st ++ [mkCell i []])
                      (mapSet key (List.length (store st)) (nodesByPath st))
                      (rootNodes st)).
Proof.
  intro Hst. destruct Hst as [Hchild Hnodup Hroots Hkeys].
  constructor; cbn [store rootNodes nodesByPath]; rewrite ?length_app; cbn [List.length].
  - intros p c x Hp Hx. apply nth_error_snoc in Hp as [Hp|[_ ->]].
    + specialize (Hchild p c x Hp Hx). lia.
    + contradiction.
  - rewrite map_app, concat_app. cbn [map concat children app].
    now rewrite !app_nil_r.
  - eapply Forall_impl; [|exact Hroots]. cbn. intros; lia.
  - intros k v Hk. rewrite mapGet_mapSet in Hk.
    destruct (strictEq key k).
    + injection Hk as <-. lia.
    + apply Hkeys in Hk. lia.
Qed.

Lemma addNode_wellLinked st nodeData st' :
  wellLinked st -> addNode st nodeData = Ok st' -> wellLinked st'.
Proof.
  intros Hst Hadd. unfold addNode in Hadd.
  destruct (get nodeData "name") as [nm|]; [|discriminate].
  destruct (get nodeData "type") as [ty|]; [|discriminate].
  destruct (get nodeData "path") as [pa|]; [|discriminate].
  destruct (get nodeData "parentPath") as [pp|]; [|discriminate].
  cbn [bind] in Hadd.
  destruct (negb (truthy pp) || strictEq pp (VStr EmptyString)).
  - injection Hadd as <-. now apply addRoot_wellLinked.
  - destruct (mapGet pp _) as [parent|] eqn:Hget.
    + injection Hadd as <-. apply addChild_wellLinked; [assumption|].
      rewrite mapGet_mapSet in Hget. destruct (strictEq _ pp).
      * injection Hget as <-. lia.
      * apply (@keysStored st Hst) in Hget. lia.
    + injection Hadd as <-. now apply addRoot_wellLinked.
Qed.

Lemma foldM_wellLinked (items : list value) : forall st st',
  wellLinked st -> foldM addNode items st = Ok st' -> wellLinked st'.
Proof.
  induction items as [|x items IH]; intros st st' Hst Hrun; cbn [foldM] in Hrun.
  - now injection Hrun as <-.
  - destruct (addNode st x) as [st1|] eqn:E; [|discriminate].
    cbn [bind] in Hrun. eapply IH; [|exact Hrun].
    eapply addNode_wellLinked; eauto.
Qed.

Lemma emptyState_wellLinked : wellLinked emptyState.
Proof.
  constructor; cbn.
  - intros [|p] c x H; discriminate H.
  - constructor.
  - constructor.
  - discriminate.
Qed.

Lemma buildStore_wellLinked anatomy st :
  buildStore anatomy = Ok st -> wellLinked st.
Proof.
  unfold buildStore. destruct (nodesArrayOf anatomy) as [items|]; [|discriminate].
  cbn [bind]. apply foldM_wellLinked, emptyState_wellLinked.
Qed.

(** *** The walk from the roots ends *)

Lemma NoDup_app_disjoint {A : Type} (l1 l2 : list A) (x : A) :
  NoDup (l1 ++ l2) -> In x l1 -> In x l2 -> False.
Proof.
  induction l1 as [|a l1 IH]; cbn [app]; intros Hnd H1 H2; [contradiction|].
  inversion Hnd as [|? ? Ha Hnd']; subst. destruct H1 as [->|H1].
  - apply Ha, in_or_app. now right.
  - now apply IH.
Qed.

Lemma NoDup_app_r {A : Type} (l1 l2 : list A) : NoDup (l1 ++ l2) -> NoDup l2.
Proof.
  induction l1 as [|a l1 IH]; cbn [app]; intro H; [assumption|].
  inversion H; subst. auto.
Qed.

Lemma NoDup_concat_disjoint {A : Type} (ls : list (list A)) :
  NoDup (concat ls) ->
  forall i j a b y,
    nth_error ls i = Some a -> nth_error ls j = Some b -> i < j ->
    In y a -> In y b -> False.
Proof.
  induction ls as [|l ls IH]; intros Hnd i j a b y Hi Hj Hij Ha Hb.
  - destruct i; discriminate Hi.
  - cbn [concat] in Hnd. destruct j as [|j]; [lia|]. cbn [nth_error] in Hj.
    destruct i as [|i]; cbn [nth_error] in Hi.
    + injection Hi as <-. eapply NoDup_app_disjoint; [exact Hnd | exact Ha |].
      apply in_concat. exists b. split; [|assumption].
      eapply nth_error_In; eauto.
    + eapply (IH (NoDup_app_r _ _ Hnd) i j); eauto. lia.
Qed.

Lemma child_not_ownChild (st : BuildState) p c x :
  wellLinked st ->
  nth_error (store st) p = Some c -> In x (children c) -> x <> p ->
  ~ ownChild (store st) x.
Proof.
  intros Hst Hp Hx Hne (c' & Hc' & Hown).
  pose proof (NoDup_app_r _ _ (onOneList Hst)) as Hnd.
  assert (Hp' : nth_error (map children (store st)) p = Some (children c))
    by (rewrite nth_error_map, Hp; reflexivity).
  assert (Hx' : nth_error (map children (store st)) x = Some (children c'))
    by (rewrite nth_error_map, Hc'; reflexivity).
  destruct (Nat.lt_total p x) as [Hlt|[Heq|Hgt]]; [|congruence|].
  - eapply (@NoDup_concat_disjoint _ _ Hnd p x); eauto.
  - eapply (@NoDup_concat_disjoint _ _ Hnd x p); eauto.
Qed.

Lemma root_not_ownChild (st : BuildState) r :
  wellLinked st -> In r (rootNodes st) -> ~ ownChild (store st) r.
Proof.
  intros Hst Hr (c & Hc & Hown).
  eapply NoDup_app_disjoint; [exact (onOneList Hst) | exact Hr |].
  apply in_concat. exists (children c). split; [|assumption].
  apply in_map. eapply nth_error_In; eauto.
Qed.

Lemma allSome_total {A B : Type} (f : A -> option B) (l : list A) :
  (forall a, In a l -> exists b, f a = Some b) -> exists bs, allSome f l = Some bs.
Proof.
  induction l as [|a l IH]; intro H; cbn [allSome].
  - now exists [].
  - destruct (H a) as [b ->]; [now left|].
    destruct IH as [bs ->]; [intros; apply H; now right|].
    now exists (b :: bs).
Qed.

Lemma reify_step fuel st i :
  reify (S fuel) st i
  = match nth_error st i with
    | None => None
    | Some c => option_map (Node (info c)) (allSome (reify fuel st) (children c))
    end.
Proof. reflexivity. Qed.

Lemma reify_total (st : BuildState) :
  wellLinked st ->
  forall fuel i,
    i < List.length (store st) ->
    List.length (store st) - i <= fuel ->
    ~ ownChild (store st) i ->
    exists t, reify (S fuel) (store st) i = Some t.
Proof.
  intro Hst. induction fuel as [|fuel IH]; intros i Hi Hfuel Hown; [lia|].
  rewrite reify_step.
  destruct (nth_error (store st) i) as [c|] eqn:Hc;
    [|apply nth_error_None in Hc; lia].
  destruct (@allSome_total _ _ (reify (S fuel) (store st)) (children c)) as [kids Hkids].
  - intros x Hx.
    destruct (@childAfterParent st Hst i c x Hc Hx) as [Hle Hlt].
    assert (Hne : x <> i) by (intros ->; apply Hown; now exists c).
    apply IH; [assumption | lia |].
    eapply child_not_ownChild; eauto.
  - rewrite Hkids. cbn [option_map]. eauto.
Qed.

(** Once the records are stored the forest can be read off the store: the
    walk of [renderTree] from the roots never comes back to a node. *)
Lemma reifyAll_total (st : BuildState) :
  wellLinked st -> exists forest, reifyAll (store st) (rootNodes st) = Some forest.
Proof.
  intro Hst. unfold reifyAll. apply allSome_total. intros r Hr.
  apply reify_total; [assumption | | lia | now apply root_not_ownChild].
  pose proof (rootsStored Hst) as H. eapply Forall_forall in H; eauto.
Qed.

Lemma buildTree_total anatomy st :
  buildStore anatomy = Ok st ->
  exists forest,
    reifyAll (store st) (rootNodes st) = Some forest /\
    buildTreeFromAnatomy anatomy = Ok forest.
Proof.
  intro Hrun. destruct (reifyAll_total (buildStore_wellLinked _ Hrun)) as [forest Hf].
  exists forest. split; [assumption|].
  unfold buildTreeFromAnatomy. rewrite Hrun. cbn [bind]. now rewrite Hf.
Qed.

(** *** Siblings stay in the order they were stored in *)

Lemma sorted_snoc (l : list nat) (n : nat) :
  inInputOrder l -> Forall (fun r => r < n) l -> inInputOrder (l ++ [n]).
Proof.
  unfold inInputOrder. induction 1 as [|a l Hl IH Ha]; intro Hn; cbn [app].
  - repeat constructor.
  - apply Forall_cons_iff in Hn as [Han Hn]. constructor; [auto|].
    apply Forall_app. split; [assumption | now constructor].
Qed.

Lemma children_stored (st : BuildState) (c : Cell) :
  wellLinked st -> In c (store st) ->
  Forall (fun r => r < List.length (store st)) (children c).
Proof.
  intros Hst Hc. apply In_nth_error in Hc as (p & Hp).
  apply Forall_forall. intros x Hx.
  now destruct (@childAfterParent st Hst p c x Hp Hx).
Qed.

Lemma pushChild_Forall (P : list nat -> Prop) p c st :
  Forall (fun x => P (children x)) st ->
  (forall x, nth_error st p = Some x -> P (children x ++ [c])) ->
  Forall (fun x => P (children x)) (pushChild p c st).
Proof.
  revert p. induction st as [|x st IH]; intros [|p] Hall Hp; cbn [pushChild].
  - constructor.
  - constructor.
  - apply Forall_cons_iff in Hall as [Hx Hall]. constructor; [|assumption].
    cbn [children]. now apply Hp.
  - apply Forall_cons_iff in Hall as [Hx Hall]. constructor; [assumption|].
    apply IH; [assumption|]. intros y Hy. now apply Hp.
Qed.

Lemma stored_inOrder (st : BuildState) (i : NodeInfo) :
  siblingsInOrder st ->
  Forall (fun c => inInputOrder (children c)) (store st ++ [mkCell i []]).
Proof.
  intros [_ Hkids]. apply Forall_app. split; [assumption|]. repeat constructor.
Qed.

Lemma rootShape_inOrder st i (byPath : jsmap nat) :
  wellLinked st -> siblingsInOrder st ->
  siblingsInOrder (mkState (store st ++ [mkCell i []]) byPath
                           (rootNodes st ++ [List.length (store st)])).
Proof.
  intros Hst Hord. split; cbn [store rootNodes].
  - apply sorted_snoc; [apply Hord | apply (rootsStored Hst)].
  - now apply stored_inOrder.
Qed.

Lemma orphanShape_inOrder st i (byPath : jsmap nat) :
  siblingsInOrder st ->
  siblingsInOrder (mkState (store st ++ [mkCell i []]) byPath (rootNodes st)).
Proof.
  intro Hord. split; cbn [store rootNodes]; [apply Hord | now apply stored_inOrder].
Qed.

Lemma childShape_inOrder st i (byPath : jsmap nat) parent :
  wellLinked st -> siblingsInOrder st ->
  siblingsInOrder (mkState (pushChild parent (List.length (store st))
                              (store st ++ [mkCell i []]))
                           byPath (rootNodes st)).
Proof.
  intros Hst Hord. split; cbn [store rootNodes]; [apply Hord|].
  apply pushChild_Forall; [now apply stored_inOrder|].
  intros x Hx. apply nth_error_In in Hx. apply in_app_or in Hx as [Hx|Hx].
  - apply sorted_snoc.
    + destruct Hord as [_ Hkids]. eapply Forall_forall in Hkids; eauto.
    + now apply children_stored.
  - destruct Hx as [<-|[]]. cbn. repeat constructor.
Qed.

Lemma addNode_inOrder st nodeData st' :
  wellLinked st -> siblingsInOrder st ->
  addNode st nodeData = Ok st' -> siblingsInOrder st'.
Proof.
  intros Hst Hord Hadd. unfold addNode in Hadd.
  destruct (get nodeData "name") as [nm|]; [|discriminate].
  destruct (get nodeData "type") as [ty|]; [|discriminate].
  destruct (get nodeData "path") as [pa|]; [|discriminate].
  destruct (get nodeData "parentPath") as [pp|]; [|discriminate].
  cbn [bind] in Hadd.
  destruct (negb (truthy pp) || strictEq pp (VStr EmptyString)).
  - injection Hadd as <-. now apply rootShape_inOrder.
  - destruct (mapGet pp _) as [parent|].
    + injection Hadd as <-. now apply childShape_inOrder.
    + injection Hadd as <-. now apply rootShape_inOrder.
Qed.

Lemma foldM_inOrder (items : list value) : forall st st',
  wellLinked st -> siblingsInOrder st ->
  foldM addNode items st = Ok st' -> siblingsInOrder st'.
Proof.
  induction items as [|x items IH]; intros st st' Hst Hord Hrun; cbn [foldM] in Hrun.
  - now injection Hrun as <-.
  - destruct (addNode st x) as [st1|] eqn:E; [|discriminate].
    cbn [bind] in Hrun. eapply IH; [| |exact Hrun].
    + eapply addNode_wellLinked; eauto.
    + eapply addNode_inOrder; eauto.
Qed.

(** Whatever the anatomy, the roots and the children of every node are in
    the order their records were read in. *)
Lemma buildStore_inOrder anatomy st :
  buildStore anatomy = Ok st -> siblingsInOrder st.
Proof.
  unfold buildStore. destruct (nodesArrayOf anatomy) as [items|]; [|discriminate].
  cbn [bind]. apply foldM_inOrder; [apply emptyState_wellLinked|].
  split; cbn; constructor.
Qed.
End ReachFacts.

Module FlatFacts.
Import Js Flat.

Lemma flat_get (entries : list FlatEntry) (e : FlatEntry) :
  NoDup (map entryName entries) ->
  In e entries ->
  get (flatMapping entries) (entryName e)
  = Ok (VObj [("type", VStr (entryType e)); ("path", VStr (entryPath e))]).
Proof.
  intros Hnd Hin. unfold flatMapping. cbn [get]. f_equal.
  induction entries as [|x entries IH]; [contradiction|].
  cbn [map lookup]. inversion Hnd as [|? ? Hx Hnd']; subst.
  destruct Hin as [->|Hin].
  - now rewrite String.eqb_refl.
  - destruct (String.eqb_spec (entryName x) (entryName e)) as [E|_].
    + exfalso. apply Hx. rewrite E. now apply in_map.
    + now apply IH.
Qed.

Lemma flat_keys (entries : list FlatEntry) :
  keys (flatMapping entries) = Ok (map entryName entries).
Proof. unfold flatMapping. cbn [keys]. now rewrite map_map. Qed.
End FlatFacts.

Module LegacyFacts.
Import Js Tree Reach Flat Legacy JsFacts StoreFacts ReachFacts FlatFacts.

Section Comparator.
Variable localeCompare : string -> string -> Z.
Variable segments : list string.
Hypothesis Hconsistent : consistentOn localeCompare segments.

Let cmp := compareSegments localeCompare.

Lemma compareSegments_cons x a y b :
  cmp (x :: a) (y :: b) = if String.eqb x y then cmp a b else localeCompare x y.
Proof. reflexivity. Qed.

(** One of two paths does not come after the other. *)
Lemma compareSegments_total a : forall b,
  incl a segments -> incl b segments ->
  (0 < cmp a b)%Z -> (cmp b a <= 0)%Z.
Proof.
  destruct Hconsistent as (_ & _ & Hanti & _).
  induction a as [|x a IH]; intros [|y b] Ha Hb H; try (cbn in *; lia).
  apply incl_cons_inv in Ha, Hb. destruct Ha as [Hx Ha], Hb as [Hy Hb].
  rewrite compareSegments_cons in *. rewrite (String.eqb_sym y x).
  destruct (String.eqb x y).
  - now apply IH.
  - apply Hanti in H; [lia | assumption | assumption].
Qed.

Lemma compareSegments_trans a : forall b c,
  incl a segments -> incl b segments -> incl c segments ->
  (cmp a b <= 0)%Z -> (cmp b c <= 0)%Z -> (cmp a c <= 0)%Z.
Proof.
  destruct Hconsistent as (Hrefl & Hdistinct & Hanti & Htrans).
  induction a as [|x a IH]; intros [|y b] [|z c] Ha Hb Hc Hab Hbc; try (cbn in *; lia).
  apply incl_cons_inv in Ha, Hb, Hc.
  destruct Ha as [Hx Ha], Hb as [Hy Hb], Hc as [Hz Hc].
  rewrite compareSegments_cons in *.
  destruct (String.eqb_spec x y) as [->|Hxy].
  - destruct (String.eqb_spec y z) as [->|Hyz]; eauto.
  - pose proof (Hdistinct _ _ Hx Hy Hxy) as Hne.
    destruct (String.eqb_spec y z) as [->|Hyz].
    + destruct (String.eqb_spec x z) as [->|_]; [congruence | assumption].
    + pose proof (Hdistinct _ _ Hy Hz Hyz) as Hne'.
      assert (Hxz : (localeCompare x z < 0)%Z) by (apply (Htrans x y z); auto; lia).
      destruct (String.eqb_spec x z) as [E|_]; [exfalso | exact (Z.lt_le_incl _ _ Hxz)].
      rewrite E, Hrefl in Hxz by assumption. lia.
Qed.

Let le := ordered localeCompare.

(** The nodes the comparison is assumed on: those whose path is made of the
    segments. *)
Let inScope (x : NodeInfo) : Prop := incl (pathParts x) segments.

Lemma ordered_total x y : inScope x -> inScope y -> le x y \/ le y x.
Proof.
  intros Hx Hy. unfold le, ordered, compareNodes.
  destruct (Z.le_gt_cases (compareSegments localeCompare (pathParts x) (pathParts y)) 0)
    as [H|H]; [now left | right].
  apply compareSegments_total; assumption.
Qed.

Lemma ordered_trans x y z :
  inScope x -> inScope y -> inScope z -> le x y -> le y z -> le x z.
Proof. unfold le, ordered, compareNodes. apply compareSegments_trans. Qed.

(** *** [sort] *)

Lemma insert_perm x l : Permutation (insert localeCompare x l) (x :: l).
Proof.
  induction l as [|y l IH]; cbn [insert]; [reflexivity|].
  destruct (Z.leb _ 0); [reflexivity|].
  rewrite IH. apply perm_swap.
Qed.

Lemma sort_perm l : Permutation (sort localeCompare l) l.
Proof.
  induction l as [|x l IH]; cbn [sort]; [reflexivity|].
  rewrite insert_perm. now constructor.
Qed.

Lemma insert_sorted x l :
  inScope x -> Forall inScope l ->
  StronglySorted le l -> StronglySorted le (insert localeCompare x l).
Proof.
  intros Hx Hl Hs. induction Hs as [|y l Hs IH Hy]; cbn [insert].
  - repeat constructor.
  - inversion Hl as [|? ? Hyin Hl']; subst.
    destruct (Z.leb_spec (compareNodes localeCompare x y) 0) as [Hxy|Hxy].
    + constructor; [now constructor|].
      constructor; [exact Hxy|].
      rewrite Forall_forall in Hy, Hl'. apply Forall_forall. intros z Hz.
      apply (@ordered_trans x y z); auto.
    + constructor; [now apply IH|].
      assert (Hyx : le y x).
      { destruct (@ordered_total x y Hx Hyin) as [H|H];
          [unfold le, ordered in H; lia | exact H]. }
      eapply Permutation_Forall; [symmetry; apply insert_perm|].
      now constructor.
Qed.

Lemma sort_sorted l : Forall inScope l -> StronglySorted le (sort localeCompare l).
Proof.
  induction l as [|x l IH]; cbn [sort]; intro Hl; [constructor|].
  inversion Hl as [|? ? Hx Hl']; subst.
  apply insert_sorted; [assumption | | now apply IH].
  eapply Permutation_Forall; [symmetry; apply sort_perm | assumption].
Qed.
End Comparator.

(** *** The loop that links the sorted nodes *)

Lemma link_wellLinked st node : wellLinked st -> wellLinked (link st node).
Proof.
  intro Hst. unfold link.
  destruct (Nat.eqb (List.length (pathParts node)) 1).
  - now apply addRoot_wellLinked.
  - destruct (mapGet _ _) as [parentNode|] eqn:Hget.
    + apply addChild_wellLinked; [assumption|].
      rewrite mapGet_mapSet in Hget. destruct (strictEq _ _).
      * injection Hget as <-. lia.
      * apply (@keysStored st Hst) in Hget. lia.
    + now apply addOrphan_wellLinked.
Qed.

Lemma link_inOrder st node :
  wellLinked st -> siblingsInOrder st -> siblingsInOrder (link st node).
Proof.
  intros Hst Hord. unfold link.
  destruct (Nat.eqb (List.length (pathParts node)) 1).
  - now apply rootShape_inOrder.
  - destruct (mapGet _ _) as [parentNode|].
    + now apply childShape_inOrder.
    + now apply orphanShape_inOrder.
Qed.

Lemma pushChild_infos p c st : map info (pushChild p c st) = map info st.
Proof.
  revert p. induction st as [|x st IH]; intros [|p]; cbn [pushChild map]; auto.
  now rewrite IH.
Qed.

Lemma link_info st node : map info (store (link st node)) = map info (store st) ++ [node].
Proof.
  unfold link.
  destruct (Nat.eqb (List.length (pathParts node)) 1); cbn [store].
  - now rewrite map_app.
  - destruct (mapGet _ _); cbn [store]; rewrite ?pushChild_infos; now rewrite map_app.
Qed.

Lemma linked_all (nodes : list NodeInfo) : forall st,
  wellLinked st -> siblingsInOrder st ->
  wellLinked (fold_left link nodes st) /\
  siblingsInOrder (fold_left link nodes st) /\
  map info (store (fold_left link nodes st)) = map info (store st) ++ nodes.
Proof.
  induction nodes as [|node nodes IH]; intros st Hst Hord; cbn [fold_left].
  - now rewrite app_nil_r.
  - destruct (IH (link st node)) as (H1 & H2 & H3).
    + now apply link_wellLinked.
    + now apply link_inOrder.
    + split; [assumption|]. split; [assumption|].
      now rewrite H3, link_info, <- app_assoc.
Qed.

(** *** Siblings of the forest, from the order of the store *)

Lemma StronglySorted_nth {A : Type} (R : A -> A -> Prop) (l : list A) :
  StronglySorted R l ->
  forall i j x y,
    i < j -> nth_error l i = Some x -> nth_error l j = Some y -> R x y.
Proof.
  induction 1 as [|a l Hl IH Ha]; intros i j x y Hij Hx Hy.
  - destruct i; discriminate Hx.
  - destruct j as [|j]; [lia|]. cbn [nth_error] in Hy.
    destruct i as [|i]; cbn [nth_error] in Hx.
    + injection Hx as <-. eapply Forall_forall in Ha; [exact Ha|].
      eapply nth_error_In; eauto.
    + eapply (IH i j); eauto. lia.
Qed.

Lemma picked_sorted {A : Type} (R : A -> A -> Prop) (l : list A) (refs : list nat) :
  StronglySorted R l ->
  StronglySorted lt refs ->
  forall picked, allSome (nth_error l) refs = Some picked -> StronglySorted R picked.
Proof.
  intro Hl. induction 1 as [|r refs Hrefs IH Hr]; intros picked Hp; cbn [allSome] in Hp.
  - injection Hp as <-. constructor.
  - destruct (nth_error l r) as [x|] eqn:Hx; [|discriminate].
    destruct (allSome (nth_error l) refs) as [rest|] eqn:Hrest; [|discriminate].
    injection Hp as <-. constructor; [now apply IH|].
    clear IH Hrefs. revert rest Hrest.
    induction Hr as [|r' refs Hr' _ IHr]; intros rest Hrest; cbn [allSome] in Hrest.
    + injection Hrest as <-. constructor.
    + destruct (nth_error l r') as [y|] eqn:Hy; [|discriminate].
      destruct (allSome (nth_error l) refs) as [rest'|]; [|discriminate].
      injection Hrest as <-. constructor; [|now apply IHr].
      eapply (StronglySorted_nth Hl); eauto.
Qed.

Lemma allSome_infos fuel (st : list Cell) (refs : list nat) : forall kids,
  allSome (reify fuel st) refs = Some kids ->
  allSome (nth_error (map info st)) refs = Some (map infoOf kids).
Proof.
  induction refs as [|r refs IH]; intros kids H; cbn [allSome] in *.
  - now injection H as <-.
  - destruct (reify fuel st r) as [t|] eqn:Ht; [|discriminate].
    destruct (allSome (reify fuel st) refs) as [rest|]; [|discriminate].
    injection H as <-. rewrite (IH rest eq_refl). cbn [map].
    destruct fuel as [|fuel]; [discriminate|]. rewrite reify_step in Ht.
    rewrite nth_error_map.
    destruct (nth_error st r) as [c|]; [|discriminate].
    destruct (allSome (reify fuel st) (children c)); [|discriminate].
    now injection Ht as <-.
Qed.

Lemma allSome_each {A B : Type} (f : A -> option B) (l : list A) : forall bs,
  allSome f l = Some bs -> Forall (fun b => exists a, f a = Some b) bs.
Proof.
  induction l as [|a l IH]; intros bs H; cbn [allSome] in H.
  - injection H as <-. constructor.
  - destruct (f a) as [b|] eqn:Hb; [|discriminate].
    destruct (allSome f l) as [rest|]; [|discriminate].
    injection H as <-. constructor; eauto.
Qed.

Section Siblings.
Variable localeCompare : string -> string -> Z.

Lemma siblingsOrdered_infos (kids : list TreeNode) :
  StronglySorted (ordered localeCompare) (map infoOf kids) ->
  siblingsOrdered localeCompare kids.
Proof.
  unfold siblingsOrdered. induction kids as [|k kids IH]; cbn [map]; intro H.
  - constructor.
  - inversion H as [|? ? Hs Hf]; subst. constructor; [now apply IH|].
    rewrite Forall_map in Hf. exact Hf.
Qed.

Lemma orderedBelow_node i kids :
  orderedBelow localeCompare (Node i kids)
  <-> siblingsOrdered localeCompare kids /\ Forall (orderedBelow localeCompare) kids.
Proof.
  cbn [orderedBelow]. apply and_iff_compat_l.
  induction kids as [|k kids IH].
  - split; constructor.
  - rewrite Forall_cons_iff, IH. reflexivity.
Qed.

Lemma reify_ordered (st : list Cell) :
  StronglySorted (ordered localeCompare) (map info st) ->
  Forall (fun c => inInputOrder (children c)) st ->
  forall fuel r t, reify fuel st r = Some t -> orderedBelow localeCompare t.
Proof.
  intros Hsorted Hkids. induction fuel as [|fuel IH]; intros r t Ht; [discriminate|].
  rewrite reify_step in Ht.
  destruct (nth_error st r) as [c|] eqn:Hc; [|discriminate].
  destruct (allSome (reify fuel st) (children c)) as [kids|] eqn:Hk; [|discriminate].
  injection Ht as <-. apply orderedBelow_node. split.
  - apply siblingsOrdered_infos.
    eapply picked_sorted; [exact Hsorted | | apply (allSome_infos _ _ _ Hk)].
    eapply Forall_forall in Hkids; [exact Hkids|]. eapply nth_error_In; eauto.
  - apply allSome_each in Hk. eapply Forall_impl; [|exact Hk].
    intros kid [a Ha]. eapply IH; eauto.
Qed.

Lemma reifyAll_ordered (st : BuildState) (forest : list TreeNode) :
  StronglySorted (ordered localeCompare) (map info (store st)) ->
  siblingsInOrder st ->
  reifyAll (store st) (rootNodes st) = Some forest ->
  orderedForest localeCompare forest.
Proof.
  intros Hsorted [Hroots Hkids] Hread. unfold reifyAll in Hread. split.
  - apply siblingsOrdered_infos.
    eapply picked_sorted; [exact Hsorted | exact Hroots | apply (allSome_infos _ _ _ Hread)].
  - apply allSome_each in Hread. eapply Forall_impl; [|exact Hread].
    intros t [a Ha]. eapply reify_ordered; eauto.
Qed.
End Siblings.

(** *** The older builder on a flat mapping *)

Lemma nodeOfEntry_flat (entries : list FlatEntry) (e : FlatEntry) :
  NoDup (map entryName entries) ->
  In e entries ->
  nodeOfEntry (flatMapping entries) (entryName e) = Ok (nodeOfFlat e).
Proof.
  intros Hnd Hin. unfold nodeOfEntry, nodeOfFlat.
  rewrite (@flat_get entries e Hnd Hin). cbn [bind get lookup String.eqb Ascii.eqb Bool.eqb orUndefined].
  rewrite !ShapeFacts.or_str.
  destruct (String.eqb_spec (entryPath e) EmptyString) as [->|_]; reflexivity.
Qed.

Lemma nodes_flat (entries : list FlatEntry) :
  NoDup (map entryName entries) ->
  mapM (nodeOfEntry (flatMapping entries)) (forIn (flatMapping entries))
  = Ok (map nodeOfFlat entries).
Proof.
  intro Hnd. unfold forIn. rewrite flat_keys.
  assert (H : forall l, incl l entries ->
              mapM (nodeOfEntry (flatMapping entries)) (map entryName l)
              = Ok (map nodeOfFlat l)).
  { induction l as [|e l IH]; intro Hl; [reflexivity|].
    cbn [map mapM]. rewrite nodeOfEntry_flat by (auto; apply Hl; now left).
    cbn [bind]. rewrite IH; [reflexivity|].
    intros x Hx. apply Hl. now right. }
  apply H, incl_refl.
Qed.

(** On a flat mapping the older builder returns a forest of the sorted
    nodes, in which the roots and the children of every node are in the order
    of their paths. *)
Lemma legacy_flat (localeCompare : string -> string -> Z) (entries : list FlatEntry) :
  consistentOn localeCompare (segmentsOf entries) ->
  NoDup (map entryName entries) ->
  exists st forest,
    Legacy.buildStore localeCompare (flatMapping entries) = Ok st /\
    Permutation (map info (store st)) (map nodeOfFlat entries) /\
    StronglySorted (ordered localeCompare) (map info (store st)) /\
    reifyAll (store st) (rootNodes st) = Some forest /\
    Legacy.buildTreeFromAnatomy localeCompare (flatMapping entries) = Ok forest /\
    orderedForest localeCompare forest.
Proof.
  intros Hlc Hnd.
  set (nodes := sort localeCompare (map nodeOfFlat entries)).
  assert (Hrun : Legacy.buildStore localeCompare (flatMapping entries)
                 = Ok (fold_left link nodes emptyState)).
  { unfold Legacy.buildStore. now rewrite nodes_flat. }
  destruct (@linked_all nodes emptyState) as (Hlinked & Horder & Hinfo).
  { apply emptyState_wellLinked. }
  { split; cbn; constructor. }
  cbn [emptyState store map app] in Hinfo.
  destruct (reifyAll_total Hlinked) as [forest Hread].
  assert (Hsorted : StronglySorted (ordered localeCompare)
                      (map info (store (fold_left link nodes emptyState)))).
  { rewrite Hinfo. apply (sort_sorted Hlc).
    apply Forall_forall. intros n Hn. apply in_map_iff in Hn.
    destruct Hn as (e & <- & He). intros x Hx.
    unfold segmentsOf. apply in_flat_map. now exists e. }
  exists (fold_left link nodes emptyState), forest.
  split; [exact Hrun|]. split; [rewrite Hinfo; apply sort_perm|].
  split; [exact Hsorted|]. split; [exact Hread|]. split.
  - unfold Legacy.buildTreeFromAnatomy. rewrite Hrun. cbn [bind]. now rewrite Hread.
  - eapply reifyAll_ordered; eauto.
Qed.

(** *** A comparison that is consistent *)

Lemma byteCompare_consistent (segments : list string) :
  consistentOn byteCompare segments.
Proof.
  unfold consistentOn, byteCompare. repeat split.
  - intros x _. pose proof (proj2 (String_as_OT.cmp_eq x x) eq_refl) as E.
    unfold String_as_OT.cmp in E. now rewrite E.
  - intros x y _ _ Hne H. destruct (String.compare x y) eqn:E; try discriminate.
    now apply String_as_OT.cmp_eq in E.
  - intros x y _ _ H. pose proof (String_as_OT.cmp_antisym y x) as Ha.
    unfold String_as_OT.cmp in Ha.
    destruct (String.compare x y); try lia. rewrite Ha. cbn. lia.
  - intros x y z _ _ _ Hxy Hyz.
    destruct (String.compare x y) eqn:E1; try lia.
    destruct (String.compare y z) eqn:E2; try lia.
    apply String_as_OT.cmp_lt in E1, E2.
    pose proof (String_as_OT.lt_trans x y z E1 E2) as Hlt.
    apply String_as_OT.cmp_lt in Hlt. unfold String_as_OT.cmp in Hlt.
    rewrite Hlt. lia.
Qed.
End LegacyFacts.

Module OrderFacts.
Import Js Tree Shape Flat Examples JsFacts MonadFacts StoreFacts ShapeFacts ReachFacts.
Import FlatFacts LegacyFacts.

Lemma pushChild_info p c st : map info (pushChild p c st) = map info st.
Proof.
  revert p. induction st as [|x st IH]; intros [|p]; cbn [pushChild map]; auto.
  now rewrite IH.
Qed.

Lemma addRecord_info st r :
  map info (store (addRecord st r)) = map info (store st) ++ [nodeOf r].
Proof.
  unfold addRecord.
  destruct (String.eqb (recParentPath r) EmptyString); cbn [store].
  - now rewrite map_app.
  - destruct (mapGet _ _); cbn [store]; rewrite ?pushChild_info; now rewrite map_app.
Qed.

Lemma addRecords_info (l : list ElementRecord) : forall st,
  exists st',
    foldM addNode (map ofRecord l) st = Ok st' /\
    map info (store st') = map info (store st) ++ map nodeOf l.
Proof.
  induction l as [|r l IH]; intro st.
  - exists st. now rewrite app_nil_r.
  - cbn [map foldM]. rewrite addNode_ofRecord. cbn [bind].
    destruct (IH (addRecord st r)) as (st' & Hrun & Hinfo).
    exists st'. split; [assumption|].
    now rewrite Hinfo, addRecord_info, <- app_assoc.
Qed.

(** On every sequence of records the builder keeps siblings in the order of
    the records. *)
Lemma sequence_siblings (input : list ElementRecord) :
  exists st, buildStore (sequence input) = Ok st /\ keepsSiblingOrder input st.
Proof.
  destruct (addRecords_info input emptyState) as (st & Hrun & Hinfo).
  assert (Hbuild : buildStore (sequence input) = Ok st) by exact Hrun.
  exists st. split; [exact Hbuild|]. split; [exact Hinfo|].
  now apply (@buildStore_inOrder (sequence input)).
Qed.

(** On every sequence of records the builder returns a forest, read off a
    store in which siblings are in the order of the records. *)
Lemma sequence_built (input : list ElementRecord) :
  exists st forest,
    buildStore (sequence input) = Ok st /\
    keepsSiblingOrder input st /\
    reifyAll (store st) (rootNodes st) = Some forest /\
    buildTreeFromAnatomy (sequence input) = Ok forest.
Proof.
  destruct (sequence_siblings input) as (st & Hrun & Horder).
  destruct (buildTree_total _ Hrun) as (forest & Hread & Hbuild).
  exists st, forest. auto.
Qed.

(** *** The explicit sequence *)


(** C1, as the claim has it, fails: a record that comes after the subtree of
    its parent has ended is rendered inside that subtree. *)
Lemma input_order_not_always_kept : ~ keepsInputOrder outOfOrder.
Proof.
  intros (forest & Hbuild & Horder).
  vm_compute in Hbuild. injection Hbuild as <-.
  vm_compute in Horder. discriminate Horder.
Qed.

(** C1, amended. On every explicit sequence the tree is built without
    sorting the records again: the roots, and the children of every node, are
    in the order of their records.  When the records list a forest in
    document order (every record after its parent and inside its parent's
    subtree, the parent named by its path), the builder gives that forest
    back, so the depth-first order of the rendered nodes is the order of the
    records. *)
Theorem input_order_kept :
  (forall input,
      exists st forest,
        buildStore (sequence input) = Ok st /\
        keepsSiblingOrder input st /\
        reifyAll (store st) (rootNodes st) = Some forest /\
        buildTreeFromAnatomy (sequence input) = Ok forest) /\
  (forall forest,
      documentOrder forest = true ->
      buildTreeFromAnatomy (sequence (flat_map listing forest)) = Ok (map treeOf forest) /\
      keepsInputOrder (flat_map listing forest)).
Proof.
  split; [exact sequence_built|].
  intros forest Hdoc. pose proof (build_listing forest Hdoc) as Hbuild.
  split; [exact Hbuild|].
  exists (map treeOf forest). split; [exact Hbuild | apply preorder_forest].
Qed.

(** The card, listed in document order, comes back as it was listed. *)
Lemma input_order_kept_witness :
  documentOrder card = true /\
  buildTreeFromAnatomy (sequence (flat_map listing card)) = Ok (map treeOf card) /\
  keepsInputOrder (flat_map listing card).
Proof.
  split; [reflexivity | apply (proj2 input_order_kept); reflexivity].
Defined.

(** *** The flat mapping *)

Lemma lookup_entry (entries : list FlatEntry) (e : FlatEntry) :
  NoDup (map entryName entries) ->
  In e entries ->
  recordOfEntry (flatMapping entries) (entryName e) = Ok (ofRecord (recordOfFlat e)).
Proof.
  intros Hnd Hin. unfold recordOfEntry.
  rewrite (@flat_get entries e Hnd Hin). reflexivity.
Qed.

Lemma nodesArrayOf_object (anatomy : value) (fields : list (string * value)) :
  anatomy = VObj fields ->
  nodesArrayOf anatomy = mapM (recordOfEntry anatomy) (map fst fields).
Proof. intros ->. reflexivity. Qed.

Lemma nodesArray_flat (entries : list FlatEntry) :
  NoDup (map entryName entries) ->
  nodesArrayOf (flatMapping entries) = Ok (map ofRecord (map recordOfFlat entries)).
Proof.
  intro Hnd.
  rewrite (nodesArrayOf_object (anatomy := flatMapping entries) eq_refl).
  rewrite map_map. cbn [fst].
  assert (H : forall l, incl l entries ->
              mapM (recordOfEntry (flatMapping entries)) (map entryName l)
              = Ok (map ofRecord (map recordOfFlat l))).
  { induction l as [|e l IH]; intro Hl; [reflexivity|].
    cbn [map mapM]. rewrite lookup_entry by (auto; apply Hl; now left).
    cbn [bind]. rewrite IH; [reflexivity|].
    intros x Hx. apply Hl. now right. }
  apply H. apply incl_refl.
Qed.


(** C2, as the claim has it, fails: the entries of a flat mapping are not
    sorted by their paths. *)
Lemma flat_mapping_not_sorted : ~ lexicographicSiblings unsorted.
Proof.
  intros (forest & Hbuild & Hroots & Hbelow).
  vm_compute in Hbuild. injection Hbuild as <-.
  vm_compute in Hbelow. discriminate Hbelow.
Qed.

(** The older builder does sort the same mapping, whatever [localeCompare]
    is on other strings: it asks it of Zed and Alpha only. *)
Example legacy_sorts_unsorted (localeCompare : string -> string -> Z) :
  (0 < localeCompare "Zed" "Alpha")%Z ->
  exists forest,
    Legacy.buildTreeFromAnatomy localeCompare (flatMapping unsorted) = Ok forest /\
    map (fun i => Js.toStr (name i)) (flat_map preorder forest) = ["Frame"; "Alpha"; "Zed"].
Proof.
  intro H. apply Z.leb_gt in H.
  unfold Legacy.buildTreeFromAnatomy, Legacy.buildStore.
  assert (E : mapM (Legacy.nodeOfEntry (flatMapping unsorted))
                   (Legacy.forIn (flatMapping unsorted))
              = Ok (map Legacy.nodeOfFlat unsorted)) by reflexivity.
  rewrite E. cbn [bind].
  assert (S : Legacy.sort localeCompare (map Legacy.nodeOfFlat unsorted)
              = map Legacy.nodeOfFlat
                  [mkEntry "Frame" "FRAME" "Frame";
                   mkEntry "Alpha" "TEXT" "Frame > Alpha";
                   mkEntry "Zed" "TEXT" "Frame > Zed"]).
  { cbn [unsorted map Legacy.sort Legacy.insert].
    change (Legacy.compareNodes localeCompare
              (Legacy.nodeOfFlat (mkEntry "Zed" "TEXT" "Frame > Zed"))
              (Legacy.nodeOfFlat (mkEntry "Alpha" "TEXT" "Frame > Alpha")))
      with (localeCompare "Zed" "Alpha").
    rewrite H. reflexivity. }
  rewrite S. eexists. split; reflexivity.
Qed.

(** C2, amended. In the converter that takes both shapes, the entries of a
    flat mapping are taken in the order of its keys, each with the path
    without its last segment as the path of its parent, and the tree is built
    from them as from an explicit sequence: nothing is sorted, and the roots
    and the children of every node are in the order of the keys.  The older
    builder sorts the nodes first, segment by segment with [localeCompare],
    a path that is the beginning of another one first; when [localeCompare]
    is, on the segments of the paths of the mapping, an order that tells
    different segments apart, the roots and the children of every node of
    its forest are in that order. *)
Theorem flat_mapping_order :
  (forall entries,
      NoDup (map entryName entries) ->
      nodesArrayOf (flatMapping entries) = Ok (map ofRecord (map recordOfFlat entries)) /\
      exists st forest,
        buildStore (flatMapping entries) = Ok st /\
        keepsSiblingOrder (map recordOfFlat entries) st /\
        reifyAll (store st) (rootNodes st) = Some forest /\
        buildTreeFromAnatomy (flatMapping entries) = Ok forest /\
        buildTreeFromAnatomy (sequence (map recordOfFlat entries)) = Ok forest) /\
  (forall localeCompare entries,
      Legacy.consistentOn localeCompare (Legacy.segmentsOf entries) ->
      NoDup (map entryName entries) ->
      exists st forest,
        Legacy.buildStore localeCompare (flatMapping entries) = Ok st /\
        Permutation (map info (store st)) (map Legacy.nodeOfFlat entries) /\
        StronglySorted (Legacy.ordered localeCompare) (map info (store st)) /\
        reifyAll (store st) (rootNodes st) = Some forest /\
        Legacy.buildTreeFromAnatomy localeCompare (flatMapping entries) = Ok forest /\
        Legacy.orderedForest localeCompare forest).
Proof.
  split.
  - intros entries Hnd. pose proof (@nodesArray_flat entries Hnd) as Harr.
    assert (Hstore : buildStore (flatMapping entries)
                     = buildStore (sequence (map recordOfFlat entries))).
    { unfold buildStore. rewrite Harr. reflexivity. }
    split; [exact Harr|].
    destruct (sequence_built (map recordOfFlat entries))
      as (st & forest & Hrun & Ho & Hread & Hb).
    exists st, forest.
    split; [now rewrite Hstore|]. split; [assumption|]. split; [assumption|].
    split; [|assumption].
    unfold buildTreeFromAnatomy in *. now rewrite Hstore.
  - intros localeCompare entries Hlc Hnd. now apply legacy_flat.
Qed.

(** The unsorted mapping is built in the order of its keys, and, by the
    older builder, in the order of its paths; its segments, Frame, Zed and
    Alpha, are compared by their bytes, which is their alphabetical order. *)
Lemma flat_mapping_order_witness :
  Legacy.consistentOn Legacy.byteCompare (Legacy.segmentsOf unsorted) /\
  NoDup (map entryName unsorted) /\
  (exists st forest,
      buildStore (flatMapping unsorted) = Ok st /\
      keepsSiblingOrder (map recordOfFlat unsorted) st /\
      reifyAll (store st) (rootNodes st) = Some forest /\
      buildTreeFromAnatomy (flatMapping unsorted) = Ok forest /\
      buildTreeFromAnatomy (sequence (map recordOfFlat unsorted)) = Ok forest) /\
  (exists st forest,
      Legacy.buildStore Legacy.byteCompare (flatMapping unsorted) = Ok st /\
      Permutation (map info (store st)) (map Legacy.nodeOfFlat unsorted) /\
      StronglySorted (Legacy.ordered Legacy.byteCompare) (map info (store st)) /\
      reifyAll (store st) (rootNodes st) = Some forest /\
      Legacy.buildTreeFromAnatomy Legacy.byteCompare (flatMapping unsorted) = Ok forest /\
      Legacy.orderedForest Legacy.byteCompare forest).
Proof.
  assert (Hnd : NoDup (map entryName unsorted)).
  { repeat constructor; cbn; intuition discriminate. }
  split; [apply byteCompare_consistent|]. split; [exact Hnd|]. split.
  - apply (proj1 flat_mapping_order unsorted Hnd).
  - apply (proj2 flat_mapping_order Legacy.byteCompare unsorted
             (byteCompare_consistent (Legacy.segmentsOf unsorted)) Hnd).
Defined.

(** *** A record that names itself as its parent *)

Lemma orphan_becomes_root st r :
  recParentPath r <> EmptyString ->
  recParentPath r <> keyOf r ->
  mapGet (VStr (recParentPath r)) (nodesByPath st) = None ->
  rootNodes (addRecord st r) = rootNodes st ++ [List.length (store st)].
Proof.
  intros Hne Hself Hnone. unfold addRecord.
  apply String.eqb_neq in Hne. rewrite Hne.
  rewrite mapGet_mapSet, strictEq_str.
  destruct (String.eqb_spec (keyOf r) (recParentPath r)) as [E|_]; [congruence|].
  now rewrite Hnone.
Qed.


(** The older builder leaves out every node whose parent is not found. *)
Example legacy_drops_orphan (localeCompare : string -> string -> Z) :
  Legacy.buildTreeFromAnatomy localeCompare
    (flatMapping [mkEntry "Label" "TEXT" "Frame > Label"]) = Ok [].
Proof. reflexivity. Qed.

(** C3. A record whose [parentPath] is not empty and is the key neither of
    an earlier record nor of the record itself becomes a root.  A record
    whose [parentPath] is its own path matches no record before it either,
    yet its node is not added to the roots: it is stored under its path
    before its parent is looked up, becomes its own child, and is left out of
    the forest and of the rendered text. *)
Theorem self_parent_dropped :
  (forall st r,
      recParentPath r <> EmptyString ->
      recParentPath r <> keyOf r ->
      mapGet (VStr (recParentPath r)) (nodesByPath st) = None ->
      exists st',
        addNode st (ofRecord r) = Ok st' /\
        rootNodes st' = rootNodes st ++ [List.length (store st)]) /\
  (exists st,
      buildStore (sequence selfParent) = Ok st /\
      rootNodes st = [] /\
      map children (store st) = [[0]]) /\
  buildTreeFromAnatomy (sequence selfParent) = Ok [] /\
  Variants.convertAnatomyToTree (sequence selfParent) = Ok EmptyString.
Proof.
  split; [|split; [|split]].
  - intros st r Hne Hself Hnone. exists (addRecord st r).
    split; [apply addNode_ofRecord | now apply orphan_becomes_root].
  - eexists. split; [reflexivity|]. split; reflexivity.
  - reflexivity.
  - reflexivity.
Qed.
End OrderFacts.

Module ObjFacts.
Import Js Obj.

Lemma hasKey_false k fields : hasKey k fields = false -> ~ In k (map fst fields).
Proof.
  unfold hasKey. intros H Hin. apply in_map_iff in Hin as ((k', v) & Hk & Hin).
  cbn in Hk. subst k'.
  assert (E : existsb (fun kv => String.eqb (fst kv) k) fields = true).
  { apply existsb_exists. exists (k, v). split; [assumption | apply String.eqb_refl]. }
  congruence.
Qed.

Lemma replaceValue_keys k v fields : map fst (replaceValue k v fields) = map fst fields.
Proof.
  induction fields as [|(k', v') rest IH]; [reflexivity|].
  cbn [replaceValue]. destruct (String.eqb k' k); cbn [map fst]; [reflexivity|].
  now rewrite IH.
Qed.

Lemma insertKey_keys k v fields x :
  In x (map fst (insertKey k v fields)) <-> x = k \/ In x (map fst fields).
Proof.
  induction fields as [|(k', v') rest IH].
  - cbn. intuition.
  - cbn [insertKey]. destruct (comesBefore k k').
    + cbn. intuition.
    + cbn [map fst In]. rewrite IH. intuition.
Qed.

Lemma insertKey_NoDup k v fields :
  NoDup (map fst fields) -> ~ In k (map fst fields) -> NoDup (map fst (insertKey k v fields)).
Proof.
  induction fields as [|(k', v') rest IH]; intros Hnd Hk.
  - cbn. constructor; [intros [] | constructor].
  - cbn [insertKey]. destruct (comesBefore k k').
    + cbn [map fst]. constructor; assumption.
    + cbn [map fst] in *. inversion Hnd as [|? ? Hk' Hrest]; subst.
      constructor.
      * rewrite insertKey_keys. intros [E|Hin]; [|contradiction].
        apply Hk. left. assumption.
      * apply IH; [assumption|]. intro Hin. apply Hk. right. assumption.
Qed.

(** A write keeps the keys of an object distinct. *)
Lemma setProp_NoDup k v fields :
  NoDup (map fst fields) -> NoDup (map fst (setProp k v fields)).
Proof.
  intro Hnd. unfold setProp.
  destruct (String.eqb k "__proto__"); [assumption|].
  destruct (hasKey k fields) eqn:E.
  - now rewrite replaceValue_keys.
  - apply insertKey_NoDup; [assumption | now apply hasKey_false].
Qed.

Lemma replaceValue_Forall (P : value -> Prop) k v fields :
  P v -> Forall (fun kv => P (snd kv)) fields ->
  Forall (fun kv => P (snd kv)) (replaceValue k v fields).
Proof.
  intros Hv. induction 1 as [|(k', v') rest Hk Hrest IH]; [constructor|].
  cbn [replaceValue]. destruct (String.eqb k' k); constructor; assumption.
Qed.

Lemma insertKey_Forall (P : value -> Prop) k v fields :
  P v -> Forall (fun kv => P (snd kv)) fields ->
  Forall (fun kv => P (snd kv)) (insertKey k v fields).
Proof.
  intros Hv. induction 1 as [|(k', v') rest Hk Hrest IH]; [repeat constructor; assumption|].
  cbn [insertKey]. destruct (comesBefore k k'); repeat constructor; assumption.
Qed.

Lemma setProp_Forall (P : value -> Prop) k v fields :
  P v -> Forall (fun kv => P (snd kv)) fields ->
  Forall (fun kv => P (snd kv)) (setProp k v fields).
Proof.
  intros Hv Hall. unfold setProp.
  destruct (String.eqb k "__proto__"); [assumption|].
  destruct (hasKey k fields).
  - now apply replaceValue_Forall.
  - now apply insertKey_Forall.
Qed.

Lemma setProp_nonempty k v fields : k <> "__proto__" -> setProp k v fields <> [].
Proof.
  intro Hk. apply String.eqb_neq in Hk. unfold setProp. rewrite Hk.
  destruct (hasKey k fields) eqn:E.
  - destruct fields as [|(k', v') rest]; [discriminate E|].
    cbn [replaceValue]. destruct (String.eqb k' k); discriminate.
  - destruct fields as [|(k', v') rest]; [discriminate|].
    cbn [insertKey]. destruct (comesBefore k k'); discriminate.
Qed.

End ObjFacts.

Module ExtractFacts.
Import Js Tree Shape Variants Input Extract Samples.
Import JsFacts MonadFacts StoreFacts ShapeFacts InputFacts StrFacts.

Lemma traverseNode_eq nodeName ty kids path parentPath anatomy :
  traverseNode (Layer nodeName ty kids) path parentPath anatomy
  = fold_left (fun acc child =>
                 traverseNode child (fullPathOf path nodeName) (fullPathOf path nodeName) acc)
              kids
              (anatomy ++ [ofRecord (mkRecord nodeName ty (fullPathOf path nodeName) parentPath)]).
Proof.
  cbn [traverseNode]. unfold ofRecord. cbn [recName recType recPath recParentPath].
  generalize (anatomy ++
    [VObj [("name", VStr nodeName); ("type", VStr ty);
           ("path", VStr (fullPathOf path nodeName)); ("parentPath", VStr parentPath)]]).
  induction kids as [|k rest IH]; intro acc; [reflexivity|].
  cbn [fold_left]. apply IH.
Qed.

(** The extractor writes the listing of the elements, parents first. *)
Lemma traverseNode_listing (n : SceneNode) :
  forall path anatomy,
    traverseNode n path path anatomy
    = anatomy ++ map ofRecord (listing (elementOf path n)).
Proof.
  induction n as [nodeName ty kids IH] using SceneNode_ind'.
  intros path anatomy. rewrite traverseNode_eq.
  cbn [elementOf listing map].
  set (fp := fullPathOf path nodeName).
  set (r := ofRecord (mkRecord nodeName ty fp path)).
  replace (anatomy ++ r :: map ofRecord (flat_map listing (map (elementOf fp) kids)))
    with ((anatomy ++ [r]) ++ map ofRecord (flat_map listing (map (elementOf fp) kids)))
    by (rewrite <- app_assoc; reflexivity).
  generalize (anatomy ++ [r]). clear r.
  induction IH as [|k rest Hk _ IHrest]; intro acc.
  - cbn. now rewrite app_nil_r.
  - cbn [fold_left map flat_map]. rewrite Hk, IHrest, map_app, app_assoc. reflexivity.
Qed.

Lemma traverseAll_listing (layers : list SceneNode) :
  forall anatomy,
    traverseAll layers anatomy
    = anatomy ++ map ofRecord (flat_map listing (map (elementOf EmptyString) layers)).
Proof.
  induction layers as [|n rest IH]; intro anatomy.
  - cbn. now rewrite app_nil_r.
  - cbn [traverseAll map flat_map].
    rewrite traverseNode_listing, IH, map_app, app_assoc. reflexivity.
Qed.

Lemma traverseAll_sequence (node : SceneNode) :
  VArr (traverseAll (layerChildren node) [])
  = sequence (flat_map listing (elementsOf node)).
Proof. unfold sequence, elementsOf. now rewrite traverseAll_listing. Qed.

Lemma ExportAnatomy_component (node : SceneNode) :
  layerType node <> "COMPONENT_SET" ->
  ExportAnatomy node = sequence (flat_map listing (elementsOf node)).
Proof.
  intro H. unfold ExportAnatomy.
  destruct (String.eqb (layerType node) "COMPONENT_SET") eqn:E.
  - apply String.eqb_eq in E. contradiction.
  - apply traverseAll_sequence.
Qed.

Lemma fullPathOf_empty path nodeName :
  fullPathOf path nodeName = EmptyString -> path = EmptyString /\ nodeName = EmptyString.
Proof.
  unfold fullPathOf. destruct (String.eqb path EmptyString) eqn:E.
  - apply String.eqb_eq in E. auto.
  - destruct path; [discriminate E | discriminate].
Qed.

Lemma fullPathOf_longer path nodeName :
  path <> EmptyString -> String.length path < String.length (fullPathOf path nodeName).
Proof.
  intro H. unfold fullPathOf.
  destruct (String.eqb path EmptyString) eqn:E; [apply String.eqb_eq in E; contradiction|].
  rewrite !append_length. cbn. lia.
Qed.

Lemma keyOf_layer nodeName ty path :
  keyOf (mkRecord nodeName ty (fullPathOf path nodeName) path) = fullPathOf path nodeName.
Proof.
  unfold keyOf. cbn [recPath recName].
  destruct (String.eqb (fullPathOf path nodeName) EmptyString) eqn:E; [|reflexivity].
  apply String.eqb_eq in E. rewrite E. now destruct (fullPathOf_empty _ _ E).
Qed.

Lemma treeOf_element (n : SceneNode) :
  forall path, treeOf (elementOf path n) = layerTree path n.
Proof.
  induction n as [nodeName ty kids IH] using SceneNode_ind'. intro path.
  cbn [elementOf treeOf layerTree]. f_equal.
  - unfold nodeOf. rewrite keyOf_layer. reflexivity.
  - rewrite map_map. induction IH as [|k rest Hk _ IHrest]; [reflexivity|].
    cbn [map]. now rewrite Hk, IHrest.
Qed.

Lemma absent_key key l :
  ~ In key l -> negb (existsb (String.eqb key) l) = true.
Proof.
  intro H. apply negb_true_iff. destruct (existsb (String.eqb key) l) eqn:E; [|reflexivity].
  apply existsb_exists in E as (x & Hx & Heq). apply String.eqb_eq in Heq. now subst x.
Qed.

(** Below a path that is not empty every key is longer than the path. *)
Lemma keys_longer (n : SceneNode) :
  forall path,
    path <> EmptyString ->
    Forall (fun k => String.length path < String.length k) (keysOf (elementOf path n)).
Proof.
  induction n as [nodeName ty kids IH] using SceneNode_ind'. intros path Hpath.
  cbn [elementOf]. rewrite keysOf_eq, keyOf_layer.
  pose proof (fullPathOf_longer nodeName Hpath) as Hlen.
  constructor; [exact Hlen|].
  set (fp := fullPathOf path nodeName) in *.
  assert (Hfp : fp <> EmptyString) by (intro E; rewrite E in Hlen; cbn in Hlen; lia).
  induction IH as [|k rest Hk _ IHrest]; [constructor|].
  cbn [map]. rewrite keysBelow_cons. apply Forall_app. split; [|exact IHrest].
  eapply Forall_impl; [|exact (Hk fp Hfp)]. cbn. intros a Ha. lia.
Qed.

Lemma linked_below (n : SceneNode) :
  forall path, path <> EmptyString -> linked (elementOf path n) = true.
Proof.
  induction n as [nodeName ty kids IH] using SceneNode_ind'. intros path Hpath.
  cbn [elementOf]. rewrite linked_eq, keyOf_layer.
  pose proof (fullPathOf_longer nodeName Hpath) as Hlen.
  set (fp := fullPathOf path nodeName) in *.
  assert (Hfp : fp <> EmptyString) by (intro E; rewrite E in Hlen; cbn in Hlen; lia).
  apply andb_true_iff. split.
  - apply absent_key. intro Hin.
    assert (Hall : Forall (fun k => String.length fp < String.length k)
                          (keysBelow (map (elementOf fp) kids))).
    { clear IH Hin. induction kids as [|k rest IHrest]; [constructor|].
      cbn [map]. rewrite keysBelow_cons. apply Forall_app. split; [|exact IHrest].
      now apply keys_longer. }
    rewrite Forall_forall in Hall. specialize (Hall _ Hin). lia.
  - apply forallb_forall. intros e He. apply in_map_iff in He as (k & <- & Hk).
    rewrite Forall_forall in IH. unfold kidOf.
    rewrite (IH _ Hk fp Hfp), andb_true_r.
    destruct k as [kn kt kk]. cbn [elementOf rootOf recParentPath].
    rewrite String.eqb_refl. cbn.
    destruct (String.eqb fp EmptyString) eqn:E; [apply String.eqb_eq in E; contradiction|].
    reflexivity.
Qed.

Lemma linked_top (n : SceneNode) :
  topNamed n = true -> linked (elementOf EmptyString n) = true.
Proof.
  destruct n as [nodeName ty kids]. unfold topNamed. cbn [layerName layerChildren].
  intro H. cbn [elementOf]. rewrite linked_eq, keyOf_layer.
  unfold fullPathOf at 1 2 3. cbn [String.eqb].
  destruct kids as [|k rest].
  - reflexivity.
  - rewrite orb_false_r in H. apply negb_true_iff in H.
    assert (Hname : nodeName <> EmptyString) by (intro E; rewrite E in H; discriminate H).
    unfold fullPathOf. cbn [String.eqb].
    apply andb_true_iff. split.
    + apply absent_key. intro Hin.
      assert (Hall : Forall (fun k => String.length nodeName < String.length k)
                            (keysBelow (map (elementOf nodeName) (k :: rest)))).
      { generalize (k :: rest). intro l. induction l as [|x l IHl]; [constructor|].
        cbn [map]. rewrite keysBelow_cons. apply Forall_app. split; [|exact IHl].
        now apply keys_longer. }
      rewrite Forall_forall in Hall. specialize (Hall _ Hin). lia.
    + apply forallb_forall. intros e He. apply in_map_iff in He as (x & <- & Hx).
      unfold kidOf. rewrite (linked_below x Hname), andb_true_r.
      destruct x as [kn kt kk]. cbn [elementOf rootOf recParentPath].
      rewrite String.eqb_refl, H. reflexivity.
Qed.

Lemma documentOrder_layers (layers : list SceneNode) :
  forallb topNamed layers = true ->
  documentOrder (map (elementOf EmptyString) layers) = true.
Proof.
  intro H. unfold documentOrder. apply forallb_forall.
  intros e He. apply in_map_iff in He as (n & <- & Hn).
  rewrite forallb_forall in H. rewrite (linked_top n (H _ Hn)), andb_true_r.
  destruct n. reflexivity.
Qed.

Lemma treeOf_elements (node : SceneNode) :
  map treeOf (elementsOf node) = layerForest node.
Proof.
  unfold elementsOf, layerForest. rewrite map_map.
  apply map_ext. intro n. apply treeOf_element.
Qed.

Lemma sequence_not_variantBased (input : list ElementRecord) :
  convertAnatomyToTree (sequence input) = singleBranch (sequence input).
Proof.
  destruct input as [|r rest].
  - reflexivity.
  - rewrite (@convertAnatomyToTree_branches _ (ofRecord r)); reflexivity.
Qed.

(** X1. The tree builder gives back the layers the extractor read: on a
    component in which every layer at the top that has children has a name,
    the forest built from the extracted anatomy is the forest of the layers,
    each node with its name, its type, its full path and the path of its
    parent, and the children in the order of the document. *)
Theorem extracted_layers_rebuilt (node : SceneNode) :
  layerType node <> "COMPONENT_SET" ->
  forallb topNamed (layerChildren node) = true ->
  buildTreeFromAnatomy (ExportAnatomy node) = Ok (layerForest node).
Proof.
  intros Hty Htop. rewrite (ExportAnatomy_component _ Hty).
  rewrite build_listing by (now apply documentOrder_layers).
  now rewrite treeOf_elements.
Qed.

(** The layers of the button come back from its extracted anatomy. *)
Lemma extracted_layers_rebuilt_witness :
  layerType button <> "COMPONENT_SET" /\
  forallb topNamed (layerChildren button) = true /\
  buildTreeFromAnatomy (ExportAnatomy button) = Ok (layerForest button).
Proof.
  split; [discriminate|]. split; [reflexivity|].
  apply (extracted_layers_rebuilt button); [discriminate | reflexivity].
Defined.

(** Under a layer at the top that has no name the paths start anew: its
    child is extracted with no parent, and is built as a root. *)
Example unnamed_layer_children_moved :
  buildTreeFromAnatomy
    (ExportAnatomy (Layer "Card" "COMPONENT"
                      [Layer EmptyString "FRAME" [Layer "Label" "TEXT" []]]))
  <> Ok (layerForest (Layer "Card" "COMPONENT"
                        [Layer EmptyString "FRAME" [Layer "Label" "TEXT" []]])).
Proof. vm_compute. discriminate. Qed.

(** X2. The tree printed from the extracted anatomy of such a component is
    the rendering of the forest of its layers: the extracted sequence is
    never taken for a mapping of variants. *)
Theorem extracted_layers_rendered (node : SceneNode) :
  layerType node <> "COMPONENT_SET" ->
  forallb topNamed (layerChildren node) = true ->
  convertAnatomyToTree (ExportAnatomy node) = Ok (renderTree (layerForest node)).
Proof.
  intros Hty Htop. rewrite (ExportAnatomy_component _ Hty).
  rewrite sequence_not_variantBased. unfold singleBranch.
  rewrite build_listing by (now apply documentOrder_layers).
  now rewrite treeOf_elements.
Qed.

Lemma extracted_layers_rendered_witness :
  layerType button <> "COMPONENT_SET" /\
  forallb topNamed (layerChildren button) = true /\
  convertAnatomyToTree (ExportAnatomy button) = Ok (renderTree (layerForest button)).
Proof.
  split; [discriminate|]. split; [reflexivity|].
  apply (extracted_layers_rendered button); [discriminate | reflexivity].
Defined.

End ExtractFacts.

Module VariantSetFacts.
Import Js Tree Shape Variants Input Grouping Extract Obj Samples.
Import JsFacts MonadFacts ShapeFacts InputFacts GroupingFacts ObjFacts ExtractFacts.

Lemma traverseAll_records (layers : list SceneNode) :
  VArr (traverseAll layers []) = sequence (recordsOf layers).
Proof. unfold sequence, recordsOf. now rewrite traverseAll_listing. Qed.

Section Uniform.
Variable layers : list SceneNode.

Lemma addVariantAnatomy_uniform acc v :
  (layerType v = "COMPONENT" ->
   layerName v <> "__proto__" /\ layerChildren v = layers) ->
  NoDup (map fst acc) ->
  Forall (fun kv => snd kv = sequence (recordsOf layers)) acc ->
  NoDup (map fst (addVariantAnatomy acc v)) /\
  Forall (fun kv => snd kv = sequence (recordsOf layers)) (addVariantAnatomy acc v) /\
  (acc <> [] \/ layerType v = "COMPONENT" -> addVariantAnatomy acc v <> []).
Proof.
  intros Hv Hnd Hall. unfold addVariantAnatomy.
  destruct (String.eqb (layerType v) "COMPONENT") eqn:E.
  - apply String.eqb_eq in E. destruct (Hv E) as [Hname Hlayers].
    split; [now apply setProp_NoDup|]. split.
    + apply (@setProp_Forall (fun x => x = sequence (recordsOf layers))); [|assumption].
      rewrite Hlayers. apply traverseAll_records.
    + intros _. now apply setProp_nonempty.
  - split; [assumption|]. split; [assumption|].
    intros [H|H]; [assumption|]. rewrite H in E. discriminate E.
Qed.

Lemma variantAnatomies_uniform (children : list SceneNode) :
  forall acc,
    Forall (fun v => layerType v = "COMPONENT" ->
                     layerName v <> "__proto__" /\ layerChildren v = layers) children ->
    NoDup (map fst acc) ->
    Forall (fun kv => snd kv = sequence (recordsOf layers)) acc ->
    NoDup (map fst (fold_left addVariantAnatomy children acc)) /\
    Forall (fun kv => snd kv = sequence (recordsOf layers))
           (fold_left addVariantAnatomy children acc) /\
    (acc <> [] \/ Exists (fun v => layerType v = "COMPONENT") children ->
     fold_left addVariantAnatomy children acc <> []).
Proof.
  induction children as [|v rest IH]; intros acc Hvs Hnd Hall.
  - cbn. split; [assumption|]. split; [assumption|].
    intros [H|H]; [assumption | inversion H].
  - inversion Hvs as [|? ? Hv Hrest]; subst.
    destruct (addVariantAnatomy_uniform v Hv Hnd Hall) as (Hnd' & Hall' & Hne').
    destruct (IH _ Hrest Hnd' Hall') as (Hnd'' & Hall'' & Hne'').
    cbn [fold_left]. split; [assumption|]. split; [assumption|].
    intros [H|H].
    + apply Hne''. left. apply Hne'. now left.
    + inversion H as [? ? Hc|? ? Hc]; subst.
      * apply Hne''. left. apply Hne'. now right.
      * apply Hne''. now right.
Qed.

(** Variants that all have the anatomy [records] make one group. *)
Lemma place_uniform (records : list ElementRecord) (ks : list string) :
  forall ms,
    fold_left (fun gs variant => place variant gs)
              (map (fun k => (k, records)) ks) [(records, ms)]
    = [(records, ms ++ ks)].
Proof.
  induction ks as [|k rest IH]; intro ms.
  - cbn. now rewrite app_nil_r.
  - cbn [map fold_left place fst snd]. rewrite sameShapeb_refl.
    rewrite IH, <- app_assoc. reflexivity.
Qed.

Lemma partition_uniform (records : list ElementRecord) k (ks : list string) :
  partition (map (fun k => (k, records)) (k :: ks)) = [(records, k :: ks)].
Proof.
  unfold partition. cbn [map fold_left place fst snd].
  apply (place_uniform records ks [k]).
Qed.

Lemma uniform_fields (records : list ElementRecord) (fields : list (string * value)) :
  Forall (fun kv => snd kv = sequence records) fields ->
  fields = map (fun v : string * list ElementRecord => (fst v, sequence (snd v)))
               (map (fun k => (k, records)) (map fst fields)).
Proof.
  induction 1 as [|(k, v) rest Hk Hrest IH]; [reflexivity|].
  cbn [map fst snd] in *. now rewrite <- IH, Hk.
Qed.

(** A mapping of variants that all have the same anatomy is rendered as the
    tree of that anatomy. *)
Lemma uniform_rendered (records : list ElementRecord) (fields : list (string * value)) :
  fields <> [] ->
  NoDup (map fst fields) ->
  Forall (fun kv => snd kv = sequence records) fields ->
  convertAnatomyToTree (VObj fields) = singleBranch (sequence records).
Proof.
  intros Hne Hnd Hall.
  pose proof (uniform_fields Hall) as Hfields.
  destruct fields as [|(k, v) rest]; [contradiction|].
  set (variants := map (fun k => (k, records)) (map fst ((k, v) :: rest))) in *.
  assert (Hkeys : map fst variants = k :: map fst rest).
  { unfold variants. rewrite map_map. cbn [fst]. now rewrite map_id. }
  assert (Hdata : VObj ((k, v) :: rest) = variantsData variants)
    by (exact (f_equal VObj Hfields)).
  cbn [map fst] in Hnd.
  assert (Hnd' : NoDup (map fst variants)) by (now rewrite Hkeys).
  assert (Hks : keys (variantsData variants) = Ok (k :: map fst rest)).
  { rewrite <- Hdata. reflexivity. }
  assert (Hfirst : get (variantsData variants) k = Ok (sequence records)).
  { apply (@lookup_variant variants (k, records) Hnd'). now left. }
  rewrite Hdata.
  rewrite (@convertAnatomyToTree_branches _ (sequence records)).
  2: reflexivity.
  2: { unfold firstValueOf. rewrite Hks. cbn [bind firstKey]. exact Hfirst. }
  cbn [sequence isVariantBased truthy isArray andb orb].
  unfold variantBranch. rewrite Hks. cbn [bind].
  destruct (@groupVariants_partition (variantsData variants) variants
              (fun x Hx => lookup_variant variants x Hnd' Hx) [] [] (Forall2_nil _))
    as (gs & Hrun & Hstand).
  rewrite Hkeys in Hrun. unfold groupVariants. rewrite Hrun. cbn [bind].
  change (fold_left (fun gs variant => place variant gs) variants [])
    with (partition variants) in Hstand.
  unfold variants in Hstand at 2.
  change (map fst ((k, v) :: rest)) with (k :: map fst rest) in Hstand.
  rewrite partition_uniform in Hstand.
  apply Forall2_length in Hstand. cbn [List.length] in Hstand. rewrite Hstand.
  cbn [Nat.eqb firstKey]. rewrite Hfirst. reflexivity.
Qed.

End Uniform.

(** X3. A set of variants that all have the same layers is shown as one
    tree: when every component among the children of a set has the layers
    [layers], none of these components is named [__proto__], and no layer
    at the top of [layers] is without a name and with children, the text
    printed from the extracted anatomy of the set is the rendering of the
    forest of these layers, with no header and no rule. *)
Theorem uniform_set_rendered (node : SceneNode) (layers : list SceneNode) :
  layerType node = "COMPONENT_SET" ->
  variantsOfSet node <> [] ->
  Forall (fun v => layerName v <> "__proto__" /\ layerChildren v = layers)
         (variantsOfSet node) ->
  forallb topNamed layers = true ->
  convertAnatomyToTree (ExportAnatomy node)
  = Ok (renderTree (map (layerTree EmptyString) layers)).
Proof.
  intros Hty Hne Hall Htop.
  assert (Hkids : layerChildren node <> []).
  { intro E. apply Hne. unfold variantsOfSet. now rewrite E. }
  unfold ExportAnatomy. rewrite Hty. cbn [String.eqb Ascii.eqb Bool.eqb andb].
  replace (Nat.ltb 0 (List.length (layerChildren node))) with true
    by (destruct (layerChildren node); [contradiction | reflexivity]).
  destruct (@variantAnatomies_uniform layers (layerChildren node) []) as (Hnd & Hsame & Hsome).
  - apply Forall_forall. intros v Hin Hv.
    rewrite Forall_forall in Hall. apply Hall.
    unfold variantsOfSet. apply filter_In. split; [assumption|]. now apply String.eqb_eq.
  - constructor.
  - constructor.
  - rewrite (@uniform_rendered (recordsOf layers)); try assumption.
    + unfold singleBranch, recordsOf.
      rewrite build_listing by (now apply documentOrder_layers).
      cbn [bind]. rewrite map_map.
      f_equal. f_equal. apply map_ext. intro n. apply treeOf_element.
    + apply Hsome. right. unfold variantsOfSet in Hne.
      destruct (filter _ _) as [|v rest] eqn:E; [contradiction|].
      assert (Hin : In v (v :: rest)) by (now left).
      rewrite <- E in Hin. apply filter_In in Hin as (Hin & Hv).
      apply Exists_exists. exists v. split; [assumption | now apply String.eqb_eq].
Qed.

(** The set of the two sizes of the button is shown as the one tree of the
    button. *)
Lemma uniform_set_rendered_witness :
  layerType buttonSet = "COMPONENT_SET" /\
  variantsOfSet buttonSet <> [] /\
  Forall (fun v => layerName v <> "__proto__" /\ layerChildren v = buttonLayers)
         (variantsOfSet buttonSet) /\
  forallb topNamed buttonLayers = true /\
  convertAnatomyToTree (ExportAnatomy buttonSet)
  = Ok (renderTree (map (layerTree EmptyString) buttonLayers)).
Proof.
  assert (Hall : Forall (fun v => layerName v <> "__proto__" /\
                                  layerChildren v = buttonLayers)
                        (variantsOfSet buttonSet)).
  { repeat constructor; discriminate. }
  split; [reflexivity|]. split; [discriminate|]. split; [exact Hall|].
  split; [reflexivity|].
  apply (@uniform_set_rendered buttonSet buttonLayers);
    [reflexivity | discriminate | exact Hall | reflexivity].
Defined.

End VariantSetFacts.

Module ConserveFacts.
Import Js Tree Shape Reach Conserve.
Import JsFacts MonadFacts StoreFacts ShapeFacts ReachFacts OrderFacts.

(** *** More fuel reads the same tree *)

Lemma allSome_ext {A B : Type} (f g : A -> option B) (l : list A) :
  (forall a, In a l -> f a = g a) -> allSome f l = allSome g l.
Proof.
  induction l as [|a l IH]; intro H; cbn [allSome]; [reflexivity|].
  rewrite (H a) by (now left). rewrite IH; [reflexivity|].
  intros; apply H; now right.
Qed.

Lemma allSome_Some {A B : Type} (f : A -> option B) (l : list A) (bs : list B) :
  allSome f l = Some bs -> Forall2 (fun a b => f a = Some b) l bs.
Proof.
  revert bs. induction l as [|a l IH]; intros bs H; cbn [allSome] in H.
  - injection H as <-. constructor.
  - destruct (f a) as [b|] eqn:E; [|discriminate].
    destruct (allSome f l) as [bs'|]; [|discriminate].
    injection H as <-. constructor; auto.
Qed.

Lemma reify_more (st : list Cell) :
  forall fuel i t, reify fuel st i = Some t -> reify (S fuel) st i = Some t.
Proof.
  induction fuel as [|fuel IH]; intros i t H; [discriminate H|].
  rewrite reify_step in *.
  destruct (nth_error st i) as [c|]; [|discriminate].
  destruct (allSome (reify fuel st) (children c)) as [ts|] eqn:E; [|discriminate].
  replace (allSome (reify (S fuel) st) (children c)) with (Some ts); [assumption|].
  symmetry. clear H. revert ts E.
  induction (children c) as [|x l IHl]; intros ts E; cbn [allSome] in *; [assumption|].
  destruct (reify fuel st x) as [tx|] eqn:Ex; [|discriminate].
  destruct (allSome (reify fuel st) l) as [tl|]; [|discriminate].
  rewrite (IH _ _ Ex), (IHl _ eq_refl). assumption.
Qed.

Lemma reify_enough (st : list Cell) fuel extra i t :
  reify fuel st i = Some t -> reify (fuel + extra) st i = Some t.
Proof.
  intro H. induction extra as [|k IH].
  - now rewrite Nat.add_0_r.
  - rewrite Nat.add_succ_r. now apply reify_more.
Qed.

Lemma not_ownChild (st : BuildState) i : forestShaped st -> ~ ownChild (store st) i.
Proof.
  intros Hst (c & Hc & Hin). pose proof (@parentFirst st Hst i c i Hc Hin). lia.
Qed.

(** With the fuel [reifyAll] gives, a child is read as it is read on its
    own. *)
Lemma reify_child (st : BuildState) x :
  wellLinked st ->
  ~ ownChild (store st) x ->
  0 < x < List.length (store st) ->
  reify (List.length (store st)) (store st) x
  = reify (S (List.length (store st))) (store st) x.
Proof.
  intros Hst Hown Hx.
  destruct (@reify_total st Hst (List.length (store st) - x) x) as [t Ht];
    [lia | lia | assumption |].
  pose proof (@reify_enough (store st) _ (x - 1) x t Ht) as H1.
  pose proof (@reify_enough (store st) _ x x t Ht) as H2.
  replace (S (List.length (store st) - x) + (x - 1)) with (List.length (store st)) in H1 by lia.
  replace (S (List.length (store st) - x) + x) with (S (List.length (store st))) in H2 by lia.
  now rewrite H1, H2.
Qed.

Lemma preorder_allSome (f : nat -> option TreeNode) (l : list nat) ts :
  allSome f l = Some ts ->
  flat_map preorder ts
  = flat_map (fun x => match f x with Some t => preorder t | None => [] end) l.
Proof.
  revert ts. induction l as [|a l IH]; intros ts H; cbn [allSome] in H.
  - now injection H as <-.
  - destruct (f a) as [b|] eqn:E; [|discriminate].
    destruct (allSome f l) as [bs|]; [|discriminate].
    injection H as <-. cbn [flat_map]. now rewrite E, (IH _ eq_refl).
Qed.

Lemma child_later (st : BuildState) k c x :
  wellLinked st -> ~ ownChild (store st) k ->
  nth_error (store st) k = Some c -> In x (children c) ->
  k < x < List.length (store st) /\ ~ ownChild (store st) x.
Proof.
  intros Hst Hown Hc Hx.
  pose proof (@childAfterParent st Hst k c x Hc Hx) as Hle.
  assert (Hne : x <> k) by (intros ->; apply Hown; now exists c).
  split; [lia|]. eapply child_not_ownChild; eauto.
Qed.

(** What is printed from a node that is not its own child: the node, then
    what is printed from each of its children. *)
Lemma nodesFrom_step (st : BuildState) k c :
  wellLinked st -> ~ ownChild (store st) k ->
  nth_error (store st) k = Some c ->
  nodesFrom (store st) k = info c :: flat_map (nodesFrom (store st)) (children c).
Proof.
  intros Hst Hown Hc. unfold nodesFrom at 1. rewrite reify_step, Hc.
  assert (Hkids : allSome (reify (List.length (store st)) (store st)) (children c)
                  = allSome (reify (S (List.length (store st))) (store st)) (children c)).
  { apply allSome_ext. intros x Hx.
    destruct (@child_later st k c x Hst Hown Hc Hx) as (Hlt & Hx').
    apply reify_child; [assumption | assumption | lia]. }
  rewrite Hkids.
  destruct (@allSome_total _ _ (reify (S (List.length (store st))) (store st)) (children c))
    as [ts Hts].
  - intros x Hx.
    destruct (@child_later st k c x Hst Hown Hc Hx) as (Hlt & Hx').
    apply reify_total; [assumption | lia | lia | assumption].
  - rewrite Hts. cbn [option_map preorder]. f_equal.
    apply (@preorder_allSome _ _ _ Hts).
Qed.

(** *** The tops of what is stored from an index on *)

Lemma filter_skip (k : nat) (l : list nat) :
  ~ In k l -> filter (Nat.leb k) l = filter (Nat.leb (S k)) l.
Proof.
  induction l as [|b l IH]; intro Hb; [reflexivity|]. cbn [filter].
  assert (b <> k) by (intros ->; apply Hb; now left).
  rewrite IH by (intro; apply Hb; now right).
  destruct (Nat.leb k b) eqn:E1, (Nat.leb (S k) b) eqn:E2; try reflexivity.
  - apply Nat.leb_le in E1. apply Nat.leb_gt in E2. lia.
  - apply Nat.leb_gt in E1. apply Nat.leb_le in E2. lia.
Qed.

Lemma filter_from (k : nat) (l : list nat) :
  NoDup l -> In k l ->
  Permutation (filter (Nat.leb k) l) (k :: filter (Nat.leb (S k)) l).
Proof.
  induction l as [|a l IH]; intros Hnd Hin; [contradiction|].
  inversion Hnd as [|? ? Ha Hl]; subst. cbn [filter].
  destruct Hin as [->|Hin].
  - rewrite Nat.leb_refl.
    replace (Nat.leb (S k) k) with false by (symmetry; apply Nat.leb_gt; lia).
    constructor. rewrite (@filter_skip k l Ha). reflexivity.
  - assert (a <> k) by (intros ->; contradiction).
    specialize (IH Hl Hin).
    destruct (Nat.leb k a) eqn:E1, (Nat.leb (S k) a) eqn:E2.
    + rewrite IH. apply perm_swap.
    + apply Nat.leb_le in E1. apply Nat.leb_gt in E2. lia.
    + apply Nat.leb_gt in E1. apply Nat.leb_le in E2. lia.
    + exact IH.
Qed.

Lemma filter_all (k : nat) (l : list nat) :
  Forall (fun x => k <= x) l -> filter (Nat.leb k) l = l.
Proof.
  induction 1 as [|a l Ha Hl IH]; [reflexivity|]. cbn [filter].
  replace (Nat.leb k a) with true by (symmetry; now apply Nat.leb_le).
  now rewrite IH.
Qed.

Lemma filter_none (k : nat) (l : list nat) :
  Forall (fun x => x < k) l -> filter (Nat.leb k) l = [].
Proof.
  induction 1 as [|a l Ha Hl IH]; [reflexivity|]. cbn [filter].
  replace (Nat.leb k a) with false by (symmetry; apply Nat.leb_gt; lia).
  exact IH.
Qed.

Lemma firstn_succ {A : Type} (l : list A) k c :
  nth_error l k = Some c -> firstn (S k) l = firstn k l ++ [c].
Proof.
  revert k. induction l as [|a l IH]; intros [|k] H; cbn [nth_error] in H; try discriminate.
  - now injection H as <-.
  - change (a :: firstn (S k) l = a :: (firstn k l ++ [c])). f_equal. now apply IH.
Qed.

Lemma skipn_nth {A : Type} (l : list A) k c :
  nth_error l k = Some c -> skipn k l = c :: skipn (S k) l.
Proof.
  revert k. induction l as [|a l IH]; intros [|k] H; cbn [nth_error] in H; try discriminate.
  - now injection H as <-.
  - cbn [skipn]. now rewrite (IH _ H).
Qed.

Lemma listed_split (st : BuildState) k :
  rootNodes st ++ concat (map children (store st))
  = listedBefore st k ++ concat (map children (skipn k (store st))).
Proof.
  unfold listedBefore. rewrite <- app_assoc, <- concat_app, <- map_app.
  now rewrite firstn_skipn.
Qed.

Lemma listedBefore_NoDup (st : BuildState) k :
  wellLinked st -> NoDup (listedBefore st k).
Proof.
  intro Hst. pose proof (onOneList Hst) as H.
  rewrite (listed_split st k) in H. now apply NoDup_app_remove_r in H.
Qed.

Lemma nth_error_skipn {A : Type} (l : list A) k j :
  nth_error (skipn k l) j = nth_error l (k + j).
Proof.
  revert l. induction k as [|k IH]; intro l; [reflexivity|].
  destruct l as [|a l]; [now destruct j|]. cbn [skipn Nat.add nth_error]. apply IH.
Qed.

Lemma listedBefore_In (st : BuildState) k :
  forestShaped st -> k < List.length (store st) -> In k (listedBefore st k).
Proof.
  intros Hst Hk. pose proof (@allListed st Hst k Hk) as H.
  rewrite (listed_split st k) in H. apply in_app_or in H as [H|H]; [assumption|].
  exfalso. apply in_concat in H as (l & Hl & Hin).
  apply in_map_iff in Hl as (c & <- & Hc).
  apply In_nth_error in Hc as (j & Hj). rewrite nth_error_skipn in Hj.
  pose proof (@parentFirst st Hst _ c k Hj Hin). lia.
Qed.

Lemma listedBefore_succ (st : BuildState) k c :
  nth_error (store st) k = Some c ->
  listedBefore st (S k) = listedBefore st k ++ children c.
Proof.
  intro Hc. unfold listedBefore.
  rewrite (@firstn_succ _ (store st) k c Hc), map_app, concat_app. cbn [map concat].
  now rewrite app_nil_r, app_assoc.
Qed.

Lemma frontier_step (st : BuildState) k c :
  forestShaped st ->
  nth_error (store st) k = Some c ->
  Permutation (frontier st k)
              (k :: filter (Nat.leb (S k)) (listedBefore st k)) /\
  frontier st (S k) = filter (Nat.leb (S k)) (listedBefore st k) ++ children c.
Proof.
  intros Hst Hc.
  assert (Hk : k < List.length (store st)) by (apply nth_error_Some; congruence).
  split.
  - apply filter_from; [apply listedBefore_NoDup, (linkedWell Hst) | now apply listedBefore_In].
  - unfold frontier. rewrite (@listedBefore_succ st k c Hc), filter_app. f_equal.
    apply filter_all. apply Forall_forall. intros x Hx.
    pose proof (@parentFirst st Hst k c x Hc Hx). lia.
Qed.

Lemma frontier_end (st : BuildState) :
  wellLinked st -> frontier st (List.length (store st)) = [].
Proof.
  intro Hst. unfold frontier. apply filter_none. apply Forall_forall. intros x Hx.
  unfold listedBefore in Hx. rewrite firstn_all in Hx.
  apply in_app_or in Hx as [Hx|Hx].
  - pose proof (rootsStored Hst) as H. eapply Forall_forall in H; eauto.
  - apply in_concat in Hx as (l & Hl & Hin).
    apply in_map_iff in Hl as (c & <- & Hc).
    apply In_nth_error in Hc as (p & Hp).
    pose proof (@childAfterParent st Hst p c x Hp Hin). lia.
Qed.

Lemma frontier_start (st : BuildState) : frontier st 0 = rootNodes st.
Proof.
  unfold frontier, listedBefore. cbn [firstn map concat]. rewrite app_nil_r.
  apply filter_all. apply Forall_forall. intros; lia.
Qed.

(** From the tops of what is stored from [k] on, every node stored from [k]
    on is printed once. *)
Lemma frontier_nodes (st : BuildState) :
  forestShaped st ->
  forall m k,
    k + m = List.length (store st) ->
    Permutation (flat_map (nodesFrom (store st)) (frontier st k))
                (map info (skipn k (store st))).
Proof.
  intro Hst. induction m as [|m IH]; intros k Hk.
  - rewrite Nat.add_0_r in Hk. subst k.
    rewrite (@frontier_end st (linkedWell Hst)), skipn_all. constructor.
  - destruct (nth_error (store st) k) as [c|] eqn:Hc;
      [|apply nth_error_None in Hc; lia].
    destruct (@frontier_step st k c Hst Hc) as (Hperm & Hnext).
    specialize (IH (S k) ltac:(lia)). rewrite Hnext, flat_map_app in IH.
    rewrite (@skipn_nth _ (store st) k c Hc). cbn [map].
    rewrite (Permutation_flat_map (nodesFrom (store st)) Hperm).
    cbn [flat_map].
    rewrite (@nodesFrom_step st k c (linkedWell Hst) (@not_ownChild st k Hst) Hc). cbn [app].
    constructor. etransitivity; [|exact IH]. apply Permutation_app_comm.
Qed.

(** Every node of a store in the shape of a forest is printed once. *)
Lemma forest_nodes (st : BuildState) forest :
  forestShaped st ->
  reifyAll (store st) (rootNodes st) = Some forest ->
  Permutation (flat_map preorder forest) (map info (store st)).
Proof.
  intros Hst Hread. unfold reifyAll in Hread.
  rewrite (@preorder_allSome _ _ _ Hread).
  pose proof (@frontier_nodes st Hst (List.length (store st)) 0 eq_refl) as H.
  now rewrite frontier_start in H.
Qed.

(** *** A node that is its own child is not printed *)

Lemma ownChild_unlisted (st : BuildState) k :
  wellLinked st -> ownChild (store st) k -> ~ In k (listedBefore st k).
Proof.
  intros Hst (c & Hc & Hown) Hin. pose proof (onOneList Hst) as Hnd.
  rewrite (listed_split st k) in Hnd.
  eapply NoDup_app_disjoint; [exact Hnd | exact Hin |].
  apply in_concat. exists (children c). split; [|assumption].
  apply in_map. rewrite (@skipn_nth _ (store st) k c Hc). now left.
Qed.

Lemma frontier_bound (st : BuildState) i0 :
  wellLinked st -> ownChild (store st) i0 ->
  forall m k,
    k + m = List.length (store st) ->
    List.length (flat_map (nodesFrom (store st)) (frontier st k))
    + (if Nat.leb k i0 then 1 else 0) <= m.
Proof.
  intros Hst Hi0.
  assert (Hlt : i0 < List.length (store st)).
  { destruct Hi0 as (c & Hc & _). apply nth_error_Some. congruence. }
  induction m as [|m IH]; intros k Hk.
  - rewrite Nat.add_0_r in Hk. subst k. rewrite (@frontier_end st Hst).
    replace (Nat.leb (List.length (store st)) i0) with false
      by (symmetry; apply Nat.leb_gt; lia).
    cbn. lia.
  - destruct (nth_error (store st) k) as [c|] eqn:Hc;
      [|apply nth_error_None in Hc; lia].
    specialize (IH (S k) ltac:(lia)).
    assert (Hnext : frontier st (S k)
                    = filter (Nat.leb (S k)) (listedBefore st k)
                      ++ filter (Nat.leb (S k)) (children c)).
    { unfold frontier. now rewrite (@listedBefore_succ st k c Hc), filter_app. }
    rewrite Hnext, flat_map_app, length_app in IH.
    destruct (in_dec Nat.eq_dec k (listedBefore st k)) as [Hin|Hout].
    + assert (Hown : ~ ownChild (store st) k)
        by (intro H; exact (@ownChild_unlisted st k Hst H Hin)).
      assert (Hne : k <> i0) by (intros ->; contradiction).
      pose proof (@filter_from k _ (@listedBefore_NoDup st k Hst) Hin) as Hperm.
      unfold frontier.
      rewrite (Permutation_length (Permutation_flat_map (nodesFrom (store st)) Hperm)).
      cbn [flat_map]. rewrite length_app, (@nodesFrom_step st k c Hst Hown Hc).
      cbn [List.length].
      rewrite (@filter_all (S k) (children c)) in IH.
      2: { apply Forall_forall. intros x Hx.
           destruct (@child_later st k c x Hst Hown Hc Hx). lia. }
      destruct (Nat.leb_spec k i0), (Nat.leb_spec (S k) i0); lia.
    + unfold frontier. rewrite (@filter_skip k _ Hout).
      destruct (Nat.leb k i0), (Nat.leb (S k) i0); lia.
Qed.

(** From a store in which a node is its own child, fewer nodes are printed
    than are stored. *)
Lemma ownChild_lost (st : BuildState) i0 forest :
  wellLinked st -> ownChild (store st) i0 ->
  reifyAll (store st) (rootNodes st) = Some forest ->
  List.length (flat_map preorder forest) < List.length (store st).
Proof.
  intros Hst Hi0 Hread. unfold reifyAll in Hread.
  rewrite (@preorder_allSome _ _ _ Hread).
  pose proof (@frontier_bound st i0 Hst Hi0 (List.length (store st)) 0 eq_refl) as H.
  rewrite frontier_start in H. cbn [Nat.leb] in H.
  change (fun x => match reify (S (List.length (store st))) (store st) x with
                   | Some t => preorder t
                   | None => []
                   end) with (nodesFrom (store st)).
  lia.
Qed.

Lemma ownChild_kept st r i :
  ownChild (store st) i -> ownChild (store (addRecord st r)) i.
Proof.
  intros (c & Hc & Hin).
  assert (Hc1 : nth_error (store st ++ [mkCell (nodeOf r) []]) i = Some c).
  { rewrite nth_error_app1; [assumption|]. apply nth_error_Some. congruence. }
  unfold addRecord. destruct (String.eqb (recParentPath r) EmptyString); cbn [store].
  - now exists c.
  - destruct (mapGet _ _) as [parent|]; cbn [store]; [|now exists c].
    unfold ownChild. rewrite (nth_error_pushChild parent (List.length (store st)) _ i), Hc1.
    destruct (Nat.eqb i parent).
    + exists (addChild (List.length (store st)) c). split; [reflexivity|].
      cbn [addChild children]. apply in_or_app. now left.
    + now exists c.
Qed.

Lemma selfParent_ownChild st r :
  selfParent r = true -> ownChild (store (addRecord st r)) (List.length (store st)).
Proof.
  unfold selfParent. intro H. apply andb_true_iff in H as (Hne & Heq).
  apply negb_true_iff in Hne. unfold addRecord. rewrite Hne.
  rewrite mapGet_mapSet. cbn [strictEq]. rewrite String.eqb_sym, Heq. cbn [store].
  unfold ownChild. rewrite nth_error_pushChild, Nat.eqb_refl.
  rewrite nth_error_app2 by lia. rewrite Nat.sub_diag. cbn [nth_error option_map].
  eexists. split; [reflexivity|]. cbn [addChild children app]. now left.
Qed.

Lemma addRecords_ownChild (input : list ElementRecord) :
  forall st,
    (existsb selfParent input = true \/ exists i, ownChild (store st) i) ->
    exists st' i,
      foldM addNode (map ofRecord input) st = Ok st' /\
      ownChild (store st') i /\
      map info (store st') = map info (store st) ++ map nodeOf input.
Proof.
  induction input as [|r rest IH]; intros st H.
  - destruct H as [H|(i & Hi)]; [discriminate H|].
    exists st, i. cbn. now rewrite app_nil_r.
  - cbn [map foldM]. rewrite addNode_ofRecord. cbn [bind].
    destruct (IH (addRecord st r)) as (st' & i & Hrun & Hown & Hinfo).
    + cbn [existsb] in H. destruct H as [H|(i & Hi)].
      * apply orb_true_iff in H as [H|H]; [right | now left].
        eexists. now apply selfParent_ownChild.
      * right. exists i. now apply ownChild_kept.
    + exists st', i. split; [assumption|]. split; [assumption|].
      now rewrite Hinfo, addRecord_info, <- app_assoc.
Qed.

(** *** The builder keeps the store in the shape of a forest *)

Lemma emptyState_forestShaped : forestShaped emptyState.
Proof.
  constructor.
  - exact emptyState_wellLinked.
  - intros [|p] c x H; discriminate H.
  - cbn. intros i Hi. lia.
Qed.

Lemma addRoot_forestShaped st i key :
  forestShaped st ->
  wellLinked (mkState (store st ++ [mkCell i []])
                      (mapSet key (List.length (store st)) (nodesByPath st))
                      (rootNodes st ++ [List.length (store st)])) ->
  forestShaped (mkState (store st ++ [mkCell i []])
                        (mapSet key (List.length (store st)) (nodesByPath st))
                        (rootNodes st ++ [List.length (store st)])).
Proof.
  intros Hst Hwl. constructor; [exact Hwl | |]; cbn [store rootNodes].
  - intros p c x Hp Hx. apply nth_error_snoc in Hp as [Hp|[_ ->]].
    + exact (@parentFirst st Hst p c x Hp Hx).
    + contradiction.
  - intros j Hj. rewrite length_app in Hj. cbn [List.length] in Hj.
    rewrite map_app, concat_app. cbn [map concat children app]. rewrite app_nil_r.
    destruct (Nat.eq_dec j (List.length (store st))) as [->|Hne].
    + apply in_or_app. left. apply in_or_app. right. now left.
    + pose proof (@allListed st Hst j ltac:(lia)) as H.
      apply in_app_or in H as [H|H]; apply in_or_app; [left|right]; [|assumption].
      apply in_or_app. now left.
Qed.

Lemma addChild_forestShaped st i key parent :
  forestShaped st ->
  parent < List.length (store st) ->
  wellLinked (mkState (pushChild parent (List.length (store st)) (store st ++ [mkCell i []]))
                      (mapSet key (List.length (store st)) (nodesByPath st))
                      (rootNodes st)) ->
  forestShaped (mkState (pushChild parent (List.length (store st)) (store st ++ [mkCell i []]))
                        (mapSet key (List.length (store st)) (nodesByPath st))
                        (rootNodes st)).
Proof.
  intros Hst Hparent Hwl. constructor; [exact Hwl | |]; cbn [store rootNodes].
  - intros p c x Hp Hx. rewrite nth_error_pushChild in Hp.
    destruct (Nat.eqb_spec p parent) as [->|Hne].
    + destruct (nth_error (store st ++ [mkCell i []]) parent) as [c0|] eqn:E; [|discriminate].
      injection Hp as <-. cbn [addChild children] in Hx.
      apply in_app_or in Hx as [Hx|[<-|[]]]; [|lia].
      apply nth_error_snoc in E as [E|[_ ->]]; [|contradiction].
      exact (@parentFirst st Hst parent c0 x E Hx).
    + apply nth_error_snoc in Hp as [Hp|[_ ->]]; [|contradiction].
      exact (@parentFirst st Hst p c x Hp Hx).
  - intros j Hj. rewrite pushChild_length, length_app in Hj. cbn [List.length] in Hj.
    assert (Hperm : Permutation
                      (concat (map children
                                 (pushChild parent (List.length (store st))
                                    (store st ++ [mkCell i []]))))
                      (List.length (store st) :: concat (map children (store st)))).
    { rewrite concat_pushChild by (rewrite length_app; cbn [List.length]; lia).
      rewrite map_app, concat_app. cbn [map concat children app].
      now rewrite app_nil_r. }
    apply in_or_app.
    destruct (Nat.eq_dec j (List.length (store st))) as [->|Hne].
    + right. eapply Permutation_in; [symmetry; exact Hperm|]. now left.
    + pose proof (@allListed st Hst j ltac:(lia)) as H.
      apply in_app_or in H as [H|H]; [now left | right].
      eapply Permutation_in; [symmetry; exact Hperm|]. now right.
Qed.

Lemma selfParent_false r :
  selfParent r = false ->
  recParentPath r <> EmptyString ->
  strictEq (VStr (keyOf r)) (VStr (recParentPath r)) = false.
Proof.
  unfold selfParent. intros H Hne. cbn [strictEq].
  destruct (String.eqb (recParentPath r) EmptyString) eqn:E;
    [apply String.eqb_eq in E; contradiction|].
  cbn [negb andb] in H. now rewrite String.eqb_sym.
Qed.

Lemma addRecord_forestShaped st r :
  forestShaped st -> selfParent r = false -> forestShaped (addRecord st r).
Proof.
  intros Hst Hself.
  assert (Hwl : wellLinked (addRecord st r)).
  { apply (@addNode_wellLinked st (ofRecord r)); [exact (linkedWell Hst)|].
    apply addNode_ofRecord. }
  revert Hwl. unfold addRecord.
  destruct (String.eqb (recParentPath r) EmptyString) eqn:E.
  - now apply addRoot_forestShaped.
  - assert (Hne : recParentPath r <> EmptyString)
      by (intro H; rewrite H in E; discriminate E).
    rewrite mapGet_mapSet, (selfParent_false _ Hself Hne).
    destruct (mapGet (VStr (recParentPath r)) (nodesByPath st)) as [parent|] eqn:Hget.
    + apply addChild_forestShaped; [assumption|].
      exact (@keysStored st (linkedWell Hst) _ _ Hget).
    + now apply addRoot_forestShaped.
Qed.

Lemma addRecords_forestShaped (input : list ElementRecord) :
  forall st,
    forestShaped st ->
    forallb (fun r => negb (selfParent r)) input = true ->
    exists st',
      foldM addNode (map ofRecord input) st = Ok st' /\
      forestShaped st' /\
      map info (store st') = map info (store st) ++ map nodeOf input.
Proof.
  induction input as [|r rest IH]; intros st Hst Hall.
  - exists st. cbn. now rewrite app_nil_r.
  - cbn [forallb] in Hall. apply andb_true_iff in Hall as (Hr & Hrest).
    apply negb_true_iff in Hr.
    cbn [map foldM]. rewrite addNode_ofRecord. cbn [bind].
    destruct (IH (addRecord st r) (addRecord_forestShaped _ Hst Hr) Hrest)
      as (st' & Hrun & Hshape & Hinfo).
    exists st'. split; [assumption|]. split; [assumption|].
    now rewrite Hinfo, addRecord_info, <- app_assoc.
Qed.

(** X4. A record is lost exactly when a record names itself as its parent.
    On a sequence of records of which none has, as its [parentPath], the key
    it is stored under ([path], or [name] when [path] is empty), the builder
    returns a forest whose nodes are the nodes of the records, each one once.
    When some record does, the forest has fewer nodes than there are
    records. *)
Theorem records_kept (input : list ElementRecord) :
  exists forest,
    buildTreeFromAnatomy (sequence input) = Ok forest /\
    if existsb selfParent input
    then List.length (flat_map preorder forest) < List.length input
    else Permutation (flat_map preorder forest) (map nodeOf input).
Proof.
  destruct (existsb selfParent input) eqn:Hself.
  - destruct (@addRecords_ownChild input emptyState (or_introl Hself))
      as (st & i & Hrun & Hown & Hinfo).
    assert (Hbuild : buildStore (sequence input) = Ok st) by exact Hrun.
    destruct (buildTree_total _ Hbuild) as (forest & Hread & Htree).
    exists forest. split; [assumption|].
    pose proof (@ownChild_lost st i forest (buildStore_wellLinked _ Hbuild) Hown Hread) as H.
    assert (Hlen : List.length (store st) = List.length input).
    { rewrite <- (length_map info), Hinfo. cbn [emptyState store map app].
      apply length_map. }
    lia.
  - assert (Hall : forallb (fun r => negb (selfParent r)) input = true).
    { apply forallb_forall. intros r Hr. apply negb_true_iff.
      destruct (selfParent r) eqn:E; [|reflexivity].
      assert (existsb selfParent input = true)
        by (apply existsb_exists; exists r; auto).
      congruence. }
    destruct (addRecords_forestShaped input emptyState_forestShaped Hall)
      as (st & Hrun & Hshape & Hinfo).
    assert (Hbuild : buildStore (sequence input) = Ok st) by exact Hrun.
    destruct (buildTree_total _ Hbuild) as (forest & Hread & Htree).
    exists forest. split; [assumption|].
    rewrite <- (app_nil_l (map nodeOf input)).
    change (@nil NodeInfo) with (map info (store emptyState)). rewrite <- Hinfo.
    now apply forest_nodes.
Qed.

End ConserveFacts.

Module YamlDocFacts.
Import Js Yaml YamlDoc StrFacts LayoutFacts Samples.

(** *** The loops, one member at a time *)

Lemma convertToYAML_object fields indent :
  convertToYAML (VObj fields) indent
  = cat (map (fun kv => memberYAML indent (fst kv) (snd kv)) fields).
Proof.
  cbn [convertToYAML].
  induction fields as [|(key, v) rest IH]; [reflexivity|].
  cbn [map cat fold_right fst snd]. unfold cat in IH. rewrite <- IH.
  f_equal. destruct v; try reflexivity.
  unfold memberYAML. do 4 f_equal.
  induction items as [|item more IHm]; [reflexivity|].
  cbn [map cat fold_right]. unfold cat in IHm. now rewrite <- IHm.
Qed.

Lemma memberYAML_array indent key items :
  Str.repeat "  " indent +++ key +++ ":" +++ Tree.newlineStr +++
  (fix each (l : list value) : string :=
     match l with
     | [] => EmptyString
     | item :: more =>
         (if typeofObject item
          then Str.repeat "  " indent +++ "  -" +++ Tree.newlineStr +++
               shiftItem (convertToYAML item (indent + 2))
          else Str.repeat "  " indent +++ "  - " +++ formatYAMLValue item +++ Tree.newlineStr)
         +++ each more
     end) items
  = memberYAML indent key (VArr items).
Proof.
  unfold memberYAML. do 4 f_equal.
  induction items as [|item more IHm]; [reflexivity|].
  cbn [map cat fold_right]. unfold cat in IHm. now rewrite <- IHm.
Qed.

Lemma convertToYAML_array items indent :
  convertToYAML (VArr items) indent = indexedYAML indent 0 items.
Proof.
  cbn [convertToYAML]. generalize 0 at 3 4.
  induction items as [|v rest IH]; intro i; [reflexivity|].
  cbn [indexedYAML]. rewrite <- IH. f_equal.
  destruct v; try reflexivity. apply memberYAML_array.
Qed.

Lemma convertToYAML_string s indent :
  convertToYAML (VStr s) indent = indexedYAML indent 0 (chars s).
Proof.
  cbn [convertToYAML]. unfold chars. generalize 0.
  induction (list_ascii_of_string s) as [|c rest IH]; intro i; [reflexivity|].
  cbn [map indexedYAML]. now rewrite <- IH.
Qed.

(** *** Texts made of whole lines *)

Lemma atLineStart_app a : forall b s,
  atLineStart b (a +++ s) = atLineStart (atLineStart b a) s.
Proof. induction a as [|c a IH]; intros b s; cbn; [reflexivity | apply IH]. Qed.

Lemma atLineStart_line b a : atLineStart b (a +++ Tree.newlineStr) = true.
Proof. now rewrite atLineStart_app. Qed.

Lemma atLineStart_shift pre s : forall b,
  atLineStart b (shiftLines pre b s) = atLineStart b s.
Proof.
  induction s as [|c s IH]; intro b; [reflexivity|]. cbn [shiftLines atLineStart].
  destruct (Ascii.eqb c Str.newline) eqn:E.
  - cbn [atLineStart]. rewrite E. apply IH.
  - rewrite atLineStart_app. cbn [atLineStart]. rewrite E. apply IH.
Qed.

Lemma splitAux_nonempty sep s : forall cur k, Str.splitAux sep s cur k <> [].
Proof.
  induction s as [|c s IH]; intros cur k; cbn [Str.splitAux]; [discriminate|].
  destruct k; [|apply IH].
  destruct (Str.startsWith (String c s) sep); [discriminate | apply IH].
Qed.

(** The lines of a text, each shifted, and joined again: the text with the
    shift put before the first character of every line that has one. *)
Lemma shifted_lines pre s : forall cur,
  Str.join Tree.newlineStr
    (map (fun line => if String.eqb line EmptyString then line else pre +++ line)
         (Str.splitAux Tree.newlineStr s cur 0))
  = (if String.eqb cur EmptyString then EmptyString else pre +++ cur)
    +++ shiftLines pre (String.eqb cur EmptyString) s.
Proof.
  induction s as [|c s IH]; intro cur.
  - cbn [Str.splitAux map Str.join String.concat shiftLines].
    rewrite append_empty_r. now destruct (String.eqb cur EmptyString) eqn:E;
      [apply String.eqb_eq in E; subst|].
  - cbn [Str.splitAux shiftLines].
    change (Str.startsWith (String c s) Tree.newlineStr)
      with (Ascii.eqb Str.newline c && Str.startsWith s EmptyString).
    rewrite startsWith_nil, andb_true_r, Ascii.eqb_sym.
    destruct (Ascii.eqb c Str.newline) eqn:E.
    + cbn [map]. specialize (IH EmptyString).
      change (String.length Tree.newlineStr - 1) with 0.
      unfold Str.join in *. cbn [String.concat].
      destruct (Str.splitAux Tree.newlineStr s EmptyString 0) as [|x l] eqn:El.
      { exfalso. exact (splitAux_nonempty _ _ _ _ El). }
      cbn [map] in *. rewrite IH. cbn [String.eqb append].
      apply Ascii.eqb_eq in E. subst c.
      destruct (String.eqb cur EmptyString) eqn:Ec.
      * apply String.eqb_eq in Ec. subst cur. reflexivity.
      * rewrite !append_assoc. reflexivity.
    + rewrite IH.
      assert (Hne : String.eqb (cur +++ Str.ofChar c) EmptyString = false)
        by (destruct cur; reflexivity).
      rewrite Hne.
      destruct (String.eqb cur EmptyString) eqn:Ec.
      * apply String.eqb_eq in Ec. subst cur. cbn [append].
        rewrite append_assoc. reflexivity.
      * cbn [append]. rewrite !append_assoc. reflexivity.
Qed.

Lemma shifted_text pre s :
  Str.join Tree.newlineStr
    (map (fun line => if String.eqb line EmptyString then line else pre +++ line)
         (Str.split s Tree.newlineStr))
  = shiftLines pre true s.
Proof. unfold Str.split. now rewrite shifted_lines. Qed.

Lemma shiftItem_shift s : shiftItem s = shiftLines "  " true s.
Proof. apply shifted_text. Qed.

Lemma indented_shift n s : indented n s = shiftLines (Str.repeat "  " n) true s.
Proof. apply shifted_text. Qed.

Lemma cat_closed (l : list string) :
  Forall (fun s => atLineStart true s = true) l -> atLineStart true (cat l) = true.
Proof.
  induction 1 as [|s l Hs Hl IH]; [reflexivity|].
  cbn [cat fold_right]. rewrite atLineStart_app, Hs. exact IH.
Qed.

Lemma indexedYAML_closed indent (l : list value) :
  Forall (fun v => forall n key, atLineStart true (memberYAML n key v) = true) l ->
  forall i, atLineStart true (indexedYAML indent i l) = true.
Proof.
  induction 1 as [|v l Hv Hl IH]; intro i; [reflexivity|].
  cbn [indexedYAML]. rewrite atLineStart_app, Hv. apply IH.
Qed.

Ltac whole_line :=
  repeat rewrite atLineStart_app; reflexivity.

Lemma itemYAML_closed indent item :
  (forall n, atLineStart true (convertToYAML item n) = true) ->
  atLineStart true (itemYAML indent item) = true.
Proof.
  intro H. unfold itemYAML. destruct (typeofObject item).
  - rewrite !atLineStart_app.
    change (atLineStart (atLineStart (atLineStart true (Str.repeat "  " indent)) "  -")
                         Tree.newlineStr) with true.
    rewrite shiftItem_shift, atLineStart_shift. apply H.
  - whole_line.
Qed.

Lemma yaml_closed (v : value) :
  (forall n, atLineStart true (convertToYAML v n) = true) /\
  (forall n key, atLineStart true (memberYAML n key v) = true).
Proof.
  induction v as [| | b | z | s | items IH | fields IH] using value_ind'.
  - split; [reflexivity | intros; unfold memberYAML; whole_line].
  - split; [reflexivity | intros; unfold memberYAML; whole_line].
  - split; [reflexivity | intros; unfold memberYAML; whole_line].
  - split; [reflexivity | intros; unfold memberYAML; whole_line].
  - split; [|intros; unfold memberYAML; whole_line].
    intro n. rewrite convertToYAML_string. apply indexedYAML_closed.
    unfold chars. apply Forall_forall. intros v Hv.
    apply in_map_iff in Hv as (c & <- & _). intros; unfold memberYAML; whole_line.
  - split.
    + intro n. rewrite convertToYAML_array. apply indexedYAML_closed.
      eapply Forall_impl; [|exact IH]. cbn. intros a Ha. apply Ha.
    + intros n key. unfold memberYAML. rewrite !atLineStart_app.
      change (atLineStart (atLineStart (atLineStart (atLineStart true (Str.repeat "  " n)) key) ":")
                          Tree.newlineStr) with true.
      apply cat_closed. apply Forall_forall. intros t Ht.
      apply in_map_iff in Ht as (item & <- & Hitem).
      apply itemYAML_closed. rewrite Forall_forall in IH. apply (IH _ Hitem).
  - assert (Hdoc : forall n, atLineStart true (convertToYAML (VObj fields) n) = true).
    { intro n. rewrite convertToYAML_object. apply cat_closed.
      apply Forall_forall. intros t Ht. apply in_map_iff in Ht as (kv & <- & Hkv).
      rewrite Forall_forall in IH. apply (IH _ Hkv). }
    split; [exact Hdoc|].
    intros n key. unfold memberYAML. rewrite !atLineStart_app.
    change (atLineStart (atLineStart (atLineStart (atLineStart true (Str.repeat "  " n)) key) ":")
                        Tree.newlineStr) with true.
    apply Hdoc.
Qed.

Lemma atLineStart_end s :
  atLineStart true s = true -> s = EmptyString \/ Str.endsWith s Tree.newlineStr = true.
Proof.
  destruct s as [|c s]; [now left|]. intro H. right.
  apply endsWith_char. revert c H.
  induction s as [|d s IH]; intros c H.
  - cbn in H. apply Ascii.eqb_eq in H. subst c. now exists EmptyString.
  - cbn [atLineStart] in H. destruct (IH d) as [t Ht].
    + exact H.
    + exists (String c t). cbn [append]. now rewrite <- Ht.
Qed.

(** X5. What [convertToYAML] returns is made of whole lines: on every value
    and at every level it is empty or ends with a line break.  (This is what
    lets the text of an item of an array be split into lines, shifted and
    joined again without a line being lost or two lines being joined.) *)
Theorem convertToYAML_whole_lines (data : value) (indent : nat) :
  convertToYAML data indent = EmptyString \/
  Str.endsWith (convertToYAML data indent) Tree.newlineStr = true.
Proof. apply atLineStart_end. apply (proj1 (yaml_closed data)). Qed.

(** *** Shifting a text made of lines without a break inside a key or a
    scalar *)

Lemma oneLine_cons a s :
  oneLine (String a s) = negb (Ascii.eqb a Str.newline) && oneLine s.
Proof.
  unfold oneLine. cbn [Str.includes].
  change (Str.startsWith (String a s) Tree.newlineStr)
    with (Ascii.eqb Str.newline a && Str.startsWith s EmptyString).
  rewrite startsWith_nil, andb_true_r, negb_orb, Ascii.eqb_sym. reflexivity.
Qed.

Lemma oneLine_app a b : oneLine (a +++ b) = oneLine a && oneLine b.
Proof.
  induction a as [|c a IH]; [reflexivity|].
  cbn [append]. rewrite !oneLine_cons, IH. now rewrite andb_assoc.
Qed.

Lemma shift_rest pre x : forall r,
  oneLine x = true -> shiftLines pre false (x +++ r) = x +++ shiftLines pre false r.
Proof.
  induction x as [|c x IH]; intros r H; [reflexivity|].
  rewrite oneLine_cons in H. apply andb_true_iff in H as (Hc & Hx).
  apply negb_true_iff in Hc. cbn [append shiftLines]. rewrite Hc.
  cbn [append]. now rewrite IH.
Qed.

Lemma shift_break pre b rest :
  shiftLines pre b (Tree.newlineStr +++ rest) = Tree.newlineStr +++ shiftLines pre true rest.
Proof. reflexivity. Qed.

(** A line that has a character: the shift, the line, and the rest
    shifted. *)
Lemma shift_line pre key mid rest :
  oneLine key = true -> oneLine mid = true -> mid <> EmptyString ->
  shiftLines pre true (key +++ mid +++ Tree.newlineStr +++ rest)
  = pre +++ key +++ mid +++ Tree.newlineStr +++ shiftLines pre true rest.
Proof.
  intros Hkey Hmid Hne.
  destruct key as [|c key].
  - destruct mid as [|d mid]; [contradiction|].
    rewrite oneLine_cons in Hmid. apply andb_true_iff in Hmid as (Hd & Hmid).
    apply negb_true_iff in Hd. cbn [append shiftLines]. rewrite Hd.
    rewrite shift_rest by assumption. now rewrite shift_break.
  - rewrite oneLine_cons in Hkey. apply andb_true_iff in Hkey as (Hc & Hkey).
    apply negb_true_iff in Hc. cbn [append shiftLines]. rewrite Hc.
    rewrite shift_rest by assumption. rewrite shift_rest by assumption.
    now rewrite shift_break.
Qed.

Lemma shift_app pre a : forall b s,
  shiftLines pre b (a +++ s)
  = shiftLines pre b a +++ shiftLines pre (atLineStart b a) s.
Proof.
  induction a as [|c a IH]; intros b s; [reflexivity|].
  cbn [append shiftLines atLineStart]. destruct (Ascii.eqb c Str.newline).
  - cbn [append]. now rewrite IH.
  - rewrite IH, append_assoc. reflexivity.
Qed.

Lemma shift_shift p q s : forall b,
  oneLine q = true ->
  shiftLines p b (shiftLines q b s) = shiftLines (p +++ q) b s.
Proof.
  induction s as [|c s IH]; intros b Hq; [reflexivity|].
  cbn [shiftLines]. destruct (Ascii.eqb c Str.newline) eqn:E.
  - cbn [shiftLines]. rewrite E. now rewrite IH.
  - destruct b.
    + destruct q as [|d q].
      * cbn [append shiftLines]. rewrite E, append_empty_r.
        now rewrite (IH false eq_refl), append_empty_r.
      * rewrite oneLine_cons in Hq. pose proof Hq as Hq'.
        apply andb_true_iff in Hq as (Hd & Hq).
        apply negb_true_iff in Hd.
        cbn [append shiftLines]. rewrite Hd.
        rewrite shift_rest by assumption. cbn [shiftLines]. rewrite E.
        cbn [append]. rewrite IH by (now rewrite oneLine_cons).
        rewrite !append_assoc. reflexivity.
    + cbn [append shiftLines]. rewrite E. cbn [append]. now rewrite IH.
Qed.

Lemma repeat_oneLine n : oneLine (Str.repeat "  " n) = true.
Proof. induction n as [|n IH]; [reflexivity|]. cbn [Str.repeat]. now rewrite oneLine_app, IH. Qed.

Lemma repeat_add (s : string) n m : Str.repeat s n +++ Str.repeat s m = Str.repeat s (n + m).
Proof.
  induction n as [|n IH]; [reflexivity|].
  cbn [Str.repeat Nat.add]. now rewrite append_assoc, IH.
Qed.

Lemma shift_cat pre (l : list string) :
  Forall (fun s => atLineStart true s = true) l ->
  shiftLines pre true (cat l) = cat (map (shiftLines pre true) l).
Proof.
  induction 1 as [|s l Hs Hl IH]; [reflexivity|].
  cbn [cat fold_right map]. rewrite shift_app, Hs. unfold cat in IH. now rewrite IH.
Qed.

(** *** The digits of a number hold no line break *)

Lemma uint_oneLine (d : Decimal.uint) : oneLine (NilEmpty.string_of_uint d) = true.
Proof.
  induction d; cbn [NilEmpty.string_of_uint]; try reflexivity;
    rewrite oneLine_cons; rewrite IHd; reflexivity.
Qed.

Lemma ofNat_oneLine n : oneLine (Str.ofNat n) = true.
Proof. apply uint_oneLine. Qed.

Lemma ofZ_oneLine z : oneLine (Str.ofZ z) = true.
Proof.
  unfold Str.ofZ, NilZero.string_of_int.
  destruct (Z.to_int z) as [d|d]; unfold NilZero.string_of_uint.
  - destruct d; try reflexivity; apply uint_oneLine.
  - rewrite oneLine_cons. cbn [negb andb].
    destruct d; try reflexivity; apply uint_oneLine.
Qed.

Lemma replaceAll_oneLine c r s :
  oneLine r = true -> oneLine s = true -> oneLine (Str.replaceAll c r s) = true.
Proof.
  intros Hr. induction s as [|a s IH]; intro Hs; [reflexivity|].
  rewrite oneLine_cons in Hs. apply andb_true_iff in Hs as (Ha & Hs).
  cbn [Str.replaceAll]. rewrite oneLine_app, (IH Hs), andb_true_r.
  destruct (Ascii.eqb a c); [assumption|].
  unfold Str.ofChar. rewrite oneLine_cons, Ha. reflexivity.
Qed.

(** A scalar that holds no line break is written on one line. *)
Lemma formatYAMLValue_oneLine v :
  plain v = true -> typeofObject v = false -> oneLine (formatYAMLValue v) = true.
Proof.
  destruct v as [| |b|z|s|items|fields]; intros Hplain Hty; try discriminate Hty.
  - reflexivity.
  - now destruct b.
  - apply ofZ_oneLine.
  - cbn [plain] in Hplain. cbn [formatYAMLValue]. destruct (reserved s); [|assumption].
    rewrite !oneLine_app. rewrite replaceAll_oneLine; [reflexivity | reflexivity | assumption].
Qed.

Lemma plain_fields fields :
  plain (VObj fields) = true ->
  Forall (fun kv => oneLine (fst kv) = true /\ plain (snd kv) = true) fields.
Proof.
  cbn [plain]. induction fields as [|(key, x) rest IH]; intro H; [constructor|].
  apply andb_true_iff in H as (H & Hrest). apply andb_true_iff in H as (Hkey & Hx).
  constructor; [split; assumption | now apply IH].
Qed.

Lemma plain_items items :
  plain (VArr items) = true -> Forall (fun x => plain x = true) items.
Proof. cbn [plain]. intro H. apply Forall_forall. now apply forallb_forall. Qed.

Lemma shift_last pre key mid :
  oneLine key = true -> oneLine mid = true -> mid <> EmptyString ->
  shiftLines pre true (key +++ mid +++ Tree.newlineStr)
  = pre +++ key +++ mid +++ Tree.newlineStr.
Proof.
  intros Hkey Hmid Hne.
  pose proof (@shift_line pre key mid EmptyString Hkey Hmid Hne) as H.
  cbn [shiftLines] in H.
  change (Tree.newlineStr +++ EmptyString) with Tree.newlineStr in H. exact H.
Qed.

Lemma shift_null pre key :
  oneLine key = true ->
  shiftLines pre true (key +++ ": null" +++ Tree.newlineStr)
  = pre +++ key +++ ": null" +++ Tree.newlineStr.
Proof. intro H. apply shift_last; [assumption | reflexivity | discriminate]. Qed.

Lemma shift_scalar pre key f :
  oneLine key = true -> oneLine f = true ->
  shiftLines pre true (key +++ ": " +++ f +++ Tree.newlineStr)
  = pre +++ key +++ ": " +++ f +++ Tree.newlineStr.
Proof.
  intros Hkey Hf.
  pose proof (@shift_last pre key (": " +++ f) Hkey) as H.
  rewrite !append_assoc in H. apply H; [|discriminate].
  now rewrite oneLine_app, Hf.
Qed.

Lemma shift_header pre key rest :
  oneLine key = true ->
  shiftLines pre true (key +++ ":" +++ Tree.newlineStr +++ rest)
  = pre +++ key +++ ":" +++ Tree.newlineStr +++ shiftLines pre true rest.
Proof. intro H. apply shift_line; [assumption | reflexivity | discriminate]. Qed.

Lemma shift_dash pre rest :
  shiftLines pre true ("  -" +++ Tree.newlineStr +++ rest)
  = pre +++ "  -" +++ Tree.newlineStr +++ shiftLines pre true rest.
Proof.
  exact (@shift_line pre EmptyString "  -" rest eq_refl eq_refl ltac:(discriminate)).
Qed.

Lemma shift_dashed pre f :
  oneLine f = true ->
  shiftLines pre true ("  - " +++ f +++ Tree.newlineStr)
  = pre +++ "  - " +++ f +++ Tree.newlineStr.
Proof.
  intro Hf.
  pose proof (@shift_last pre EmptyString ("  - " +++ f) eq_refl) as H.
  cbn [append] in H. cbn [append]. apply H; [|discriminate].
  now rewrite !oneLine_cons, Hf.
Qed.

Lemma repeat_zero (x : string) : Str.repeat "  " 0 +++ x = x.
Proof. reflexivity. Qed.

Lemma member_closed n key v : atLineStart true (memberYAML n key v) = true.
Proof. apply (proj2 (yaml_closed v)). Qed.

Lemma indexed_shift n (l : list value) :
  Forall (fun v => forall key, oneLine key = true ->
                   memberYAML n key v
                   = shiftLines (Str.repeat "  " n) true (memberYAML 0 key v)) l ->
  forall i,
    indexedYAML n i l = shiftLines (Str.repeat "  " n) true (indexedYAML 0 i l).
Proof.
  induction 1 as [|v l Hv Hl IH]; intro i; [reflexivity|].
  cbn [indexedYAML]. rewrite shift_app, member_closed, <- IH.
  now rewrite <- (Hv _ (ofNat_oneLine i)).
Qed.

Lemma scalar_shift n key v :
  plain v = true -> typeofObject v = false -> oneLine key = true ->
  Str.repeat "  " n +++ key +++ ": " +++ formatYAMLValue v +++ Tree.newlineStr
  = shiftLines (Str.repeat "  " n) true
      (Str.repeat "  " 0 +++ key +++ ": " +++ formatYAMLValue v +++ Tree.newlineStr).
Proof.
  intros Hplain Hty Hkey. rewrite repeat_zero.
  now rewrite shift_scalar by (try assumption; now apply formatYAMLValue_oneLine).
Qed.

Lemma item_shift n item :
  plain item = true ->
  (forall k, convertToYAML item k
             = shiftLines (Str.repeat "  " k) true (convertToYAML item 0)) ->
  itemYAML n item = shiftLines (Str.repeat "  " n) true (itemYAML 0 item).
Proof.
  intros Hplain Hdoc. unfold itemYAML. destruct (typeofObject item) eqn:Hty.
  - rewrite repeat_zero. cbn [Nat.add]. rewrite shift_dash. do 3 f_equal.
    rewrite !shiftItem_shift.
    rewrite (Hdoc (n + 2)), (Hdoc 2).
    rewrite !shift_shift by (apply repeat_oneLine || reflexivity).
    f_equal.
    change ("  " +++ Str.repeat "  " (n + 2)) with (Str.repeat "  " (S (n + 2))).
    rewrite append_assoc.
    change ("  " +++ Str.repeat "  " 2) with (Str.repeat "  " 3).
    rewrite repeat_add. f_equal. lia.
  - rewrite repeat_zero.
    now rewrite shift_dashed by (now apply formatYAMLValue_oneLine).
Qed.

Lemma chars_plain s :
  oneLine s = true -> Forall (fun v => plain v = true /\ typeofObject v = false) (chars s).
Proof.
  unfold chars. induction s as [|c s IH]; intro H; [constructor|].
  rewrite oneLine_cons in H. apply andb_true_iff in H as (Hc & Hs).
  cbn [list_ascii_of_string map]. constructor; [|now apply IH].
  split; [|reflexivity]. cbn [plain]. unfold Str.ofChar. now rewrite oneLine_cons, Hc.
Qed.

Lemma yaml_shift (v : value) :
  plain v = true ->
  (forall n, convertToYAML v n
             = shiftLines (Str.repeat "  " n) true (convertToYAML v 0)) /\
  (forall n key, oneLine key = true ->
                 memberYAML n key v
                 = shiftLines (Str.repeat "  " n) true (memberYAML 0 key v)).
Proof.
  induction v as [| | b | z | s | items IH | fields IH] using value_ind'; intro Hplain.
  - split; [reflexivity|]. intros n key Hkey. unfold memberYAML.
    rewrite repeat_zero. now rewrite shift_null.
  - split; [reflexivity|]. intros n key Hkey. unfold memberYAML.
    rewrite repeat_zero. now rewrite shift_null.
  - split; [reflexivity|]. intros n key Hkey. now apply scalar_shift.
  - split; [reflexivity|]. intros n key Hkey. now apply scalar_shift.
  - split; [|intros n key Hkey; now apply scalar_shift].
    intro n. rewrite !convertToYAML_string. apply indexed_shift.
    eapply Forall_impl; [|exact (chars_plain s Hplain)].
    cbn. intros v (Hv & Hty) key Hkey.
    destruct v as [| |b|z|c|items|fields]; try discriminate Hty;
      try (now apply scalar_shift).
    unfold memberYAML. rewrite repeat_zero. now rewrite shift_null.
  - pose proof (plain_items items Hplain) as Hitems.
    assert (Hall : Forall (fun x =>
                     plain x = true /\
                     (forall n, convertToYAML x n
                                = shiftLines (Str.repeat "  " n) true (convertToYAML x 0)) /\
                     (forall n key, oneLine key = true ->
                                    memberYAML n key x
                                    = shiftLines (Str.repeat "  " n) true
                                                 (memberYAML 0 key x))) items).
    { rewrite Forall_forall in *. intros x Hx. split; [now apply Hitems|].
      apply (IH x Hx). now apply Hitems. }
    split.
    + intro n. rewrite !convertToYAML_array. apply indexed_shift.
      eapply Forall_impl; [|exact Hall]. cbn. intros x (_ & _ & Hx) key Hkey.
      now apply Hx.
    + intros n key Hkey. unfold memberYAML. rewrite repeat_zero.
      rewrite shift_header by assumption. do 4 f_equal.
      rewrite shift_cat.
      * rewrite map_map. f_equal. apply map_ext_in. intros item Hitem.
        rewrite Forall_forall in Hall. destruct (Hall _ Hitem) as (Hp & Hdoc & _).
        now apply item_shift.
      * apply Forall_forall. intros t Ht. apply in_map_iff in Ht as (item & <- & _).
        apply itemYAML_closed. intro k. apply (proj1 (yaml_closed item)).
  - pose proof (plain_fields fields Hplain) as Hfields.
    assert (Hdoc : forall n, convertToYAML (VObj fields) n
                             = shiftLines (Str.repeat "  " n) true
                                          (convertToYAML (VObj fields) 0)).
    { intro n. rewrite !convertToYAML_object. rewrite shift_cat.
      - rewrite map_map. f_equal. apply map_ext_in. intros (key, x) Hkv.
        rewrite Forall_forall in IH, Hfields.
        destruct (Hfields _ Hkv) as (Hkey & Hx). cbn [fst snd] in *.
        apply (IH _ Hkv Hx); assumption.
      - apply Forall_forall. intros t Ht. apply in_map_iff in Ht as (kv & <- & _).
        apply member_closed. }
    split; [exact Hdoc|].
    intros n key Hkey. unfold memberYAML. rewrite repeat_zero. cbn [Nat.add].
    rewrite shift_header by assumption. do 4 f_equal.
    rewrite (Hdoc (n + 1)), (Hdoc 1).
    rewrite shift_shift by (apply repeat_oneLine).
    rewrite repeat_add. reflexivity.
Qed.

(** X6. Nesting only moves text to the right.  On data in which no key and
    no string holds a line break, the text written at level [indent] is the
    text written at level 0 with two spaces times [indent] put before every
    line: a nested object reads as it would at the top, and so do the items
    of an array, whatever their own nesting. *)
Theorem convertToYAML_indents (data : value) (indent : nat) :
  plain data = true ->
  convertToYAML data indent = indented indent (convertToYAML data 0).
Proof.
  intro Hplain. rewrite indented_shift. now apply (proj1 (yaml_shift data Hplain)).
Qed.

(** What was exported of the button, written two levels down. *)
Lemma convertToYAML_indents_witness :
  plain exported = true /\
  convertToYAML exported 2 = indented 2 (convertToYAML exported 0).
Proof.
  split; [reflexivity | apply (convertToYAML_indents exported 2); reflexivity].
Defined.

(** A string that holds a line break is written on two lines, of which the
    second is not moved with the first. *)
Example convertToYAML_break_not_indented :
  convertToYAML (VObj [("note", VStr (String Str.newline "x"))]) 1
  <> indented 1 (convertToYAML (VObj [("note", VStr (String Str.newline "x"))]) 0).
Proof. vm_compute. discriminate. Qed.

End YamlDocFacts.

Module TypingsFacts.
Import Js Shape Schema Extract YamlDoc Typings Samples.
Import StrFacts LayoutFacts ExtractFacts VariantSetFacts.

(** *** Reading an array by the numeral of an index *)

Lemma ofNat_inj n m : Str.ofNat n = Str.ofNat m -> n = m.
Proof.
  unfold Str.ofNat. intro H.
  apply (f_equal NilEmpty.uint_of_string) in H. rewrite !NilEmpty.usu in H.
  injection H as H. now apply DecimalNat.Unsigned.to_uint_inj.
Qed.

Lemma atKey_skip {A : Type} (l : list A) : forall i j,
  j < i -> atKey (Str.ofNat j) i l = None.
Proof.
  induction l as [|a l IH]; intros i j Hj; [reflexivity|].
  cbn [atKey]. destruct (String.eqb (Str.ofNat i) (Str.ofNat j)) eqn:E.
  - apply String.eqb_eq, ofNat_inj in E. lia.
  - apply IH. lia.
Qed.

Lemma atKey_index {A : Type} (l : list A) : forall i p,
  atKey (Str.ofNat (i + p)) i l = nth_error l p.
Proof.
  induction l as [|a l IH]; intros i p; [now destruct p|].
  cbn [atKey]. destruct p as [|p].
  - now rewrite Nat.add_0_r, String.eqb_refl.
  - destruct (String.eqb (Str.ofNat i) (Str.ofNat (i + S p))) eqn:E.
    + apply String.eqb_eq, ofNat_inj in E. lia.
    + cbn [nth_error]. rewrite <- (IH (S i) p). f_equal. f_equal. lia.
Qed.

Lemma get_index (items : list value) p x :
  nth_error items p = Some x -> get (VArr items) (Str.ofNat p) = Ok x.
Proof.
  intro H. cbn [get].
  replace (String.eqb (Str.ofNat p) "length") with false.
  - pose proof (atKey_index items 0 p) as E. cbn [Nat.add] in E.
    rewrite E, H. reflexivity.
  - symmetry. apply String.eqb_neq. unfold Str.ofNat.
    intro E. apply (f_equal NilEmpty.uint_of_string) in E.
    rewrite NilEmpty.usu in E. discriminate E.
Qed.

(** *** The members of an anatomy that is an array *)

Lemma lines_by_index (line : value -> string -> result string)
                     (member : nat * ElementRecord -> string) (rs : list ElementRecord) :
  (forall p r, nth_error rs p = Some r ->
               line (sequence rs) (Str.ofNat p) = Ok (member (p, r))) ->
  mapM (line (sequence rs)) (indices (map ofRecord rs)) = Ok (map member (numbered rs)).
Proof.
  intro Hline. unfold indices, numbered. rewrite length_map.
  assert (H : forall rest pre,
             rs = pre ++ rest ->
             mapM (line (sequence rs)) (map Str.ofNat (seq (List.length pre) (List.length rest)))
             = Ok (map member (combine (seq (List.length pre) (List.length rest)) rest))).
  { induction rest as [|r rest IH]; intros pre Hrs; [reflexivity|].
    cbn [List.length seq map mapM combine].
    rewrite (Hline (List.length pre) r)
      by (rewrite Hrs, nth_error_app2, Nat.sub_diag by lia; reflexivity).
    cbn [bind].
    specialize (IH (pre ++ [r])). rewrite length_app, Nat.add_1_r in IH.
    rewrite IH by (rewrite <- app_assoc; exact Hrs). reflexivity. }
  exact (H rs [] eq_refl).
Qed.

Lemma tsAnatomyLine_record (rs : list ElementRecord) p r :
  nth_error rs p = Some r ->
  tsAnatomyLine (sequence rs) (Str.ofNat p) = Ok (tsMember (p, r)).
Proof.
  intro H. unfold tsAnatomyLine, sequence.
  rewrite (@get_index (map ofRecord rs) p (ofRecord r))
    by (rewrite nth_error_map, H; reflexivity).
  reflexivity.
Qed.

Lemma jsdocAnatomyLine_record (rs : list ElementRecord) p r :
  nth_error rs p = Some r ->
  jsdocAnatomyLine (sequence rs) (Str.ofNat p) = Ok (jsdocMember (p, r)).
Proof.
  intro H. unfold jsdocAnatomyLine, sequence.
  rewrite (@get_index (map ofRecord rs) p (ofRecord r))
    by (rewrite nth_error_map, H; reflexivity).
  reflexivity.
Qed.

Lemma hasKeys_sequence (rs : list ElementRecord) :
  rs <> [] -> hasKeys (sequence rs) = Ok true.
Proof.
  intro H. destruct rs as [|r rs]; [contradiction|]. reflexivity.
Qed.

Lemma tsInterface_empty cleanName kind line :
  tsInterface cleanName kind (VObj []) line = Ok EmptyString.
Proof. reflexivity. Qed.

Lemma jsdocTypedef_empty cleanName kind line :
  jsdocTypedef cleanName kind (VObj []) line = Ok EmptyString.
Proof. reflexivity. Qed.

Lemma tsComponent_anatomyOnly componentName anatomy :
  truthy anatomy = true ->
  tsComponent (anatomyOnly componentName anatomy) componentName
  = tsInterface (cleanNameOf componentName) "Anatomy" anatomy tsAnatomyLine.
Proof.
  intro Ht. unfold tsComponent, anatomyOnly.
  cbn [get lookup]. rewrite String.eqb_refl. cbn [orUndefined bind].
  change (section (VObj [("anatomy", anatomy)]) "props") with (Ok (VObj [])).
  change (section (VObj [("anatomy", anatomy)]) "elementStyles") with (Ok (VObj [])).
  change (section (VObj [("anatomy", anatomy)]) "tokens") with (Ok (VObj [])).
  change (section (VObj [("anatomy", anatomy)]) "anatomy")
    with (Ok (or anatomy (VObj []))).
  unfold or. rewrite Ht. cbn [bind]. rewrite !tsInterface_empty. cbn [bind].
  destruct (tsInterface _ _ _ _) as [text|]; [|reflexivity].
  cbn [bind append]. now rewrite !append_empty_r.
Qed.

Lemma jsdocComponent_anatomyOnly componentName anatomy :
  truthy anatomy = true ->
  jsdocComponent (anatomyOnly componentName anatomy) componentName
  = jsdocTypedef (cleanNameOf componentName) "Anatomy" anatomy jsdocAnatomyLine.
Proof.
  intro Ht. unfold jsdocComponent, anatomyOnly.
  cbn [get lookup]. rewrite String.eqb_refl. cbn [orUndefined bind].
  change (section (VObj [("anatomy", anatomy)]) "props") with (Ok (VObj [])).
  change (section (VObj [("anatomy", anatomy)]) "elementStyles") with (Ok (VObj [])).
  change (section (VObj [("anatomy", anatomy)]) "tokens") with (Ok (VObj [])).
  change (section (VObj [("anatomy", anatomy)]) "anatomy")
    with (Ok (or anatomy (VObj []))).
  unfold or. rewrite Ht. cbn [bind]. rewrite !jsdocTypedef_empty. cbn [bind].
  destruct (jsdocTypedef _ _ _ _) as [text|]; [|reflexivity].
  cbn [bind append]. now rewrite !append_empty_r.
Qed.

Lemma convert_anatomyOnly (component : value -> string -> result string)
                          componentName anatomy :
  each (component (anatomyOnly componentName anatomy))
       (forIn (anatomyOnly componentName anatomy))
  = component (anatomyOnly componentName anatomy) componentName.
Proof.
  unfold each, anatomyOnly. cbn [forIn keys map fst mapM].
  destruct (component _ _) as [text|]; [|reflexivity].
  cbn [bind cat fold_right]. now rewrite append_empty_r.
Qed.

Lemma anatomyOnly_ts componentName (rs : list ElementRecord) :
  rs <> [] ->
  convertToTypeScript (anatomyOnly componentName (sequence rs))
  = Ok ("interface " +++ cleanNameOf componentName +++ "Anatomy" +++ " {" +++
        Tree.newlineStr +++ cat (map tsMember (numbered rs)) +++
        "}" +++ Tree.newlineStr +++ Tree.newlineStr).
Proof.
  intro Hne. unfold convertToTypeScript.
  rewrite convert_anatomyOnly, tsComponent_anatomyOnly by reflexivity.
  unfold tsInterface, whenKeys. rewrite (hasKeys_sequence Hne). cbn [bind].
  unfold each. change (forIn (sequence rs)) with (indices (map ofRecord rs)).
  rewrite (lines_by_index tsAnatomyLine tsMember rs (tsAnatomyLine_record rs)).
  reflexivity.
Qed.

Lemma anatomyOnly_jsdoc componentName (rs : list ElementRecord) :
  rs <> [] ->
  convertToJSDoc (anatomyOnly componentName (sequence rs))
  = Ok ("/**" +++ Tree.newlineStr +++
        " * @typedef {Object} " +++ cleanNameOf componentName +++ "Anatomy" +++
        Tree.newlineStr +++ cat (map jsdocMember (numbered rs)) +++
        " */" +++ Tree.newlineStr +++ Tree.newlineStr).
Proof.
  intro Hne. unfold convertToJSDoc.
  rewrite convert_anatomyOnly, jsdocComponent_anatomyOnly by reflexivity.
  unfold jsdocTypedef, whenKeys. rewrite (hasKeys_sequence Hne). cbn [bind].
  unfold each. change (forIn (sequence rs)) with (indices (map ofRecord rs)).
  rewrite (lines_by_index jsdocAnatomyLine jsdocMember rs (jsdocAnatomyLine_record rs)).
  reflexivity.
Qed.

(** X7. The two declaration formats name the elements of an extracted
    anatomy by their positions.  For a component that has layers, the
    anatomy the extractor writes is an array, the loops over its keys visit
    its indices, and the member written for a layer is named by the position
    of the layer in document order, not by the name of the layer; its type
    and its path are those of the layer. *)
Theorem anatomy_members_by_position (componentName : string) (node : SceneNode) :
  layerType node <> "COMPONENT_SET" ->
  layerChildren node <> [] ->
  convertToTypeScript (anatomyOnly componentName (ExportAnatomy node))
  = Ok ("interface " +++ cleanNameOf componentName +++ "Anatomy" +++ " {" +++
        Tree.newlineStr +++
        cat (map tsMember (numbered (recordsOf (layerChildren node)))) +++
        "}" +++ Tree.newlineStr +++ Tree.newlineStr) /\
  convertToJSDoc (anatomyOnly componentName (ExportAnatomy node))
  = Ok ("/**" +++ Tree.newlineStr +++
        " * @typedef {Object} " +++ cleanNameOf componentName +++ "Anatomy" +++
        Tree.newlineStr +++
        cat (map jsdocMember (numbered (recordsOf (layerChildren node)))) +++
        " */" +++ Tree.newlineStr +++ Tree.newlineStr).
Proof.
  intros Hty Hkids.
  assert (Hrs : recordsOf (layerChildren node) <> []).
  { destruct (layerChildren node) as [|[nm ty kids] rest]; [contradiction|]. discriminate. }
  rewrite (ExportAnatomy_component _ Hty).
  change (flat_map listing (elementsOf node)) with (recordsOf (layerChildren node)).
  split; [now apply anatomyOnly_ts | now apply anatomyOnly_jsdoc].
Qed.

Lemma anatomy_members_by_position_witness :
  layerType button <> "COMPONENT_SET" /\
  layerChildren button <> [] /\
  convertToTypeScript (anatomyOnly "Primary Button" (ExportAnatomy button))
  = Ok ("interface " +++ cleanNameOf "Primary Button" +++ "Anatomy" +++ " {" +++
        Tree.newlineStr +++
        cat (map tsMember (numbered (recordsOf (layerChildren button)))) +++
        "}" +++ Tree.newlineStr +++ Tree.newlineStr).
Proof.
  split; [discriminate|]. split; [discriminate|].
  apply (@anatomy_members_by_position "Primary Button" button); discriminate.
Defined.

(** *** The members of an anatomy that is a mapping of variants *)

Lemma atKey_name {A : Type} k (l : list A) :
  NilEmpty.uint_of_string k = None -> forall i, atKey k i l = None.
Proof.
  intro Hk. induction l as [|a l IH]; intro i; [reflexivity|].
  cbn [atKey]. destruct (String.eqb (Str.ofNat i) k) eqn:E; [|apply IH].
  apply String.eqb_eq in E. subst k. unfold Str.ofNat in Hk.
  rewrite NilEmpty.usu in Hk. discriminate Hk.
Qed.

Lemma lookup_array (fields : list (string * value)) k :
  Forall (fun kv => exists items, snd kv = VArr items) fields ->
  In k (map fst fields) ->
  exists items, get (VObj fields) k = Ok (VArr items).
Proof.
  induction 1 as [|(k', v) rest Hv Hrest IH]; intro Hin; [contradiction|].
  cbn [get lookup]. destruct (String.eqb k' k) eqn:E.
  - destruct Hv as (items & Hv). cbn [snd] in Hv. subst v. now exists items.
  - destruct Hin as [Hk|Hin]; [cbn in Hk; subst; now rewrite String.eqb_refl in E|].
    apply (IH Hin).
Qed.

Lemma lines_by_variant (line : value -> string -> result string)
                       (member : string -> string) (anatomy : value) (ks : list string) :
  (forall k, In k ks -> line anatomy k = Ok (member k)) ->
  mapM (line anatomy) ks = Ok (map member ks).
Proof.
  induction ks as [|k ks IH]; intro H; [reflexivity|].
  cbn [mapM map]. rewrite (H k) by (now left). cbn [bind].
  rewrite IH by (intros; apply H; now right). reflexivity.
Qed.

Lemma variants_ts componentName (fields : list (string * value)) :
  fields <> [] ->
  Forall (fun kv => exists items, snd kv = VArr items) fields ->
  convertToTypeScript (anatomyOnly componentName (VObj fields))
  = Ok ("interface " +++ cleanNameOf componentName +++ "Anatomy" +++ " {" +++
        Tree.newlineStr +++ cat (map tsVariantMember (map fst fields)) +++
        "}" +++ Tree.newlineStr +++ Tree.newlineStr) /\
  convertToJSDoc (anatomyOnly componentName (VObj fields))
  = Ok ("/**" +++ Tree.newlineStr +++
        " * @typedef {Object} " +++ cleanNameOf componentName +++ "Anatomy" +++
        Tree.newlineStr +++ cat (map jsdocVariantMember (map fst fields)) +++
        " */" +++ Tree.newlineStr +++ Tree.newlineStr).
Proof.
  intros Hne Hall.
  assert (Hkeys : hasKeys (VObj fields) = Ok true)
    by (destruct fields; [contradiction | reflexivity]).
  split.
  - unfold convertToTypeScript.
    rewrite convert_anatomyOnly, tsComponent_anatomyOnly by reflexivity.
    unfold tsInterface, whenKeys. rewrite Hkeys. cbn [bind].
    unfold each. change (forIn (VObj fields)) with (map fst fields).
    rewrite (@lines_by_variant tsAnatomyLine tsVariantMember); [reflexivity|].
    intros k Hk. unfold tsAnatomyLine.
    destruct (lookup_array k Hall Hk) as (items & ->). cbn [bind get String.eqb Ascii.eqb Bool.eqb].
    rewrite !atKey_name by reflexivity. reflexivity.
  - unfold convertToJSDoc.
    rewrite convert_anatomyOnly, jsdocComponent_anatomyOnly by reflexivity.
    unfold jsdocTypedef, whenKeys. rewrite Hkeys. cbn [bind].
    unfold each. change (forIn (VObj fields)) with (map fst fields).
    rewrite (@lines_by_variant jsdocAnatomyLine jsdocVariantMember); [reflexivity|].
    intros k Hk. unfold jsdocAnatomyLine.
    destruct (lookup_array k Hall Hk) as (items & ->). cbn [bind get String.eqb Ascii.eqb Bool.eqb].
    rewrite !atKey_name by reflexivity. reflexivity.
Qed.

Lemma variantAnatomies_arrays (children : list SceneNode) :
  forall acc,
    Forall (fun kv => exists items, snd kv = VArr items) acc ->
    Forall (fun kv => exists items, snd kv = VArr items)
           (fold_left addVariantAnatomy children acc) /\
    (acc <> [] \/
     Exists (fun v => layerType v = "COMPONENT" /\ layerName v <> "__proto__") children ->
     fold_left addVariantAnatomy children acc <> []).
Proof.
  induction children as [|v rest IH]; intros acc Hacc.
  - cbn. split; [assumption|]. intros [H|H]; [assumption | inversion H].
  - cbn [fold_left].
    assert (Hstep : Forall (fun kv => exists items, snd kv = VArr items)
                           (addVariantAnatomy acc v) /\
                    (acc <> [] \/
                     (layerType v = "COMPONENT" /\ layerName v <> "__proto__") ->
                     addVariantAnatomy acc v <> [])).
    { unfold addVariantAnatomy.
      destruct (String.eqb (layerType v) "COMPONENT") eqn:E.
      - split.
        + apply (@ObjFacts.setProp_Forall (fun x => exists items, x = VArr items));
            [eexists; reflexivity | assumption].
        + intros [H|[_ H]]; [|now apply ObjFacts.setProp_nonempty].
          unfold Obj.setProp. destruct (String.eqb (layerName v) "__proto__"); [assumption|].
          destruct (Obj.hasKey (layerName v) acc) eqn:Ek.
          * destruct acc as [|(k', v') more]; [contradiction|].
            cbn [Obj.replaceValue]. destruct (String.eqb k' (layerName v)); discriminate.
          * destruct acc as [|(k', v') more]; [contradiction|].
            cbn [Obj.insertKey]. destruct (Obj.comesBefore (layerName v) k'); discriminate.
      - split; [assumption|]. intros [H|[H _]]; [assumption|].
        rewrite H in E. discriminate E. }
    destruct Hstep as (Harr & Hne). destruct (IH _ Harr) as (Harr' & Hne').
    split; [assumption|]. intros [H|H].
    + apply Hne'. left. apply Hne. now left.
    + inversion H as [? ? Hc|? ? Hc]; subst.
      * apply Hne'. left. apply Hne. now right.
      * apply Hne'. now right.
Qed.

(** X8. Of a set of variants, none of them named [__proto__], the two
    declaration formats show the names of the variants only.  The anatomy
    the extractor writes for a set maps each variant to the array of its
    elements; the loops over its keys visit the names of the variants, and
    an array has no [type] and no [path]: every member is written with the
    type [undefined] and the path [undefined], and no element of any variant
    is written.  (A variant named [__proto__] would make its array the
    prototype of the mapping, and the loops would visit its indices.) *)
Theorem set_members_undefined (componentName : string) (node : SceneNode) :
  layerType node = "COMPONENT_SET" ->
  variantsOfSet node <> [] ->
  Forall (fun v => layerName v <> "__proto__") (variantsOfSet node) ->
  exists variants,
    keys (ExportAnatomy node) = Ok variants /\
    convertToTypeScript (anatomyOnly componentName (ExportAnatomy node))
    = Ok ("interface " +++ cleanNameOf componentName +++ "Anatomy" +++ " {" +++
          Tree.newlineStr +++ cat (map tsVariantMember variants) +++
          "}" +++ Tree.newlineStr +++ Tree.newlineStr) /\
    convertToJSDoc (anatomyOnly componentName (ExportAnatomy node))
    = Ok ("/**" +++ Tree.newlineStr +++
          " * @typedef {Object} " +++ cleanNameOf componentName +++ "Anatomy" +++
          Tree.newlineStr +++ cat (map jsdocVariantMember variants) +++
          " */" +++ Tree.newlineStr +++ Tree.newlineStr).
Proof.
  intros Hty Hne Hall.
  assert (Hkids : layerChildren node <> []).
  { intro E. apply Hne. unfold variantsOfSet. now rewrite E. }
  unfold ExportAnatomy. rewrite Hty. cbn [String.eqb Ascii.eqb Bool.eqb andb].
  replace (Nat.ltb 0 (List.length (layerChildren node))) with true
    by (destruct (layerChildren node); [contradiction | reflexivity]).
  destruct (@variantAnatomies_arrays (layerChildren node) [] (Forall_nil _)) as (Harr & Hsome).
  assert (Hfields : fold_left addVariantAnatomy (layerChildren node) [] <> []).
  { apply Hsome. right. unfold variantsOfSet in Hne.
    destruct (filter _ _) as [|v rest] eqn:E; [contradiction|].
    assert (Hin : In v (v :: rest)) by (now left).
    rewrite <- E in Hin.
    rewrite Forall_forall in Hall. pose proof (Hall v Hin) as Hname.
    apply filter_In in Hin as (Hin & Hv).
    apply Exists_exists. exists v. split; [assumption|].
    split; [now apply String.eqb_eq | assumption]. }
  exists (map fst (fold_left addVariantAnatomy (layerChildren node) [])).
  split; [reflexivity|]. now apply variants_ts.
Qed.

Lemma set_members_undefined_witness :
  layerType buttonSet = "COMPONENT_SET" /\
  variantsOfSet buttonSet <> [] /\
  Forall (fun v => layerName v <> "__proto__") (variantsOfSet buttonSet) /\
  exists variants,
    keys (ExportAnatomy buttonSet) = Ok variants /\
    convertToTypeScript (anatomyOnly "Button" (ExportAnatomy buttonSet))
    = Ok ("interface " +++ cleanNameOf "Button" +++ "Anatomy" +++ " {" +++
          Tree.newlineStr +++ cat (map tsVariantMember variants) +++
          "}" +++ Tree.newlineStr +++ Tree.newlineStr) /\
    convertToJSDoc (anatomyOnly "Button" (ExportAnatomy buttonSet))
    = Ok ("/**" +++ Tree.newlineStr +++
          " * @typedef {Object} " +++ cleanNameOf "Button" +++ "Anatomy" +++
          Tree.newlineStr +++ cat (map jsdocVariantMember variants) +++
          " */" +++ Tree.newlineStr +++ Tree.newlineStr).
Proof.
  assert (Hall : Forall (fun v => layerName v <> "__proto__") (variantsOfSet buttonSet))
    by (repeat constructor; discriminate).
  split; [reflexivity|]. split; [discriminate|]. split; [exact Hall|].
  apply (@set_members_undefined "Button" buttonSet);
    [reflexivity | discriminate | exact Hall].
Defined.

End TypingsFacts.

Module PropsFacts.
Import Js Obj Schema Typings Props Samples.
Import StrFacts LayoutFacts ObjFacts.

(** *** The name of a property *)

Lemma split_first c s : forall cur,
  hd EmptyString (Str.splitAux (Str.ofChar c) s cur 0) = cur +++ upTo c s.
Proof.
  induction s as [|a s IH]; intro cur.
  - cbn. now rewrite append_empty_r.
  - cbn [Str.splitAux upTo].
    change (Str.startsWith (String a s) (Str.ofChar c))
      with (Ascii.eqb c a && Str.startsWith s EmptyString).
    rewrite startsWith_nil, andb_true_r, Ascii.eqb_sym.
    destruct (Ascii.eqb a c).
    + cbn [hd]. now rewrite append_empty_r.
    + rewrite IH, append_assoc. reflexivity.
Qed.

Lemma propNameOf_upTo propKey : propNameOf propKey = upTo "#" propKey.
Proof. unfold propNameOf, Str.split. apply (split_first "#" propKey EmptyString). Qed.

Lemma upTo_free c s : Str.includes (upTo c s) (Str.ofChar c) = false.
Proof.
  induction s as [|a s IH]; [reflexivity|]. cbn [upTo].
  destruct (Ascii.eqb a c) eqn:E; [reflexivity|].
  cbn [Str.includes].
  change (Str.startsWith (String a (upTo c s)) (Str.ofChar c))
    with (Ascii.eqb c a && Str.startsWith (upTo c s) EmptyString).
  now rewrite Ascii.eqb_sym, E, IH.
Qed.

(** *** Reading what was written *)

Lemma lookup_replaceValue k v fields k' :
  lookup k' (replaceValue k v fields)
  = if String.eqb k k' && hasKey k fields then Some v else lookup k' fields.
Proof.
  induction fields as [|(k0, v0) rest IH].
  - cbn. now rewrite andb_false_r.
  - cbn [replaceValue hasKey existsb fst]. destruct (String.eqb k0 k) eqn:E0.
    + apply String.eqb_eq in E0. subst k0. cbn [lookup orb].
      rewrite andb_true_r. now destruct (String.eqb k k').
    + cbn [lookup orb]. destruct (String.eqb k0 k') eqn:E1.
      * apply String.eqb_eq in E1. subst k0. now rewrite String.eqb_sym, E0.
      * exact IH.
Qed.

Lemma lookup_insertKey k v fields k' :
  hasKey k fields = false ->
  lookup k' (insertKey k v fields) = if String.eqb k k' then Some v else lookup k' fields.
Proof.
  induction fields as [|(k0, v0) rest IH]; intro H.
  - reflexivity.
  - cbn [hasKey existsb fst] in H. apply orb_false_iff in H as (H0 & Hrest).
    cbn [insertKey]. destruct (comesBefore k k0).
    + reflexivity.
    + cbn [lookup]. destruct (String.eqb k0 k') eqn:E1.
      * apply String.eqb_eq in E1. subst k0. now rewrite String.eqb_sym, H0.
      * now apply IH.
Qed.

(** A write is read back, and leaves the other keys as they were. *)
Lemma lookup_setProp k v fields k' :
  k <> "__proto__" ->
  lookup k' (setProp k v fields) = if String.eqb k k' then Some v else lookup k' fields.
Proof.
  intro Hk. apply String.eqb_neq in Hk. unfold setProp. rewrite Hk.
  destruct (hasKey k fields) eqn:E.
  - rewrite lookup_replaceValue, E. now rewrite andb_true_r.
  - now apply lookup_insertKey.
Qed.

Lemma setProp_keys k v fields x :
  In x (map fst (setProp k v fields)) -> x = k \/ In x (map fst fields).
Proof.
  unfold setProp. destruct (String.eqb k "__proto__"); [now right|].
  destruct (hasKey k fields).
  - rewrite replaceValue_keys. now right.
  - now rewrite insertKey_keys.
Qed.

(** *** The names of the exported properties *)

Lemma exportProperty_names cp props propKey props' :
  exportProperty cp props propKey = Ok props' ->
  forall x, In x (map fst props') -> x = propNameOf propKey \/ In x (map fst props).
Proof.
  unfold exportProperty. intros H x Hx.
  destruct (get cp propKey) as [propDef|]; [|discriminate]. cbn [bind] in H.
  destruct (propertyOf propDef) as [[prop|]|]; cbn [bind] in H; try discriminate.
  - injection H as <-. now apply setProp_keys in Hx.
  - injection H as <-. now right.
Qed.

Lemma exportProperties_names cp (ks : list string) : forall props props',
  foldM (exportProperty cp) ks props = Ok props' ->
  forall x, In x (map fst props') ->
            (exists propKey, In propKey ks /\ x = propNameOf propKey) \/
            In x (map fst props).
Proof.
  induction ks as [|k ks IH]; intros props props' H x Hx; cbn [foldM] in H.
  - injection H as <-. now right.
  - destruct (exportProperty cp props k) as [props1|] eqn:E; [|discriminate].
    cbn [bind] in H. destruct (IH _ _ H x Hx) as [(propKey & Hin & ->)|Hin].
    + left. exists propKey. split; [now right | reflexivity].
    + destruct (exportProperty_names _ _ _ E _ Hin) as [->|Hin'].
      * left. exists k. split; [now left | reflexivity].
      * now right.
Qed.

(** X9. The names of the exported properties carry no suffix: every key of
    what [ExportProperties] returns, as [Object.keys] lists them, is a key
    of the definitions cut before its first [#], and holds no [#]. *)
Theorem exported_names (componentProperties : value) (exported : value) :
  ExportProperties componentProperties = Ok exported ->
  exists props,
    exported = VObj props /\
    Forall (fun name =>
              Str.includes name "#" = false /\
              exists propKey,
                In propKey (forIn componentProperties) /\ name = upTo "#" propKey)
           (map fst props).
Proof.
  intros H. unfold ExportProperties in H.
  destruct (negb (truthy componentProperties)).
  - injection H as <-. exists []. split; [reflexivity | constructor].
  - destruct (foldM _ _ _) as [props|] eqn:E; [|discriminate].
    cbn [bind] in H. injection H as <-. exists props. split; [reflexivity|].
    apply Forall_forall. intros name Hname.
    destruct (exportProperties_names _ _ _ E _ Hname) as [(propKey & Hin & ->)|[]].
    rewrite propNameOf_upTo. split; [apply (upTo_free "#") | now exists propKey].
Qed.

(** *** The types of the exported properties *)

Lemma get_length (items : list value) :
  get (VArr items) "length" = Ok (VNum (Z.of_nat (List.length items))).
Proof. reflexivity. Qed.

Lemma isBooleanVariant_options (options : list string) :
  isBooleanVariant (VArr (map VStr options)) = Ok (booleanPair options).
Proof.
  unfold isBooleanVariant, booleanPair. rewrite get_length. cbn [bind strictEq].
  rewrite length_map.
  replace (Z.eqb (Z.of_nat (List.length options)) 2) with (Nat.eqb (List.length options) 2).
  2: { destruct (Nat.eqb_spec (List.length options) 2) as [->|Hne]; [reflexivity|].
       symmetry. apply Z.eqb_neq. lia. }
  destruct (Nat.eqb (List.length options) 2); [|reflexivity].
  cbn [includesValue bind andb].
  assert (E : forall x, existsb (strictEq (VStr x)) (map VStr options)
                        = existsb (String.eqb x) options).
  { intro x. induction options as [|o l IH]; [reflexivity|]. cbn. now rewrite IH. }
  rewrite !E. now destruct (existsb (String.eqb "true") options).
Qed.

Lemma quoted_options (glue : string) (options : list string) :
  Str.join glue (map quoted (map VStr options))
  = Str.join glue (map (fun o => "'" +++ o +++ "'") options).
Proof. now rewrite map_map. Qed.

(** A definition is given the type [tsTypeOf] and [jsdocTypeOf] name, or is
    not exported. *)
Lemma propertyOf_def (d : PropertyDef) :
  exists written,
    propertyOf (ofDef d) = Ok written /\
    match written with
    | Some prop =>
        exists t t', tsTypeOf d = Some t /\ jsdocTypeOf d = Some t' /\
                     tsTypeString prop = Ok t /\ jsdocTypeString prop = Ok t'
    | None => tsTypeOf d = None /\ jsdocTypeOf d = None
    end.
Proof.
  unfold propertyOf, ofDef, tsTypeOf, jsdocTypeOf.
  cbn [get lookup String.eqb Ascii.eqb Bool.eqb orUndefined bind strictEq].
  destruct (String.eqb (defType d) "BOOLEAN").
  { eexists. split; [reflexivity|]. now exists "boolean", "boolean". }
  destruct (String.eqb (defType d) "VARIANT").
  { cbn [or truthy]. rewrite isBooleanVariant_options. cbn [bind].
    destruct (booleanPair (defOptions d)).
    - eexists. split; [reflexivity|]. now exists "boolean", "boolean".
    - eexists. split; [reflexivity|]. do 2 eexists.
      split; [reflexivity|]. split; [reflexivity|].
      unfold tsTypeString, jsdocTypeString, enumValues.
      cbn [get lookup String.eqb Ascii.eqb Bool.eqb orUndefined bind strictEq truthy].
      rewrite !quoted_options. split; reflexivity. }
  destruct (String.eqb (defType d) "TEXT").
  { eexists. split; [reflexivity|]. now exists "string", "string". }
  destruct (String.eqb (defType d) "INSTANCE_SWAP").
  { eexists. split; [reflexivity|]. now exists "React.ReactNode", "ReactNode". }
  eexists. split; [reflexivity|]. split; reflexivity.
Qed.

Lemma get_definition (defs : list (string * PropertyDef)) key d :
  NoDup (map fst defs) -> In (key, d) defs ->
  get (definitions defs) key = Ok (ofDef d).
Proof.
  unfold definitions. cbn [get]. intros Hnd Hin.
  induction defs as [|(k0, d0) rest IH]; [contradiction|].
  cbn [map fst] in Hnd. inversion Hnd as [|? ? Hk0 Hrest]; subst.
  cbn [map lookup fst snd]. destruct Hin as [Heq|Hin].
  - injection Heq as -> ->. now rewrite String.eqb_refl.
  - destruct (String.eqb k0 key) eqn:E; [|now apply IH].
    apply String.eqb_eq in E. subst k0. exfalso. apply Hk0.
    apply in_map_iff. now exists (key, d).
Qed.

Lemma lookup_absent k (fields : list (string * value)) :
  ~ In k (map fst fields) -> lookup k fields = None.
Proof.
  induction fields as [|(k0, v0) rest IH]; intro H; [reflexivity|].
  cbn [lookup]. destruct (String.eqb k0 k) eqn:E.
  - apply String.eqb_eq in E. subst k0. exfalso. apply H. now left.
  - apply IH. intro Hin. apply H. now right.
Qed.

Lemma typedAs_kept props name prop kd :
  name <> "__proto__" ->
  nameOfDef kd <> name -> typedAs props kd -> typedAs (setProp name prop props) kd.
Proof.
  unfold typedAs, nameOfDef. intros Hname Hne H. rewrite lookup_setProp by assumption.
  replace (String.eqb name (propNameOf (fst kd))) with false; [exact H|].
  symmetry. apply String.eqb_neq. congruence.
Qed.

Lemma exportProperties_typed (defs : list (string * PropertyDef)) :
  NoDup (map nameOfDef defs) ->
  NoDup (map fst defs) ->
  Forall (fun kd => nameOfDef kd <> "__proto__") defs ->
  forall rest pre props,
    defs = pre ++ rest ->
    Forall (typedAs props) pre ->
    (forall x, In x (map fst props) -> In x (map nameOfDef pre)) ->
    exists props',
      foldM (exportProperty (definitions defs)) (map fst rest) props = Ok props' /\
      Forall (typedAs props') defs.
Proof.
  intros Hnames Hkeys Hproto.
  induction rest as [|(key, d) rest IH]; intros pre props Hdefs Hpre Hown.
  - exists props. rewrite app_nil_r in Hdefs. subst pre. split; [reflexivity | assumption].
  - cbn [map fst foldM]. unfold exportProperty at 1.
    rewrite (@get_definition defs key d Hkeys)
      by (rewrite Hdefs; apply in_or_app; right; now left).
    cbn [bind].
    assert (Hfresh : ~ In (propNameOf key) (map nameOfDef pre)).
    { rewrite Hdefs, map_app in Hnames. cbn [map] in Hnames.
      apply NoDup_remove_2 in Hnames. intro H. apply Hnames.
      apply in_or_app. now left. }
    assert (Hname : propNameOf key <> "__proto__").
    { rewrite Forall_forall in Hproto. apply (Hproto (key, d)).
      rewrite Hdefs. apply in_or_app. right. now left. }
    destruct (propertyOf_def d) as (written & -> & Hwritten). cbn [bind].
    destruct written as [prop|].
    + destruct Hwritten as (t & t' & Ht & Ht' & Hts & Hjs).
      apply (IH (pre ++ [(key, d)])).
      * now rewrite <- app_assoc.
      * apply Forall_app. split.
        -- apply Forall_forall. intros kd Hkd. apply typedAs_kept; [assumption| |].
           ++ intro E. apply Hfresh. rewrite <- E. now apply in_map.
           ++ rewrite Forall_forall in Hpre. now apply Hpre.
        -- constructor; [|constructor]. unfold typedAs. cbn [fst snd].
           rewrite Ht, Ht'. exists prop.
           rewrite lookup_setProp, String.eqb_refl by assumption. auto.
      * intros x Hx. rewrite map_app. apply in_or_app.
        apply setProp_keys in Hx as [->|Hx]; [right; now left | left; now apply Hown].
    + destruct Hwritten as (Ht & Ht').
      apply (IH (pre ++ [(key, d)])).
      * now rewrite <- app_assoc.
      * apply Forall_app. split; [assumption|].
        constructor; [|constructor]. unfold typedAs. cbn [fst snd]. rewrite Ht.
        apply lookup_absent. intro Hin. now apply Hfresh, Hown.
      * intros x Hx. rewrite map_app. apply in_or_app. left. now apply Hown.
Qed.

(** X10. The types of the exported properties in the two declaration
    formats.  When no two definitions share a name and none is named
    [__proto__], every definition is read
    back from what [ExportProperties] returns under its name, with these
    types: a variant whose options are [true] and [false], in one order or
    the other, is a [boolean]; any other variant is the union of its options,
    quoted, in their order; a text is a [string]; an instance swap is a
    [React.ReactNode] ([ReactNode] in JSDoc); a boolean is a [boolean].  A
    definition of another type is not exported. *)
Theorem exported_types (defs : list (string * PropertyDef)) :
  NoDup (map nameOfDef defs) ->
  Forall (fun kd => nameOfDef kd <> "__proto__") defs ->
  exists props,
    ExportProperties (definitions defs) = Ok (VObj props) /\
    Forall (typedAs props) defs.
Proof.
  intros Hnames Hproto.
  assert (Hkeys : NoDup (map fst defs)).
  { unfold nameOfDef in Hnames. rewrite <- (map_map fst propNameOf) in Hnames.
    now apply NoDup_map_inv in Hnames. }
  destruct (@exportProperties_typed defs Hnames Hkeys Hproto defs [] [] eq_refl
              (Forall_nil _))
    as (props & Hrun & Htyped); [intros x []|].
  exists props. split; [|assumption].
  assert (Hin : forIn (definitions defs) = map fst defs).
  { unfold definitions, forIn. cbn [keys]. rewrite map_map. cbn [fst]. reflexivity. }
  unfold ExportProperties. rewrite Hin, Hrun. reflexivity.
Qed.

Lemma exported_types_witness :
  NoDup (map nameOfDef buttonProperties) /\
  Forall (fun kd => nameOfDef kd <> "__proto__") buttonProperties /\
  exists props,
    ExportProperties (definitions buttonProperties) = Ok (VObj props) /\
    Forall (typedAs props) buttonProperties.
Proof.
  assert (Hnames : NoDup (map nameOfDef buttonProperties)).
  { vm_compute. repeat constructor; cbn; intuition discriminate. }
  assert (Hproto : Forall (fun kd => nameOfDef kd <> "__proto__") buttonProperties).
  { repeat constructor; vm_compute; discriminate. }
  split; [exact Hnames|]. split; [exact Hproto|].
  apply (@exported_types buttonProperties Hnames Hproto).
Defined.

Lemma exported_names_witness :
  ExportProperties (definitions buttonProperties)
  = Ok (VObj [("Size", VObj [("type", VStr "enum");
                             ("values", VArr [VStr "Small"; VStr "Large"])]);
              ("Disabled", VObj [("type", VStr "boolean")]);
              ("Label", VObj [("type", VStr "string"); ("default", VStr "Save")]);
              ("Icon", VObj [("type", VStr "instance")]);
              ("Loading", VObj [("type", VStr "boolean")])]) /\
  exists props,
    VObj [("Size", VObj [("type", VStr "enum");
                         ("values", VArr [VStr "Small"; VStr "Large"])]);
          ("Disabled", VObj [("type", VStr "boolean")]);
          ("Label", VObj [("type", VStr "string"); ("default", VStr "Save")]);
          ("Icon", VObj [("type", VStr "instance")]);
          ("Loading", VObj [("type", VStr "boolean")])] = VObj props /\
    Forall (fun name =>
              Str.includes name "#" = false /\
              exists propKey,
                In propKey (forIn (definitions buttonProperties)) /\
                name = upTo "#" propKey)
           (map fst props).
Proof.
  assert (Hrun : ExportProperties (definitions buttonProperties)
                 = Ok (VObj [("Size", VObj [("type", VStr "enum");
                                            ("values", VArr [VStr "Small"; VStr "Large"])]);
                             ("Disabled", VObj [("type", VStr "boolean")]);
                             ("Label", VObj [("type", VStr "string");
                                             ("default", VStr "Save")]);
                             ("Icon", VObj [("type", VStr "instance")]);
                             ("Loading", VObj [("type", VStr "boolean")])]))
    by (vm_compute; reflexivity).
  split; [exact Hrun|].
  exact (@exported_names _ _ Hrun).
Defined.

End PropsFacts.

Module FilesFacts.
Import Files TypingsFacts.

(** *** A sanitized name *)

Lemma hyphenate_spaces name : forall inRun,
  Forall (fun c => spaceChar c = false) (hyphenate name inRun).
Proof.
  induction name as [|c rest IH]; intro inRun; [constructor|].
  cbn [hyphenate]. destruct (spaceChar c) eqn:E.
  - destruct inRun; [apply IH|]. constructor; [reflexivity | apply IH].
  - constructor; [assumption | apply IH].
Qed.

Lemma hyphenate_invalid name : forall inRun,
  Forall (fun c => invalidChar c = false) name ->
  Forall (fun c => invalidChar c = false) (hyphenate name inRun).
Proof.
  induction name as [|c rest IH]; intros inRun H; [constructor|].
  inversion H as [|? ? Hc Hrest]; subst. cbn [hyphenate].
  destruct (spaceChar c).
  - destruct inRun; [now apply IH|]. constructor; [reflexivity | now apply IH].
  - constructor; [assumption | now apply IH].
Qed.

Lemma removeInvalid_invalid name :
  Forall (fun c => invalidChar c = false) (removeInvalid name).
Proof.
  unfold removeInvalid. apply Forall_forall. intros c Hc.
  apply filter_In in Hc as (_ & Hc). now apply negb_true_iff.
Qed.

Lemma removeInvalid_fixed name :
  Forall (fun c => invalidChar c = false) name -> removeInvalid name = name.
Proof.
  unfold removeInvalid. induction 1 as [|c rest Hc Hrest IH]; [reflexivity|].
  cbn [filter]. now rewrite Hc, IH.
Qed.

Lemma hyphenate_fixed name :
  Forall (fun c => spaceChar c = false) name -> hyphenate name false = name.
Proof.
  induction 1 as [|c rest Hc Hrest IH]; [reflexivity|].
  cbn [hyphenate]. now rewrite Hc, IH.
Qed.

Lemma firstn_kept {A : Type} n (l : list A) x : In x (firstn n l) -> In x l.
Proof.
  revert l. induction n as [|n IH]; intros [|a l] H; try contradiction.
  cbn [firstn] in H. destruct H as [->|H]; [now left | right; now apply IH].
Qed.

(** X11. A sanitized name is safe, and a safe name is left as it is: what
    [sanitizeFilename] returns has at most 255 code units, none of them one
    of the nine characters a file name cannot hold and none of them white
    space; and on a name that is already so the function changes nothing, so
    that sanitizing twice is sanitizing once. *)
Theorem sanitizeFilename_safe (name : jsString) :
  safeName (sanitizeFilename name) /\
  (safeName name -> sanitizeFilename name = name) /\
  sanitizeFilename (sanitizeFilename name) = sanitizeFilename name.
Proof.
  assert (Hsafe : forall n, safeName (sanitizeFilename n)).
  { intro n. unfold safeName, sanitizeFilename. split.
    - rewrite length_firstn. lia.
    - pose proof (hyphenate_spaces (removeInvalid n) false) as Hs.
      pose proof (hyphenate_invalid false (removeInvalid_invalid n)) as Hi.
      rewrite Forall_forall in *. intros c Hc.
      pose proof (firstn_kept _ _ _ Hc) as Hc'.
      split; [now apply Hi | now apply Hs]. }
  assert (Hfixed : forall n, safeName n -> sanitizeFilename n = n).
  { intros n (Hlen & Hall). unfold sanitizeFilename.
    rewrite removeInvalid_fixed, hyphenate_fixed.
    - now apply firstn_all2.
    - eapply Forall_impl; [|exact Hall]. cbn. tauto.
    - eapply Forall_impl; [|exact Hall]. cbn. tauto. }
  split; [apply Hsafe|]. split; [apply Hfixed|]. apply Hfixed, Hsafe.
Qed.

(** *** The names the loop tries *)

Lemma has_In used x : has used x = true <-> In x used.
Proof.
  unfold has. rewrite existsb_exists. split.
  - intros (y & Hy & E). destruct (list_eq_dec N.eq_dec x y); [now subst | discriminate].
  - intro H. exists x. split; [assumption|].
    destruct (list_eq_dec N.eq_dec x x); [reflexivity | contradiction].
Qed.

Lemma units_inj a b : units a = units b -> a = b.
Proof.
  unfold units. intro H.
  rewrite <- (string_of_list_ascii_of_string a), <- (string_of_list_ascii_of_string b).
  f_equal. revert H. generalize (list_ascii_of_string a) (list_ascii_of_string b).
  induction l as [|x l IH]; intros [|y l'] H; try discriminate; [reflexivity|].
  cbn [map] in H. injection H as Hxy Hl.
  apply Nat2N.inj in Hxy.
  rewrite <- (ascii_nat_embedding x), <- (ascii_nat_embedding y), Hxy.
  f_equal. now apply IH.
Qed.

Lemma candidate_inj filename i j :
  candidate filename i = candidate filename j -> i = j.
Proof.
  destruct i as [|i], j as [|j]; cbn [candidate]; unfold numberedName; intro H.
  - reflexivity.
  - apply (f_equal (@List.length N)) in H. rewrite !length_app in H. cbn in H. lia.
  - apply (f_equal (@List.length N)) in H. rewrite !length_app in H. cbn in H. lia.
  - apply app_inv_head in H. cbn [app] in H. injection H as H.
    apply units_inj, ofNat_inj in H. lia.
Qed.

Lemma candidates_NoDup filename n : NoDup (map (candidate filename) (seq 0 n)).
Proof.
  apply Finite.Injective_map_NoDup; [|apply seq_NoDup].
  intros i j. apply candidate_inj.
Qed.

Lemma freshName_turns used filename : forall fuel turn,
  match freshName fuel used filename (candidate filename turn) (turn + 2) with
  | Some x => (exists later, x = candidate filename later) /\ ~ In x used
  | None => forall j, turn <= j < turn + fuel -> In (candidate filename j) used
  end.
Proof.
  induction fuel as [|fuel IH]; intro turn; cbn [freshName].
  - intros j Hj. lia.
  - destruct (has used (candidate filename turn)) eqn:E.
    + specialize (IH (S turn)). cbn [candidate Nat.add] in IH.
      destruct (freshName fuel used filename (numberedName filename (turn + 2))
                          (S (turn + 2))) as [x|].
      * exact IH.
      * intros j Hj. destruct (Nat.eq_dec j turn) as [->|Hne].
        -- now apply has_In.
        -- apply IH. lia.
    + split; [now exists turn|]. intro H. apply has_In in H. congruence.
Qed.

(** The loop ends: among the first names it tries, one more than there are
    names in use, one is not in use. *)
Lemma freshName_total used filename :
  exists x,
    freshName (S (List.length used)) used filename filename 2 = Some x /\
    (exists turn, x = candidate filename turn) /\ ~ In x used.
Proof.
  pose proof (freshName_turns used filename (S (List.length used)) 0) as H.
  cbn [candidate Nat.add] in H.
  destruct (freshName (S (List.length used)) used filename filename 2) as [x|].
  - exists x. split; [reflexivity | exact H].
  - exfalso.
    pose proof (candidates_NoDup filename (S (List.length used))) as Hnd.
    assert (Hincl : incl (map (candidate filename) (seq 0 (S (List.length used)))) used).
    { intros y Hy. apply in_map_iff in Hy as (j & <- & Hj). apply in_seq in Hj.
      apply H. lia. }
    pose proof (NoDup_incl_length Hnd Hincl) as Hlen.
    rewrite length_map, length_seq in Hlen. lia.
Qed.

Lemma nameFiles_distinct (componentNames : list jsString) : forall used,
  NoDup used ->
  exists names,
    nameFiles used componentNames = Some names /\
    NoDup (used ++ names) /\
    Forall2 (fun componentName name =>
               exists turn, name = candidate (sanitizeFilename componentName) turn)
            componentNames names.
Proof.
  induction componentNames as [|componentName rest IH]; intros used Hused.
  - exists []. cbn. rewrite app_nil_r. auto.
  - cbn [nameFiles]. unfold nameFile.
    destruct (freshName_total used (sanitizeFilename componentName))
      as (x & -> & Hturn & Hfresh).
    destruct (IH (used ++ [x])) as (names & -> & Hnd & Hall).
    + apply NoDup_app; [assumption | repeat constructor; intros [] |].
      intros y Hy [<-|[]]. contradiction.
    + exists (x :: names). split; [reflexivity|]. split.
      * now rewrite <- app_assoc in Hnd.
      * constructor; assumption.
Qed.

(** X12. No two files of the archive have the same name.  For every list of
    components the loop that names the files ends, and it gives as many
    names as there are components, no two of them equal; the name of a
    component is its sanitized name, or that name followed by a hyphen and a
    number from 2 on. *)
Theorem fileNames_distinct (componentNames : list jsString) :
  exists names,
    fileNames componentNames = Some names /\
    NoDup names /\
    Forall2 (fun componentName name =>
               exists turn, name = candidate (sanitizeFilename componentName) turn)
            componentNames names.
Proof.
  destruct (nameFiles_distinct componentNames (NoDup_nil _)) as (names & H & Hnd & Hall).
  exists names. auto.
Qed.

End FilesFacts.

Module TotalFacts.
Import Js Tree Shape Variants Input Grouping Report Extract Obj.
Import JsFacts MonadFacts ShapeFacts InputFacts GroupingFacts ReportFacts ReachFacts OrderFacts.
Import ObjFacts ExtractFacts VariantSetFacts.

Lemma sequence_rendered (rs : list ElementRecord) :
  exists text, singleBranch (sequence rs) = Ok text.
Proof.
  destruct (sequence_built rs) as (st & forest & _ & _ & _ & Hbuild).
  exists (renderTree forest). unfold singleBranch. now rewrite Hbuild.
Qed.

Lemma variantAnatomies_sequences (children : list SceneNode) :
  forall acc,
    NoDup (map fst acc) ->
    Forall (fun kv => exists rs, snd kv = sequence rs) acc ->
    NoDup (map fst (fold_left addVariantAnatomy children acc)) /\
    Forall (fun kv => exists rs, snd kv = sequence rs)
           (fold_left addVariantAnatomy children acc).
Proof.
  induction children as [|v rest IH]; intros acc Hnd Hacc; [now split|].
  cbn [fold_left]. apply IH.
  - unfold addVariantAnatomy. destruct (String.eqb (layerType v) "COMPONENT");
      [now apply setProp_NoDup | assumption].
  - unfold addVariantAnatomy. destruct (String.eqb (layerType v) "COMPONENT");
      [|assumption].
    apply (@setProp_Forall (fun x => exists rs, x = sequence rs)); [|assumption].
    exists (recordsOf (layerChildren v)). apply traverseAll_records.
Qed.

Lemma sequences_variants (fields : list (string * value)) :
  Forall (fun kv => exists rs, snd kv = sequence rs) fields ->
  exists variants : list (string * list ElementRecord),
    fields = map (fun v => (fst v, sequence (snd v))) variants /\
    map fst variants = map fst fields.
Proof.
  induction 1 as [|(k, x) rest (rs & Hx) Hrest (variants & Hv & Hk)].
  - now exists [].
  - exists ((k, rs) :: variants). cbn [map fst snd] in *. subst x.
    now rewrite <- Hv, Hk.
Qed.

Lemma blocks_rendered anatomyData gs sgs :
  Forall2 (standsFor anatomyData) gs sgs ->
  exists blocks, mapM (block anatomyData) (map snd gs) = Ok blocks.
Proof.
  induction 1 as [|g sg gs sgs (Hmem & Hne & _ & Hget) Hrest (blocks & IH)].
  - now exists [].
  - cbn [map mapM]. unfold block at 1. rewrite Hmem, Hget. cbn [bind].
    destruct (sequence_built (fst sg)) as (st & forest & _ & _ & _ & Hbuild).
    rewrite Hbuild. cbn [bind]. rewrite IH. cbn [bind]. eauto.
Qed.

(** A mapping of variants to sequences of records is rendered. *)
Lemma variants_rendered (variants : list (string * list ElementRecord)) :
  NoDup (map fst variants) ->
  exists text, convertAnatomyToTree (variantsData variants) = Ok text.
Proof.
  intro Hnd. destruct variants as [|(k, rs) rest] eqn:Ev.
  - exists EmptyString. reflexivity.
  - rewrite <- Ev in *.
    assert (Hfirst : get (variantsData variants) k = Ok (sequence rs)).
    { apply (@lookup_variant variants (k, rs) Hnd). rewrite Ev. now left. }
    assert (Hks : keys (variantsData variants) = Ok (map fst variants)).
    { unfold variantsData. cbn [keys]. rewrite map_map. reflexivity. }
    assert (Hhd : firstKey (map fst variants) = k) by (now rewrite Ev).
    rewrite (@convertAnatomyToTree_branches _ (sequence rs)).
    2: { now rewrite Ev. }
    2: { unfold firstValueOf. rewrite Hks. cbn [bind]. now rewrite Hhd. }
    cbn [sequence isVariantBased truthy isArray andb orb].
    unfold variantBranch. rewrite Hks. cbn [bind].
    destruct (@groupVariants_partition (variantsData variants) variants
                (fun x Hx => lookup_variant variants x Hnd Hx) [] [] (Forall2_nil _))
      as (gs & Hrun & Hstand).
    unfold groupVariants. rewrite Hrun. cbn [bind].
    destruct (Nat.eqb (List.length gs) 1).
    + rewrite Hhd, Hfirst. cbn [bind]. apply sequence_rendered.
    + rewrite renderGroups_blocks.
      destruct (blocks_rendered Hstand) as (blocks & ->). cbn [bind]. eauto.
Qed.

(** X13. The tree view is written for every component and every set of
    variants of a document: whatever the layers, their names and their
    types, [convertAnatomyToTree] returns a text on what [ExportAnatomy]
    extracts, and raises no error.  (Of the mapping written for a set it
    reads own properties only, so that a variant named [__proto__], which
    is not written as one, is left out of the text and changes nothing
    else.) *)
Theorem extracted_anatomy_rendered (node : SceneNode) :
  exists text, convertAnatomyToTree (ExportAnatomy node) = Ok text.
Proof.
  unfold ExportAnatomy.
  destruct (String.eqb (layerType node) "COMPONENT_SET" &&
            Nat.ltb 0 (List.length (layerChildren node))).
  - destruct (@variantAnatomies_sequences (layerChildren node) [] (NoDup_nil _) (Forall_nil _))
      as (Hnd & Hall).
    destruct (sequences_variants Hall) as (variants & Hfields & Hkeys).
    rewrite Hfields. apply variants_rendered. now rewrite Hkeys.
  - rewrite traverseAll_records, sequence_not_variantBased. apply sequence_rendered.
Qed.

(** A set whose only variant is named [__proto__] has no variant to show:
    the mapping written for it has no key, and the text is empty. *)
Example proto_variant_left_out :
  convertAnatomyToTree
    (ExportAnatomy
       (Layer "Button" "COMPONENT_SET"
          [Layer "__proto__" "COMPONENT" [Layer "Label" "TEXT" []]]))
  = Ok EmptyString.
Proof. reflexivity. Qed.

(** In a set of which one variant has no icon, the variant named 7 is
    listed first, before the variants written earlier, and shares a group
    with the other variant that has the icon. *)
Example mixed_set_grouped :
  exists anatomyGroups,
    groupVariants (ExportAnatomy Samples.mixedSet) ["7"; "Icon=On"; "Icon=Off"]
    = Ok anatomyGroups /\
    keys (ExportAnatomy Samples.mixedSet) = Ok ["7"; "Icon=On"; "Icon=Off"] /\
    map snd anatomyGroups = [["7"; "Icon=On"]; ["Icon=Off"]].
Proof. eexists. split; [vm_compute; reflexivity | split; reflexivity]. Qed.

End TotalFacts.

Module LegacyEntryFacts.
Import Js Flat LegacyEntry.
Import FlatFacts TypingsFacts.

(** X14. The newer and the older copy take the same inputs for mappings of
    variants: on every value under the first key the two tests of
    [isVariantBased] decide alike.  (An array has no [type] and no [path],
    so the older test, which does not ask whether the value is an array,
    holds of every array.) *)
Theorem isVariantBased_unchanged (firstValue : value) :
  LegacyEntry.isVariantBased firstValue = Variants.isVariantBased firstValue.
Proof.
  unfold LegacyEntry.isVariantBased, Variants.isVariantBased.
  destruct firstValue as [| |b|n|s|items|fields]; try reflexivity.
  all: cbn [truthy typeofObject isArray andb orb].
  all: try (now destruct b).
  all: try (now destruct (negb _)).
  unfold Variants.fieldUndefined. cbn [get String.eqb Ascii.eqb Bool.eqb].
  now rewrite !atKey_name by reflexivity.
Qed.

(** *** Sorting the keys *)

Section KeyOrder.
Variable keyLe : string -> string -> bool.
Hypothesis keyLe_order : totalOrder keyLe.

Lemma insertSorted_perm k l : Permutation (insertSorted keyLe k l) (k :: l).
Proof.
  induction l as [|a l IH]; [reflexivity|]. cbn [insertSorted].
  destruct (keyLe k a); [reflexivity|].
  rewrite IH. apply perm_swap.
Qed.

Lemma sortKeys_perm l : Permutation (sortKeys keyLe l) l.
Proof.
  induction l as [|a l IH]; [reflexivity|]. cbn [sortKeys].
  rewrite insertSorted_perm. now constructor.
Qed.

Lemma insertSorted_sorted k l :
  StronglySorted (fun x y => keyLe x y = true) l ->
  StronglySorted (fun x y => keyLe x y = true) (insertSorted keyLe k l).
Proof.
  destruct keyLe_order as (Htotal & _ & Htrans).
  induction 1 as [|a l Hl IH Ha]; [repeat constructor|].
  cbn [insertSorted]. destruct (keyLe k a) eqn:E.
  - constructor; [now constructor|]. constructor; [assumption|].
    eapply Forall_impl; [|exact Ha]. cbn. intros y Hy. now apply (Htrans k a y).
  - constructor; [assumption|].
    assert (Hak : keyLe a k = true) by (destruct (Htotal k a); congruence).
    rewrite Forall_forall in *. intros y Hy.
    apply (Permutation_in _ (insertSorted_perm k l)) in Hy. destruct Hy as [<-|Hy]; auto.
Qed.

Lemma sortKeys_sorted l : StronglySorted (fun x y => keyLe x y = true) (sortKeys keyLe l).
Proof.
  induction l as [|a l IH]; [constructor|]. cbn [sortKeys]. now apply insertSorted_sorted.
Qed.

Lemma sorted_unique (l1 : list string) : forall l2,
  StronglySorted (fun x y => keyLe x y = true) l1 ->
  StronglySorted (fun x y => keyLe x y = true) l2 ->
  Permutation l1 l2 -> l1 = l2.
Proof.
  destruct keyLe_order as (Htotal & Hanti & _).
  induction l1 as [|a l1 IH]; intros l2 H1 H2 Hperm.
  - now apply Permutation_nil in Hperm.
  - destruct l2 as [|b l2]; [symmetry in Hperm; now apply Permutation_nil in Hperm|].
    inversion H1 as [|? ? Hs1 Ha]; subst. inversion H2 as [|? ? Hs2 Hb]; subst.
    assert (Hab : a = b).
    { assert (Hin1 : In a (b :: l2)) by (eapply Permutation_in; [exact Hperm | now left]).
      assert (Hin2 : In b (a :: l1))
        by (eapply Permutation_in; [symmetry; exact Hperm | now left]).
      destruct Hin1 as [->|Hin1]; [reflexivity|].
      destruct Hin2 as [->|Hin2]; [reflexivity|].
      rewrite Forall_forall in Ha, Hb. apply Hanti; auto. }
    subst b. f_equal. apply IH; try assumption.
    now apply Permutation_cons_inv in Hperm.
Qed.

(** The keys of two objects that have the same keys are sorted into the same
    list. *)
Lemma sortKeys_order_free l1 l2 :
  Permutation l1 l2 -> sortKeys keyLe l1 = sortKeys keyLe l2.
Proof.
  intro H. apply sorted_unique; try apply sortKeys_sorted.
  rewrite !sortKeys_perm. exact H.
Qed.

Lemma compareEntries_same (e1 e2 : list FlatEntry) (ks : list string) :
  NoDup (map entryName e1) ->
  Permutation e1 e2 ->
  (forall k, In k ks -> In k (map entryName e1)) ->
  compareEntries (flatMapping e1) (flatMapping e2) ks = Ok true.
Proof.
  intros Hnd Hperm. 
  assert (Hnd2 : NoDup (map entryName e2)).
  { eapply Permutation_NoDup; [|exact Hnd]. now apply Permutation_map. }
  induction ks as [|k ks IH]; intro Hks; [reflexivity|].
  cbn [compareEntries].
  destruct (proj1 (in_map_iff _ _ _) (Hks k (or_introl eq_refl))) as (e & <- & He).
  rewrite (flat_get e1 e Hnd He).
  rewrite (flat_get e2 e Hnd2 (Permutation_in _ Hperm He)).
  cbn [bind get lookup String.eqb Ascii.eqb Bool.eqb orUndefined strictEq].
  rewrite !String.eqb_refl. cbn [negb].
  apply IH. intros k' Hk'. apply Hks. now right.
Qed.

(** The older comparison does not see the order of the keys. *)
Lemma compareAnatomies_order_free (e1 e2 : list FlatEntry) :
  NoDup (map entryName e1) ->
  Permutation e1 e2 ->
  compareAnatomies keyLe (flatMapping e1) (flatMapping e2) = Ok true.
Proof.
  intros Hnd Hperm. unfold compareAnatomies. rewrite !flat_keys. cbn [bind].
  rewrite <- (@sortKeys_order_free (map entryName e1) (map entryName e2))
    by (now apply Permutation_map).
  rewrite Nat.eqb_refl, String.eqb_refl. cbn [negb].
  apply compareEntries_same; try assumption.
  intros k Hk. eapply Permutation_in; [apply sortKeys_perm | exact Hk].
Qed.

End KeyOrder.

Lemma leb_totalOrder : totalOrder String.leb.
Proof.
  repeat split.
  - apply String.leb_total.
  - apply String.leb_antisym.
  - intros x y z. unfold String.leb. intros Hxy Hyz.
    destruct (String.compare x y) eqn:E1; try discriminate.
    + apply String.compare_eq_iff in E1. now subst.
    + destruct (String.compare y z) eqn:E2; try discriminate.
      * apply String.compare_eq_iff in E2. subst. now rewrite E1.
      * apply String_as_OT.cmp_lt in E1, E2.
        pose proof (String_as_OT.lt_trans x y z E1 E2) as Hlt.
        apply String_as_OT.cmp_lt in Hlt. unfold String_as_OT.cmp in Hlt.
        now rewrite Hlt.
Qed.

(** X15. The older comparison of two anatomies does not see the order of
    their keys: two flat mappings that hold the same entries, in whatever
    order, are judged equal, whatever the order [sort()] puts the keys
    in. *)
Theorem legacy_compare_order_free (keyLe : string -> string -> bool)
                                  (e1 e2 : list FlatEntry) :
  totalOrder keyLe ->
  NoDup (map entryName e1) ->
  Permutation e1 e2 ->
  compareAnatomies keyLe (flatMapping e1) (flatMapping e2) = Ok true.
Proof. intros Horder Hnd Hperm. now apply compareAnatomies_order_free. Qed.

Lemma legacy_compare_order_free_witness :
  totalOrder String.leb /\
  NoDup (map entryName Examples.unsorted) /\
  Permutation Examples.unsorted (rev Examples.unsorted) /\
  compareAnatomies String.leb (flatMapping Examples.unsorted)
                   (flatMapping (rev Examples.unsorted)) = Ok true.
Proof.
  assert (Hnd : NoDup (map entryName Examples.unsorted)).
  { vm_compute. repeat constructor; cbn; intuition discriminate. }
  split; [exact leb_totalOrder|]. split; [exact Hnd|].
  split; [apply Permutation_rev|].
  exact (@legacy_compare_order_free String.leb Examples.unsorted (rev Examples.unsorted)
           leb_totalOrder Hnd (Permutation_rev _)).
Defined.

End LegacyEntryFacts.
